(** * cibyl: filter utility, Zuul transactions, variable search, validator

    A shallow embedding of
    - [cibyl/utils/filtering.py]            (module [Filtering]),
    - [cibyl/sources/zuul/transactions]     (module [Transactions]),
    - [cibyl/plugins/openstack/sources/zuul/variants.py] (module [Variants]),
    - [cibyl/cli/validator.py]              (module [Validation]),
    followed by the properties of each. *)

From Stdlib Require Import ZArith PrimFloat.
From stdpp Require Import gmap strings list fin_maps functions.

Open Scope string_scope.
Open Scope list_scope.
Open Scope nat_scope.

(* ===================================================================== *)
(** ** cibyl/utils/filtering.py *)
(* ===================================================================== *)

Module Filtering.

(** [apply_filters(iterable, *filters)]: [result = list(iterable)], then
    for every [check] of [filters], in the order given,
    [result = list(filter(check, result))]. *)
Definition apply_filters {A : Type} (iterable : list A)
    (filters : list (A → bool)) : list A :=
  fold_left (λ result check, List.filter check result) filters iterable.

(** An element is accepted by a sequence of predicates when each of them
    holds of it. *)
Definition accepted {A : Type} (filters : list (A → bool)) (x : A) : bool :=
  forallb (λ check, check x) filters.

End Filtering.

(* ===================================================================== *)
(** ** cibyl/sources/zuul/transactions/__init__.py *)
(* ===================================================================== *)

Module Transactions.
Import Filtering.

(** *** Low-level providers

    The wrapped host API objects are read through their attributes only;
    a record holds the attributes the requests and responses read. *)

Record ZuulTenantAPI := {
  tenant_name : string
}.

Record ZuulProjectAPI := {
  project_tenant : ZuulTenantAPI;
  project_name : string;
  project_url : string
}.

Record ZuulPipelineAPI := {
  pipeline_project : ZuulProjectAPI;
  pipeline_name : string
}.

(** A build as [BuildsRequest]'s tests read it: [build.uuid],
    [build.result], [build.project], [build.pipeline]. *)
Record ZuulBuildAPI := {
  build_uuid : string;
  build_result : string;
  build_project : string;
  build_pipeline : string
}.

(** A job; [job_builds] is what [job.builds()] answers, in the order the
    host gives it (newest first). *)
Record ZuulJobAPI := {
  job_tenant : ZuulTenantAPI;
  job_name : string;
  job_url : string;
  job_builds : list ZuulBuildAPI
}.

(** [BuildResponse(build)] keeps the build in [_build]. *)
Record BuildResponse := {
  _build : ZuulBuildAPI
}.

Section Builds.

(** [matches_regex(pattern, string)] of [cibyl.utils.filtering], kept
    abstract: any test of a string against a pattern. *)
Variable matches_regex : string → string → bool.

(** The local function [test] of each [with_*] method:
    [any(matches_regex(patt, build.<field>) for patt in pattern)]. *)
Definition test (field : ZuulBuildAPI → string) (pattern : list string)
    (build : ZuulBuildAPI) : bool :=
  existsb (λ patt, matches_regex patt (field build)) pattern.

(** [BuildsRequest]: the job, [Request._filters] and the flag. *)
Record BuildsRequest := {
  _job : ZuulJobAPI;
  _filters : list (ZuulBuildAPI → bool);
  _last_build_only : bool
}.

(** [BuildsRequest.__init__(job)] *)
Definition BuildsRequest_init (job : ZuulJobAPI) : BuildsRequest :=
  {| _job := job; _filters := []; _last_build_only := false |}.

(** [self._filters.append(test)] *)
Definition append_filter (self : BuildsRequest)
    (check : ZuulBuildAPI → bool) : BuildsRequest :=
  {| _job := _job self;
     _filters := _filters self ++ [check];
     _last_build_only := _last_build_only self |}.

Definition with_uuid (pattern : list string) (self : BuildsRequest) :=
  append_filter self (test build_uuid pattern).

Definition with_status (pattern : list string) (self : BuildsRequest) :=
  append_filter self (test build_result pattern).

Definition with_project (pattern : list string) (self : BuildsRequest) :=
  append_filter self (test build_project pattern).

Definition with_pipeline (pattern : list string) (self : BuildsRequest) :=
  append_filter self (test build_pipeline pattern).

Definition with_last_build_only (self : BuildsRequest) : BuildsRequest :=
  {| _job := _job self;
     _filters := _filters self;
     _last_build_only := true |}.

(** [BuildsRequest.get]; [builds[0:1]] is [take 1]. *)
Definition get (self : BuildsRequest) : list BuildResponse :=
  let builds := apply_filters (job_builds (_job self)) (_filters self) in
  let builds := if _last_build_only self then take 1 builds else builds in
  map Build_BuildResponse builds.

(** A chain of calls on a request, such as
    [job.builds().with_status(p).with_last_build_only().with_uuid(q)]. *)
Inductive call :=
| WithUuid (pattern : list string)
| WithStatus (pattern : list string)
| WithProject (pattern : list string)
| WithPipeline (pattern : list string)
| WithLastBuildOnly.

Definition perform (self : BuildsRequest) (c : call) : BuildsRequest :=
  match c with
  | WithUuid pattern => with_uuid pattern self
  | WithStatus pattern => with_status pattern self
  | WithProject pattern => with_project pattern self
  | WithPipeline pattern => with_pipeline pattern self
  | WithLastBuildOnly => with_last_build_only self
  end.

Definition chain (job : ZuulJobAPI) (calls : list call) : BuildsRequest :=
  fold_left perform calls (BuildsRequest_init job).

(** The predicate a call registers, if it registers one. *)
Definition registered (c : call) : list (ZuulBuildAPI → bool) :=
  match c with
  | WithUuid pattern => [test build_uuid pattern]
  | WithStatus pattern => [test build_result pattern]
  | WithProject pattern => [test build_project pattern]
  | WithPipeline pattern => [test build_pipeline pattern]
  | WithLastBuildOnly => []
  end.

Definition is_pattern_call (c : call) : bool :=
  match c with WithLastBuildOnly => false | _ => true end.

End Builds.

(** *** Response wrappers and their comparison

    Responses are Python objects: each lives at an address of the object
    store, and [a is b] compares addresses. *)

Abbreviation address := nat.

Inductive object :=
| TenantResponse (_tenant : ZuulTenantAPI)
| ProjectResponse (_project : ZuulProjectAPI)
| PipelineResponse (_pipeline : ZuulPipelineAPI)
| JobResponse (_job : ZuulJobAPI)
| Other.

(** [PipelineResponse.__eq__(self, other)].  [self.name] is
    [self._pipeline.name]; [self.project.name] goes through
    [ProjectResponse(self._pipeline.project)] to
    [self._pipeline.project.name].  The answer is [None] only when [self]
    is not a stored [PipelineResponse] or [other] is not stored. *)
Definition PipelineResponse___eq__ (store : gmap address object)
    (self other : address) : option bool :=
  match store !! self, store !! other with
  | Some (PipelineResponse p), Some o =>
      match o with
      | PipelineResponse q =>
          if bool_decide (self = other) then Some true
          else Some (bool_decide (pipeline_name p = pipeline_name q)
                     && bool_decide
                          (project_name (pipeline_project p)
                           = project_name (pipeline_project q)))
      | _ => Some false
      end
  | _, _ => None
  end.

(** [object.__eq__], which [JobResponse] and [ProjectResponse] inherit
    since neither class defines [__eq__]: [==] between two of them comes
    down to [self is other]. *)
Definition object___eq__ (self other : address) : bool :=
  bool_decide (self = other).

(** [a == b] for a stored left operand, by the class of [a]. *)
Definition response_eq (store : gmap address object)
    (self other : address) : option bool :=
  match store !! self, store !! other with
  | Some (PipelineResponse _), Some _ =>
      PipelineResponse___eq__ store self other
  | Some _, Some _ => Some (object___eq__ self other)
  | _, _ => None
  end.

(** The name of a wrapper and the name of its parent: the project of a
    pipeline, the tenant of a job or of a project. *)
Definition name_of (o : object) : option string :=
  match o with
  | TenantResponse t => Some (tenant_name t)
  | ProjectResponse p => Some (project_name p)
  | PipelineResponse p => Some (pipeline_name p)
  | JobResponse j => Some (job_name j)
  | Other => None
  end.

Definition parent_name_of (o : object) : option string :=
  match o with
  | ProjectResponse p => Some (tenant_name (project_tenant p))
  | PipelineResponse p => Some (project_name (pipeline_project p))
  | JobResponse j => Some (tenant_name (job_tenant j))
  | _ => None
  end.

Definition same_kind (a b : object) : bool :=
  match a, b with
  | ProjectResponse _, ProjectResponse _
  | PipelineResponse _, PipelineResponse _
  | JobResponse _, JobResponse _ => true
  | _, _ => false
  end.

(** *** Variants *)

(** Values a job variable can hold. *)
#[warnings="-register-all"]
Inductive value :=
| VNone
| VBool (b : bool)
| VInt (n : Z)
| VFloat (x : float)
| VStr (s : string)
| VList (items : list value)
| VDict (items : list (string * value)).

(** Python truth value: [None], [False], [0], [0.0], [''], [[]] and [{}]
    are false, everything else is true. *)
Definition truthy (v : value) : bool :=
  match v with
  | VNone => false
  | VBool b => b
  | VInt n => negb (n =? 0)%Z
  | VFloat x => negb (PrimFloat.eqb x PrimFloat.zero)
  | VStr s => negb (String.eqb s "")
  | VList items => match items with [] => false | _ => true end
  | VDict items => match items with [] => false | _ => true end
  end.

(** [variant_variables recursive] is what the provider's
    [variables(recursive)] answers. *)
Record ZuulVariantAPI := {
  variant_name : string;
  variant_variables : bool → gmap string value
}.

Record VariantResponse := {
  _variant : ZuulVariantAPI
}.

(** [VariantResponse.variables(recursive=False)] *)
Definition variables (self : VariantResponse) (recursive : bool)
    : gmap string value :=
  variant_variables (_variant self) recursive.

End Transactions.

(* ===================================================================== *)
(** ** cibyl/plugins/openstack/sources/zuul/variants.py *)
(* ===================================================================== *)

Module Variants.
Import Transactions.

Record VariableSearch := {
  search_terms : list string
}.

(** The loop of [VariableSearch.search]:
    [for search_term in self.search_terms:
       if search_term in variables: return variables[search_term]],
    and [return None] after it. *)
Fixpoint search_in (terms : list string) (vars : gmap string value)
    : value :=
  match terms with
  | [] => VNone
  | search_term :: rest =>
      match vars !! search_term with
      | Some found => found
      | None => search_in rest vars
      end
  end.

(** [VariableSearch.search(variant)] *)
Definition search (self : VariableSearch) (variant : VariantResponse)
    : value :=
  search_in (search_terms self) (variables variant true).

Definition DEFAULT_SEARCH_TERMS : list string :=
  ["rhos_release_version"; "osp_release"; "release"].

Section Release.

(** Python's built-in [str]. *)
Variable str : value → string.

(** [ReleaseSearch.search(variant)]: [result = super().search(variant)],
    [if not result: return None], [return str(result)]. *)
Definition ReleaseSearch_search (self : VariableSearch)
    (variant : VariantResponse) : value :=
  let result := search self variant in
  if negb (truthy result) then VNone else VStr (str result).

End Release.

(** The first search term that names a variable, if there is one. *)
Definition first_match (terms : list string) (vars : gmap string value)
    : option string :=
  List.find (λ term, bool_decide (is_Some (vars !! term))) terms.

End Variants.

(* ===================================================================== *)
(** ** cibyl/cli/validator.py *)
(* ===================================================================== *)

Module Validation.

(** *** Configuration objects

    Environments, systems and sources are objects that the validator
    mutates in place and that several lists refer to at once
    ([environments], [all_systems], [user_envs], [user_systems]), so
    they live in a store and lists hold references. *)

Abbreviation ref := nat.

(** Modelled from the spec: the [Source] class is not among the source files;
    a Source has a name, read as [source.name] and as [source['name']],
    and may be disabled independently. *)
Record Source := {
  source_name : string;
  source_enabled : bool
}.

(** Modelled from the spec: the [System] class is not among the source files;
    a System has a name, a type, an enabled flag and an ordered
    collection of Sources. *)
Record System := {
  system_name : string;
  system_type : string;
  system_enabled : bool;
  system_sources : list ref
}.

(** Modelled from the spec: the [Environment] class is not among the
    source files; an Environment has a name and an ordered collection of
    Systems ([env.systems.value]). *)
Record Environment := {
  env_name : string;
  env_systems : list ref
}.

(** Modelled from the spec: the [Argument] class is not among the
    source files; an argument that was given on the command line is an object,
    true whenever it is present in [ci_args], whose [value] is the list of
    strings given for it, possibly empty. The specification also lets
    [value] be [None]: that case is the matter of [ValidationNone] below,
    and everything said of [Argument] is said of arguments that hold a
    list. *)
Record Argument := {
  value : list string
}.

(** The store, and the records [LOG.debug] has written: the message
    template and the name it was given. *)
Record state := {
  environments : ref → Environment;
  systems : ref → System;
  sources : ref → Source;
  debug_log : list (string * string)
}.

(** The exceptions of the validator, and Python's [TypeError], which
    iterating over [None] or looking for a member in it raises. *)
Inductive exception :=
| InvalidEnvironment (name : string) (all_envs : list string)
| InvalidSystem (name : string) (all_systems : list string)
| NoValidSystem (system_names : list string)
| NoEnabledSystem
| NoValidSources (names : list string)
| TypeError.

(** *** Computations that read and write the store and may raise *)

Definition M (A : Type) : Type := state → (exception + A) * state.

Definition ret {A} (a : A) : M A := λ σ, (inr a, σ).

Definition bind {A B} (m : M A) (k : A → M B) : M B :=
  λ σ, match m σ with
       | (inr a, σ') => k a σ'
       | (inl e, σ') => (inl e, σ')
       end.

Definition raise {A} (e : exception) : M A := λ σ, (inl e, σ).

Definition gets {A} (f : state → A) : M A := λ σ, (inr (f σ), σ).

Definition modify (f : state → state) : M unit := λ σ, (inr tt, f σ).

#[global] Instance M_ret : MRet M := @ret.
#[global] Instance M_bind : MBind M := λ A B k m, bind m k.

(** [LOG.debug(msg, name)] *)
Definition LOG_debug (msg name : string) : M unit :=
  modify (λ σ, {| environments := environments σ;
                  systems := systems σ;
                  sources := sources σ;
                  debug_log := debug_log σ ++ [(msg, name)] |}).

(** Modelled from the spec: [Source.disable()], which is not among the
    source files; disabling twice leaves the source disabled. *)
Definition disable (source : ref) : M unit :=
  modify (λ σ, {| environments := environments σ;
                  systems := systems σ;
                  sources :=
                    alter (λ s, {| source_name := source_name s;
                                   source_enabled := false |})
                          source (sources σ);
                  debug_log := debug_log σ |}).

(** Modelled from the spec: [System.enable()], which is not among the
    source files; it sets the enabled flag. *)
Definition enable (system : ref) : M unit :=
  modify (λ σ, {| environments := environments σ;
                  systems :=
                    alter (λ s, {| system_name := system_name s;
                                   system_type := system_type s;
                                   system_enabled := true;
                                   system_sources := system_sources s |})
                          system (systems σ);
                  sources := sources σ;
                  debug_log := debug_log σ |}).

(** Modelled from the spec: [System.is_enabled()], which is not among
    the source files; it reads the enabled flag. *)
Definition is_enabled (system : ref) : M bool :=
  gets (λ σ, system_enabled (systems σ system)).

(** [env.systems.value = env_systems] *)
Definition set_systems (env : ref) (env_systems : list ref) : M unit :=
  modify (λ σ, {| environments :=
                    alter (λ e, {| env_name := env_name e;
                                   env_systems := env_systems |})
                          env (environments σ);
                  systems := systems σ;
                  sources := sources σ;
                  debug_log := debug_log σ |}).

Section Validator.

(** [self.ci_args] *)
Variable ci_args : gmap string Argument.

(** The loop of [_check_input_environments]. *)
Fixpoint check_names (exception_to_raise : string → list string → exception)
    (all_envs : list string) (names : list string) : M unit :=
  match names with
  | [] => ret tt
  | env_name :: rest =>
      if negb (bool_decide (env_name ∈ all_envs))
      then raise (exception_to_raise env_name all_envs)
      else check_names exception_to_raise all_envs rest
  end.

Definition _check_input_environments (all_envs : list string)
    (argument : string)
    (exception_to_raise : string → list string → exception) : M unit :=
  match ci_args !! argument with
  | Some env_user_input =>
      check_names exception_to_raise all_envs (value env_user_input)
  | None => ret tt
  end.

Definition _consistent_environment (env : ref) : M bool :=
  name ← gets (λ σ, env_name (environments σ env));
  match ci_args !! "env_name" with
  | Some user_env => ret (bool_decide (name ∈ value user_env))
  | None => ret true
  end.

Definition _consistent_system (system : ref) : M bool :=
  name ← gets (λ σ, system_name (systems σ system));
  type ← gets (λ σ, system_type (systems σ system));
  match ci_args !! "system_type" with
  | Some user_system_type =>
      if negb (bool_decide (type ∈ value user_system_type))
      then ret false
      else
        match ci_args !! "systems" with
        | Some user_systems =>
            if negb (bool_decide (name ∈ value user_systems))
            then ret false else ret true
        | None => ret true
        end
  | None =>
      match ci_args !! "systems" with
      | Some user_systems =>
          if negb (bool_decide (name ∈ value user_systems))
          then ret false else ret true
      | None => ret true
      end
  end.

(** The loop [for source in system.sources:
                if source.name in unused_sources: source.disable()]. *)
Fixpoint disable_unused (unused_sources : gset string)
    (system_sources : list ref) : M unit :=
  match system_sources with
  | [] => ret tt
  | source :: rest =>
      name ← gets (λ σ, source_name (sources σ source));
      (if bool_decide (name ∈ unused_sources)
       then disable source else ret tt);;
      disable_unused unused_sources rest
  end.

Definition _system_has_valid_sources (system : ref) : M bool :=
  srcs ← gets (λ σ, system_sources (systems σ system));
  names ← gets (λ σ, map (λ source, source_name (sources σ source)) srcs);
  let system_sources : gset string := list_to_set names in
  match ci_args !! "sources" with
  | Some user_sources =>
      let user_sources_names : gset string :=
        list_to_set (value user_sources) in
      let unused_sources := system_sources ∖ user_sources_names in
      disable_unused unused_sources srcs;;
      if bool_decide (user_sources_names ∩ system_sources = ∅)
      then ret false
      else ret true
  | None => ret true
  end.

(** The inner loop of [check_envs], over [env.systems]. *)
Fixpoint check_systems (systems_check : ref → M bool)
    (systems_msg : string) (todo : list ref) (env_systems : list ref)
    : M (list ref) :=
  match todo with
  | [] => ret env_systems
  | system :: rest =>
      ok ← systems_check system;
      if negb ok then
        name ← gets (λ σ, system_name (systems σ system));
        LOG_debug systems_msg name;;
        check_systems systems_check systems_msg rest env_systems
      else
        check_systems systems_check systems_msg rest
          (env_systems ++ [system])
  end.

(** The outer loop of [check_envs], over [environments]. *)
Fixpoint check_envs_loop (systems_check envs_check : ref → M bool)
    (systems_msg envs_msg : string) (todo : list ref)
    (user_envs user_systems : list ref) : M (list ref * list ref) :=
  match todo with
  | [] => ret (user_envs, user_systems)
  | env :: rest =>
      ok ← envs_check env;
      if negb ok then
        name ← gets (λ σ, env_name (environments σ env));
        LOG_debug envs_msg name;;
        check_envs_loop systems_check envs_check systems_msg envs_msg
          rest user_envs user_systems
      else
        todo_systems ← gets (λ σ, env_systems (environments σ env));
        env_systems ← check_systems systems_check systems_msg
                        todo_systems [];
        match env_systems with
        | [] =>
            check_envs_loop systems_check envs_check systems_msg envs_msg
              rest user_envs user_systems
        | _ =>
            set_systems env env_systems;;
            check_envs_loop systems_check envs_check systems_msg envs_msg
              rest (user_envs ++ [env]) (user_systems ++ env_systems)
        end
  end.

Definition check_envs (environments : list ref)
    (systems_check envs_check : ref → M bool)
    (systems_msg envs_msg : string) : M (list ref * list ref) :=
  check_envs_loop systems_check envs_check systems_msg envs_msg
    environments [] [].

Definition _system_is_enabled (system : ref) : M bool :=
  is_enabled system.

(** The loop of [override_enabled_systems]. *)
Fixpoint enable_named (names : list string) (todo : list ref) : M unit :=
  match todo with
  | [] => ret tt
  | system :: rest =>
      name ← gets (λ σ, system_name (systems σ system));
      (if bool_decide (name ∈ names) then enable system else ret tt);;
      enable_named names rest
  end.

Definition override_enabled_systems (systems : list ref) : M unit :=
  match ci_args !! "systems" with
  | None => ret tt
  | Some user_systems =>
      match value user_systems with
      | [] => ret tt
      | names => enable_named names systems
      end
  end.

Definition msg_system_inconsistent : string :=
  "System %s is not consistent with user input".
Definition msg_env_inconsistent : string :=
  "Environment %s is not consistent with user input".
Definition msg_system_disabled : string := "System %s is disabled ".
Definition msg_system_no_sources : string :=
  "System %s has no sources consistent with user input".

(** The first loop of [validate_environments]: the names of the
    environments and the systems of all of them. *)
Definition collect (envs : list ref) : M (list string * list ref) :=
  gets (λ σ, (map (λ env, env_name (environments σ env)) envs,
              flat_map (λ env, env_systems (environments σ env)) envs)).

Definition source_names (all_systems : list ref) : M (list string) :=
  gets (λ σ, flat_map
               (λ system, map (λ source, source_name (sources σ source))
                              (system_sources (systems σ system)))
               all_systems).

Definition validate_environments (envs : list ref) : M (list ref) :=
  '(all_envs, all_systems) ← collect envs;
  _check_input_environments all_envs "env_name" InvalidEnvironment;;
  system_names ← gets (λ σ, map (λ system, system_name (systems σ system))
                                all_systems);
  _check_input_environments system_names "systems" InvalidSystem;;
  '(user_envs, user_systems) ←
    check_envs envs _consistent_system _consistent_environment
      msg_system_inconsistent msg_env_inconsistent;
  match user_systems with
  | [] => raise (NoValidSystem system_names)
  | _ =>
    override_enabled_systems user_systems;;
    '(user_envs, user_systems) ←
      check_envs user_envs _system_is_enabled (λ _, ret true)
        msg_system_disabled "";
    match user_systems with
    | [] => raise NoEnabledSystem
    | _ =>
      '(user_envs, user_systems) ←
        check_envs user_envs _system_has_valid_sources (λ _, ret true)
          msg_system_no_sources "";
      match user_systems with
      | [] =>
          names ← source_names all_systems;
          raise (NoValidSources names)
      | _ => ret user_envs
      end
    end
  end.

End Validator.

End Validation.

(* ===================================================================== *)
(** ** cibyl/cli/validator.py, on arguments whose value may be [None] *)
(* ===================================================================== *)

Module ValidationNone.

Import Validation.

(** Modelled from the spec: the [Argument] class is not among the
    source files; the [value] of an argument is a list of strings or
    [None]. The object itself is true whenever it is present in
    [ci_args]. *)
Record GivenArgument := {
  given_value : option (list string)
}.

Section Validator.

(** [self.ci_args] *)
Variable ci_args : gmap string GivenArgument.

(** [for env_name in env_user_input.value] raises [TypeError] on
    [None]. *)
Definition _check_input_environments (all_envs : list string)
    (argument : string)
    (exception_to_raise : string → list string → exception) : M unit :=
  match ci_args !! argument with
  | Some env_user_input =>
      match given_value env_user_input with
      | Some names => check_names exception_to_raise all_envs names
      | None => raise TypeError
      end
  | None => ret tt
  end.

(** [env.name.value in user_env.value] raises [TypeError] on [None]. *)
Definition _consistent_environment (env : ref) : M bool :=
  name ← gets (λ σ, env_name (environments σ env));
  match ci_args !! "env_name" with
  | Some user_env =>
      match given_value user_env with
      | Some names => ret (bool_decide (name ∈ names))
      | None => raise TypeError
      end
  | None => ret true
  end.

(** [system_type not in user_system_type.value] and
    [name not in user_systems.value] raise [TypeError] on [None]. *)
Definition _consistent_system (system : ref) : M bool :=
  name ← gets (λ σ, system_name (systems σ system));
  type ← gets (λ σ, system_type (systems σ system));
  match ci_args !! "system_type" with
  | Some user_system_type =>
      match given_value user_system_type with
      | None => raise TypeError
      | Some types =>
          if negb (bool_decide (type ∈ types))
          then ret false
          else
            match ci_args !! "systems" with
            | Some user_systems =>
                match given_value user_systems with
                | None => raise TypeError
                | Some names =>
                    if negb (bool_decide (name ∈ names))
                    then ret false else ret true
                end
            | None => ret true
            end
      end
  | None =>
      match ci_args !! "systems" with
      | Some user_systems =>
          match given_value user_systems with
          | None => raise TypeError
          | Some names =>
              if negb (bool_decide (name ∈ names))
              then ret false else ret true
          end
      | None => ret true
      end
  end.

(** [set(user_sources.value)] raises [TypeError] on [None], before any
    source is disabled. *)
Definition _system_has_valid_sources (system : ref) : M bool :=
  srcs ← gets (λ σ, system_sources (systems σ system));
  names ← gets (λ σ, map (λ source, source_name (sources σ source)) srcs);
  let system_sources : gset string := list_to_set names in
  match ci_args !! "sources" with
  | Some user_sources =>
      match given_value user_sources with
      | None => raise TypeError
      | Some requested =>
          let user_sources_names : gset string := list_to_set requested in
          let unused_sources := system_sources ∖ user_sources_names in
          disable_unused unused_sources srcs;;
          if bool_decide (user_sources_names ∩ system_sources = ∅)
          then ret false
          else ret true
      end
  | None => ret true
  end.

(** [not user_systems.value] is true of [None] as of the empty list. *)
Definition override_enabled_systems (systems : list ref) : M unit :=
  match ci_args !! "systems" with
  | None => ret tt
  | Some user_systems =>
      match given_value user_systems with
      | None => ret tt
      | Some [] => ret tt
      | Some names => enable_named names systems
      end
  end.

Definition validate_environments (envs : list ref) : M (list ref) :=
  '(all_envs, all_systems) ← collect envs;
  _check_input_environments all_envs "env_name" InvalidEnvironment;;
  system_names ← gets (λ σ, map (λ system, system_name (systems σ system))
                                all_systems);
  _check_input_environments system_names "systems" InvalidSystem;;
  '(user_envs, user_systems) ←
    check_envs envs _consistent_system _consistent_environment
      msg_system_inconsistent msg_env_inconsistent;
  match user_systems with
  | [] => raise (NoValidSystem system_names)
  | _ =>
    override_enabled_systems user_systems;;
    '(user_envs, user_systems) ←
      check_envs user_envs _system_is_enabled (λ _, ret true)
        msg_system_disabled "";
    match user_systems with
    | [] => raise NoEnabledSystem
    | _ =>
      '(user_envs, user_systems) ←
        check_envs user_envs _system_has_valid_sources (λ _, ret true)
          msg_system_no_sources "";
      match user_systems with
      | [] =>
          names ← source_names all_systems;
          raise (NoValidSources names)
      | _ => ret user_envs
      end
    end
  end.

End Validator.

End ValidationNone.

(* ===================================================================== *)
(** ** cibyl/utils/strings.py *)
(* ===================================================================== *)

Module Strings.

Import Stdlib.Strings.Ascii.

(** A text is the list of its characters, in its UTF-8 form: the
    operations below only look for the line feed, and no other
    character's encoding holds its byte. *)
Abbreviation text := (list ascii).

Definition LF : ascii := "010"%char.
Definition SPACE : ascii := " "%char.

(** [s.split('\n')]: the pieces of [s] between line feeds; there is always
    one piece, and one more for each line feed. *)
Fixpoint split (s : text) : list text :=
  match s with
  | [] => [[]]
  | c :: rest =>
      if Ascii.eqb c LF then [] :: split rest
      else match split rest with
           | first :: others => (c :: first) :: others
           | [] => [[c]]
           end
  end.

(** [s.lstrip('\n')], [s.rstrip('\n')] and [s.strip('\n')]. *)
Fixpoint lstrip (s : text) : text :=
  match s with
  | c :: rest => if Ascii.eqb c LF then lstrip rest else s
  | [] => []
  end.

Definition rstrip (s : text) : text := rev (lstrip (rev s)).

Definition strip (s : text) : text := rstrip (lstrip s).

(** [IndentedTextBuilder.Line]: [_text] and [_level]. *)
Record Line := {
  _text : text;
  _level : Z
}.

(** [Line.append(text)]: [self._text += str(text)], for a [text] that is
    a string already. *)
Definition Line_append (self : Line) (more : text) : Line :=
  {| _text := _text self ++ more; _level := _level self |}.

(** [IndentedTextBuilder]: [_lines] and [_spaces_per_tab]. *)
Record IndentedTextBuilder := {
  _lines : list Line;
  _spaces_per_tab : Z
}.

(** [IndentedTextBuilder.__init__(spaces_per_tab=2)] *)
Definition IndentedTextBuilder_init (spaces_per_tab : Z)
    : IndentedTextBuilder :=
  {| _lines := []; _spaces_per_tab := spaces_per_tab |}.

(** [len(self)] *)
Definition __len__ (self : IndentedTextBuilder) : nat :=
  length (_lines self).

(** The position an integer index stands for in a list of [n] items:
    negative indexes count from the end, and an index out of range is an
    [IndexError], here [None]. *)
Definition position (n : nat) (index : Z) : option nat :=
  if (0 <=? index)%Z && (index <? Z.of_nat n)%Z then Some (Z.to_nat index)
  else if (- Z.of_nat n <=? index)%Z && (index <? 0)%Z
       then Some (Z.to_nat (Z.of_nat n + index))
       else None.

(** [self[index]] *)
Definition __getitem__ (self : IndentedTextBuilder) (index : Z)
    : option Line :=
  i ← position (length (_lines self)) index; _lines self !! i.

(** [self.add(text, level)] *)
Definition add (self : IndentedTextBuilder) (txt : text) (level : Z)
    : IndentedTextBuilder :=
  {| _lines := _lines self ++ [ {| _text := txt; _level := level |} ];
     _spaces_per_tab := _spaces_per_tab self |}.

(** [self[index].append(text)]: the line is changed where it is stored. *)
Definition append_at (self : IndentedTextBuilder) (index : Z) (more : text)
    : option IndentedTextBuilder :=
  i ← position (length (_lines self)) index;
  Some {| _lines := alter (λ line, Line_append line more) i (_lines self);
          _spaces_per_tab := _spaces_per_tab self |}.

(** [line.level * self.spaces_per_tab * ' ']: no space when the product is
    not positive. *)
Definition indentation (self : IndentedTextBuilder) (line : Line) : text :=
  repeat SPACE (Z.to_nat (_level line * _spaces_per_tab self)).

(** The inner loop of [build]:
    [for chunk in line.text.split('\n'):
       result += f'{indentation}{chunk}\n']. *)
Definition build_line (self : IndentedTextBuilder) (result : text)
    (line : Line) : text :=
  fold_left (λ result chunk, result ++ indentation self line ++ chunk ++ [LF])
    (split (_text line)) result.

(** [self.build()] *)
Definition build (self : IndentedTextBuilder) : text :=
  strip (fold_left (build_line self) (_lines self) []).

(** ['\n'.join(lines)] *)
Fixpoint join (lines : list text) : text :=
  match lines with
  | [] => []
  | [line] => line
  | line :: rest => line ++ LF :: join rest
  end.

(** A string literal of the source, as a text. *)
Definition literal (s : string) : text := String.list_ascii_of_string s.

End Strings.

(* ===================================================================== *)
(** ** cibyl/outputs/cli/ci/system/common/stages.py *)
(* ===================================================================== *)

Module StageOutput.

Import Strings.

Section PrintStage.

(** What the attributes of a stage may hold, with its Python truth value
    and its [str()]. *)
Variable object : Type.
Variable truthy : object → bool.
Variable str : object → text.

(** [palette.blue(text)] *)
Variable blue : text → text.

(** [get_status_colored(palette, status)] *)
Variable get_status_colored : object → text.

(** [f'{as_minutes(duration):.4f}min'] *)
Variable minutes : object → text.

(** A stage, as [print_stage] reads it: [stage.name.value],
    [stage.status.value] and [stage.duration.value]. *)
Record Stage := {
  stage_name : object;
  stage_status : object;
  stage_duration : object
}.

(** [print_stage(stage, palette, verbosity=0)]; [None] stands for the
    [IndexError] of [printer[-1]]. *)
Definition print_stage (stage : Stage) (verbosity : Z) : option text :=
  let printer := IndentedTextBuilder_init 2 in
  let printer := add printer (blue (literal "- ")) 0 in
  printer ← append_at printer (-1) (str (stage_name stage));
  printer ←
    (if (0 <? verbosity)%Z then
       printer ←
         (if truthy (stage_status stage) then
            let printer := add printer (blue (literal "Status: ")) 1 in
            append_at printer (-1) (get_status_colored (stage_status stage))
          else Some printer);
       (if truthy (stage_duration stage) then
          let printer := add printer (blue (literal "Duration: ")) 1 in
          append_at printer (-1) (minutes (stage_duration stage))
        else Some printer)
     else Some printer);
  Some (build printer).

End PrintStage.

End StageOutput.

(* ===================================================================== *)
(** ** cibyl/plugins/openstack/sources/jenkins_job_builder.py *)
(* ===================================================================== *)

Module JenkinsJobBuilder.

Import Stdlib.Strings.Ascii.
Import Strings.

(** [s.startswith(prefix)] *)
Fixpoint startswith (prefix s : text) : bool :=
  match prefix, s with
  | [], _ => true
  | c :: prefix, d :: s => Ascii.eqb c d && startswith prefix s
  | _ :: _, [] => false
  end.

(** [needle in haystack], for two strings: [needle] starts at some place
    of [haystack]. *)
Fixpoint contains (needle haystack : text) : bool :=
  startswith needle haystack ||
  match haystack with
  | [] => false
  | _ :: rest => contains needle rest
  end.

(** [sep.join(items)] *)
Fixpoint str_join (sep : text) (items : list text) : text :=
  match items with
  | [] => []
  | [item] => item
  | item :: rest => item ++ sep ++ str_join sep rest
  end.

(** [args_are_in_list(arg_list, list)], for an [arg_list] of strings. *)
Definition args_are_in_list (arg_list : list text) (list : list text)
    : bool :=
  0 <? length (List.filter
                 (λ el, contains (str_join (literal " ") arg_list) el) list).

Section InfraType.

(** [line.rstrip()] *)
Variable rstrip : text → text.

(** [re.findall(DEPLOYMENT, line)] *)
Variable findall_DEPLOYMENT : text → list text.

(** The body of the loop over [infra_lst]: what [result] is after [el]. *)
Definition add_infra (result : gset text) (el : text) : gset text :=
  if contains (literal "virt") el || contains (literal "composable_roles") el
  then result ∪ {[ literal "virt" ]}
  else if contains (literal "ovb") el
       then result ∪ {[ literal "ovb" ]}
       else result ∪ {[ literal "baremetal" ]}.

(** [JenkinsJobBuilder._get_infra_type(path, **kwargs)]: [in_mem_file] is
    the lines of [parse_xml(path)], and [infra_type] is
    [kwargs['infra_type'].value], a list of strings, when [kwargs] has the
    key. The answer [None] is Python's. *)
Definition _get_infra_type (in_mem_file : list text)
    (infra_type : option (list text)) : option text :=
  match infra_type with
  | None => Some []
  | Some value =>
      let lines :=
        map rstrip
          (List.filter (contains (literal "--deployment-files")) in_mem_file)
      in
      let result :=
        fold_left
          (λ result line, fold_left add_infra (findall_DEPLOYMENT line) result)
          lines (∅ : gset text) in
      if decide (result = ∅) then None
      else
        let result :=
          if decide (literal "ovb" ∈ result) then [literal "ovb"]
          else if decide (literal "baremetal" ∈ result)
               then [literal "baremetal"]
               else [literal "virt"] in
        let infra_type_str := str_join (literal ",") result in
        match value with
        | _ :: _ =>
            if negb (args_are_in_list value result) then None
            else Some infra_type_str
        | [] => Some infra_type_str
        end
  end.

End InfraType.

End JenkinsJobBuilder.

(* ===================================================================== *)
(** * Properties *)
(* ===================================================================== *)

(** ** The filter utility *)

Module FilteringSpec.
Import Filtering.

Section Facts.
Context {A : Type}.
Implicit Types (S : list A) (ps : list (A → bool)).

Lemma filter_twice (p q : A → bool) S :
  List.filter q (List.filter p S) = List.filter (λ x, p x && q x) S.
Proof.
  induction S as [|x S IH]; simpl; [done|].
  destruct (p x); simpl; [destruct (q x)|]; by rewrite IH.
Qed.

Lemma apply_filters_cons S p ps :
  apply_filters S (p :: ps) = apply_filters (List.filter p S) ps.
Proof. reflexivity. Qed.

Lemma apply_filters_accepted S ps :
  apply_filters S ps = List.filter (accepted ps) S.
Proof.
  revert S. induction ps as [|p ps IH]; intros S.
  - simpl. induction S as [|x S IHS]; simpl; congruence.
  - rewrite apply_filters_cons, IH, filter_twice. reflexivity.
Qed.

Lemma accepted_true ps x :
  accepted ps x = true ↔ ∀ p, p ∈ ps → p x = true.
Proof.
  unfold accepted. rewrite forallb_forall.
  split; intros H p Hp; apply H; by apply list_elem_of_In.
Qed.

Lemma accepted_perm ps ps' x :
  ps ≡ₚ ps' → accepted ps x = accepted ps' x.
Proof.
  unfold accepted.
  induction 1 as [|p l l' _ IH|p q l|l l' l'' _ IH1 _ IH2]; simpl.
  - done.
  - by rewrite IH.
  - destruct (p x), (q x); done.
  - congruence.
Qed.

Lemma filter_sublist (p : A → bool) S : sublist (List.filter p S) S.
Proof.
  induction S as [|x S IH]; simpl; [constructor|].
  destruct (p x); by constructor.
Qed.

End Facts.

(** C8. [apply_filters(S, p1..pn)] is the list of exactly the elements of
    [S] that satisfy every predicate (with their multiplicity), in the
    order they have in [S], and supplying the predicates in another
    order gives the same list. *)
Theorem apply_filters_conjunction {A : Type}
    (S : list A) (ps : list (A → bool)) :
  apply_filters S ps = List.filter (accepted ps) S
  ∧ (∀ x, x ∈ apply_filters S ps ↔ x ∈ S ∧ ∀ p, p ∈ ps → p x = true)
  ∧ sublist (apply_filters S ps) S
  ∧ (∀ ps', ps ≡ₚ ps' → apply_filters S ps' = apply_filters S ps).
Proof.
  split; [apply apply_filters_accepted|].
  split; [|split].
  - intros x. rewrite apply_filters_accepted, !list_elem_of_In, filter_In.
    by rewrite accepted_true.
  - rewrite apply_filters_accepted. apply filter_sublist.
  - intros ps' Hperm. rewrite !apply_filters_accepted.
    apply filter_ext. intros x. symmetry. by apply accepted_perm.
Qed.

(** The statement at a concrete list and two orders of the same three
    predicates. *)
Lemma apply_filters_conjunction_witness :
  apply_filters [1; 2; 3; 4; 5; 6; 12; 2]
    [Nat.even; (λ n, (n <? 10)%nat); (λ n, (1 <? n)%nat)]
  = apply_filters [1; 2; 3; 4; 5; 6; 12; 2]
      [(λ n, (1 <? n)%nat); Nat.even; (λ n, (n <? 10)%nat)].
Proof.
  apply (apply_filters_conjunction [1; 2; 3; 4; 5; 6; 12; 2]
           [(λ n, (1 <? n)%nat); Nat.even; (λ n, (n <? 10)%nat)]).
  apply Permutation_cons_append.
Defined.

End FilteringSpec.

(** ** Builds requests *)

Module TransactionsSpec.
Import Filtering Transactions FilteringSpec.

Section Builds.
Variable matches_regex : string → string → bool.

#[local] Abbreviation chain := (chain matches_regex).
#[local] Abbreviation registered := (registered matches_regex).

Lemma chain_snoc job calls c :
  chain job (calls ++ [c]) = perform matches_regex (chain job calls) c.
Proof. unfold chain. by rewrite fold_left_app. Qed.

(** What a chain of calls leaves in the request. *)
Lemma chain_fields job calls :
  _job (chain job calls) = job
  ∧ _filters (chain job calls) = flat_map registered calls
  ∧ _last_build_only (chain job calls)
    = existsb (λ c, negb (is_pattern_call c)) calls.
Proof.
  induction calls as [|c calls IH] using rev_ind; [done|].
  destruct IH as (Hj & Hf & Hl).
  rewrite chain_snoc, flat_map_app, existsb_app. simpl.
  rewrite app_nil_r, orb_false_r.
  destruct c; simpl; rewrite ?Hj, ?Hf, ?Hl, ?app_nil_r, ?orb_false_r;
    try done.
  by rewrite orb_true_r.
Qed.

Lemma filters_without_flag job calls :
  _filters (chain job (List.filter is_pattern_call calls))
  = _filters (chain job calls).
Proof.
  rewrite !(proj1 (proj2 (chain_fields _ _))).
  induction calls as [|c calls IH]; [done|].
  destruct c; simpl; by rewrite ?IH.
Qed.

(** C1. Wherever [with_last_build_only()] stands in the chain of calls,
    [get()] runs every registered pattern filter over the builds of the
    job and then keeps the first build of what is left: the answer is
    the first element of the filtered list, at most one element long,
    and empty (no error) when nothing passes the filters. *)
Theorem get_last_build_only job calls :
  WithLastBuildOnly ∈ calls →
  let tests := flat_map registered calls in
  let filtered := apply_filters (job_builds job) tests in
  get (chain job calls) = map Build_BuildResponse (take 1 filtered)
  ∧ get (chain job calls)
    = take 1 (get (chain job (List.filter is_pattern_call calls)))
  ∧ (length (get (chain job calls)) ≤ 1)%nat
  ∧ (filtered = [] → get (chain job calls) = []).
Proof.
  intros Hin tests filtered.
  destruct (chain_fields job calls) as (Hj & Hf & Hl).
  assert (Hflag : _last_build_only (chain job calls) = true).
  { rewrite Hl. apply existsb_exists. exists WithLastBuildOnly.
    split; [by apply list_elem_of_In|done]. }
  assert (Hget : get (chain job calls)
                 = map Build_BuildResponse (take 1 filtered)).
  { unfold Transactions.get. by rewrite Hflag, Hj, Hf. }
  split; [exact Hget|]. split; [|split].
  - rewrite Hget. unfold Transactions.get.
    destruct (chain_fields job (List.filter is_pattern_call calls))
      as (Hj' & _ & Hl').
    assert (_last_build_only
              (chain job (List.filter is_pattern_call calls)) = false)
      as ->.
    { rewrite Hl'. apply not_true_is_false. intros Hex.
      apply existsb_exists in Hex as (c & Hc & Hneg).
      apply filter_In in Hc as [_ Hc]. by rewrite Hc in Hneg. }
    rewrite filters_without_flag, Hj', Hf.
    apply (fmap_take Build_BuildResponse).
  - rewrite Hget, length_map, length_take. lia.
  - intros Hnil. by rewrite Hget, Hnil.
Qed.

End Builds.

(** A job with three builds, newest first. *)
Definition three_builds : ZuulJobAPI :=
  {| job_tenant := {| tenant_name := "t" |};
     job_name := "j"; job_url := "u";
     job_builds :=
       [ {| build_uuid := "3"; build_result := "FAILURE";
            build_project := "p"; build_pipeline := "check" |};
         {| build_uuid := "2"; build_result := "SUCCESS";
            build_project := "p"; build_pipeline := "check" |};
         {| build_uuid := "1"; build_result := "SUCCESS";
            build_project := "p"; build_pipeline := "gate" |} ] |}.

(** The statement for a chain that asks for the last build before it adds
    a filter on the status, with string equality for [matches_regex]: the
    answer is the newest successful build. *)
Lemma get_last_build_only_witness :
  get (chain String.eqb three_builds
         [WithLastBuildOnly; WithStatus ["SUCCESS"]])
  = [ {| _build := {| build_uuid := "2"; build_result := "SUCCESS";
                      build_project := "p"; build_pipeline := "check" |} |} ].
Proof.
  apply (get_last_build_only String.eqb three_builds
           [WithLastBuildOnly; WithStatus ["SUCCESS"]]).
  apply list_elem_of_here.
Defined.

(** *** Comparison of responses *)

Definition same_names (a b : object) : Prop :=
  name_of a = name_of b ∧ parent_name_of a = parent_name_of b.

#[local] Instance same_names_dec a b : Decision (same_names a b).
Proof. unfold same_names. apply _. Defined.

(** The claim on the comparison of pipeline, job and project responses,
    as the specification words it. *)
Definition structural_equality : Prop :=
  ∀ (store : gmap nat object) (a b : nat) (oa ob : object),
    store !! a = Some oa → store !! b = Some ob →
    same_kind oa ob = true →
    (response_eq store a b = Some true ↔ same_names oa ob).

Definition a_job : ZuulJobAPI :=
  {| job_tenant := {| tenant_name := "tenant" |};
     job_name := "job"; job_url := "url"; job_builds := [] |}.

(** Two [JobResponse] objects made from the same job. *)
Definition two_job_responses : gmap nat object :=
  {[ 0 := JobResponse a_job; 1 := JobResponse a_job ]}.

(** C3, as stated, fails: two distinct [JobResponse] objects over the
    same job have the same name and tenant name and are not equal. *)
Lemma job_responses_not_structural : ¬ structural_equality.
Proof.
  intros H.
  specialize (H two_job_responses 0 1 (JobResponse a_job)
                (JobResponse a_job) eq_refl eq_refl eq_refl).
  destruct H as [_ H]. specialize (H (conj eq_refl eq_refl)).
  vm_compute in H. discriminate H.
Qed.

(** C3, amended. Two pipeline responses are equal exactly when they
    agree on their name and on the name of their project, whatever
    pipeline objects they wrap; two job responses, and two project
    responses, are equal exactly when they are the same object. *)
Theorem response_eq_by_kind (store : gmap nat object) (a b : nat)
    (oa ob : object) :
  store !! a = Some oa → store !! b = Some ob →
  same_kind oa ob = true →
  response_eq store a b
  = Some (match oa with
          | PipelineResponse _ => bool_decide (same_names oa ob)
          | _ => bool_decide (a = b)
          end).
Proof.
  intros Ha Hb Hkind. unfold response_eq, PipelineResponse___eq__.
  rewrite Ha, Hb.
  destruct oa as [t|p|p|j|], ob as [t'|p'|p'|j'|]; try done.
  unfold same_names. simpl.
  destruct (decide (a = b)) as [->|Hab].
  - rewrite Ha in Hb. injection Hb as <-.
    rewrite !bool_decide_eq_true_2; done.
  - rewrite (bool_decide_eq_false_2 (a = b)) by done. f_equal.
    destruct (decide (pipeline_name p = pipeline_name p')) as [Hn|Hn],
      (decide (project_name (pipeline_project p)
               = project_name (pipeline_project p'))) as [Hp|Hp].
    + rewrite !bool_decide_eq_true_2; [done|by rewrite Hn, Hp|done|done].
    + rewrite (bool_decide_eq_false_2 (project_name _ = _)) by done.
      rewrite andb_false_r. symmetry. apply bool_decide_eq_false_2.
      intros [_ [=]]. done.
    + rewrite (bool_decide_eq_false_2 (pipeline_name _ = _)) by done.
      symmetry. apply bool_decide_eq_false_2. intros [[=] _]. done.
    + rewrite (bool_decide_eq_false_2 (pipeline_name _ = _)) by done.
      symmetry. apply bool_decide_eq_false_2. intros [[=] _]. done.
Qed.

Definition check_of_p : ZuulPipelineAPI :=
  {| pipeline_project :=
       {| project_tenant := {| tenant_name := "t" |};
          project_name := "p"; project_url := "u" |};
     pipeline_name := "check" |}.

Definition check_of_other_p : ZuulPipelineAPI :=
  {| pipeline_project :=
       {| project_tenant := {| tenant_name := "other" |};
          project_name := "p"; project_url := "v" |};
     pipeline_name := "check" |}.

Definition two_pipeline_responses : gmap nat object :=
  {[ 0 := PipelineResponse check_of_p;
     1 := PipelineResponse check_of_other_p ]}.

(** Two pipeline responses over different pipeline objects with the same
    name and project name are equal. *)
Lemma response_eq_by_kind_witness :
  response_eq two_pipeline_responses 0 1 = Some true.
Proof.
  exact (response_eq_by_kind two_pipeline_responses 0 1
           (PipelineResponse check_of_p)
           (PipelineResponse check_of_other_p)
           eq_refl eq_refl eq_refl).
Defined.

End TransactionsSpec.

(** ** Variable search *)

Module VariantsSpec.
Import Transactions Variants.

Lemma search_in_skip pre rest (vars : gmap string value) :
  (∀ term, term ∈ pre → vars !! term = None) →
  search_in (pre ++ rest) vars = search_in rest vars.
Proof.
  induction pre as [|t pre IH]; intros Hpre; [done|]. simpl.
  rewrite (Hpre t) by apply list_elem_of_here.
  apply IH. intros term Hterm. apply Hpre. by apply list_elem_of_further.
Qed.

Lemma first_match_search_in terms (vars : gmap string value) :
  match first_match terms vars with
  | Some term => vars !! term = Some (search_in terms vars)
  | None => (∀ term, term ∈ terms → vars !! term = None)
            ∧ search_in terms vars = VNone
  end.
Proof.
  unfold first_match. induction terms as [|t terms IH]; simpl.
  - split; [|done]. intros term Hin. by apply elem_of_nil in Hin.
  - case_bool_decide as Hsome.
    + destruct Hsome as [v Hv]. by rewrite Hv.
    + apply eq_None_not_Some in Hsome. rewrite Hsome.
      destruct (List.find _ terms); [done|].
      destruct IH as [Hall Hnone]. split; [|done].
      intros term [->|Hin]%elem_of_cons; auto.
Qed.

(** C9. [search] answers the value bound to the first candidate, in list
    order, that the recursively gathered variables of the variant hold,
    whatever candidates follow it and whether they are bound or not; it
    answers [None] when no candidate is bound. *)
Theorem search_first_candidate (self : VariableSearch)
    (variant : VariantResponse) :
  let vars := variables variant true in
  (∀ pre term post found,
      search_terms self = pre ++ term :: post →
      (∀ earlier, earlier ∈ pre → vars !! earlier = None) →
      vars !! term = Some found →
      search self variant = found)
  ∧ ((∀ term, term ∈ search_terms self → vars !! term = None) →
     search self variant = VNone).
Proof.
  intros vars. unfold search. fold vars. split.
  - intros pre term post found -> Hpre Hterm.
    rewrite search_in_skip by done. simpl. by rewrite Hterm.
  - intros Hnone. rewrite <- (app_nil_r (search_terms self)).
    by rewrite search_in_skip.
Qed.

(** The scope of the specification's example: candidates [a; b; c],
    variables holding [b] and [c] only. *)
Lemma search_first_candidate_witness :
  search {| search_terms := ["a"; "b"; "c"] |}
    {| _variant :=
         {| variant_name := "v";
            variant_variables := λ _,
              {[ "b" := VInt 1; "c" := VInt 2 ]} |} |}
  = VInt 1.
Proof.
  apply (proj1 (search_first_candidate _ _) ["a"] "b" ["c"]).
  - reflexivity.
  - intros earlier ->%list_elem_of_singleton. reflexivity.
  - reflexivity.
Defined.

(** The claim on [ReleaseSearch.search], as the specification words
    it. *)
Definition release_found_iff_present : Prop :=
  ∀ (str : value → string) (self : VariableSearch)
    (variant : VariantResponse),
    let vars := variables variant true in
    (∀ term, first_match (search_terms self) vars = Some term →
       ∃ found, vars !! term = Some found
                ∧ ReleaseSearch_search str self variant = VStr (str found))
    ∧ (ReleaseSearch_search str self variant = VNone
       ↔ first_match (search_terms self) vars = None).

(** A variant whose release is the empty string. *)
Definition empty_release : VariantResponse :=
  {| _variant := {| variant_name := "v";
                    variant_variables := λ _, {[ "release" := VStr "" ]} |} |}.

(** C4, as stated, fails: for a variant whose [release] variable is the
    empty string, the search term is present and the answer is [None]. *)
Lemma release_empty_string_is_none : ¬ release_found_iff_present.
Proof.
  intros H.
  destruct (H (λ _, "") {| search_terms := DEFAULT_SEARCH_TERMS |}
              empty_release) as [_ [Hnone _]].
  specialize (Hnone eq_refl). vm_compute in Hnone. discriminate Hnone.
Qed.

(** C4, amended. When some search term is bound, [ReleaseSearch.search]
    looks at the value of the first of them: it answers the string form
    of that value when the value is true in Python's sense, and [None]
    when it is not ([None], [False], [0], the empty string, list or
    mapping). It answers [None] when no search term is bound. *)
Theorem release_search_truthy (str : value → string)
    (self : VariableSearch) (variant : VariantResponse) :
  let vars := variables variant true in
  match first_match (search_terms self) vars with
  | Some term =>
      ∃ found, vars !! term = Some found
               ∧ ReleaseSearch_search str self variant
                 = if truthy found then VStr (str found) else VNone
  | None => ReleaseSearch_search str self variant = VNone
  end.
Proof.
  intros vars. unfold ReleaseSearch_search, search. fold vars.
  pose proof (first_match_search_in (search_terms self) vars) as H.
  destruct (first_match (search_terms self) vars) as [term|].
  - exists (search_in (search_terms self) vars). split; [done|].
    by destruct (truthy _).
  - destruct H as [_ ->]. done.
Qed.

End VariantsSpec.


(** ** The validator *)

Module ValidationSpec.
Import Validation.

(** *** Running computations *)

Lemma bind_returns {A B} (m : M A) (k : A → M B) σ a σ' :
  m σ = (inr a, σ') → (m ≫= k) σ = k a σ'.
Proof. intros H. unfold mbind, M_bind, bind. by rewrite H. Qed.

Lemma bind_raises {A B} (m : M A) (k : A → M B) σ e σ' :
  m σ = (inl e, σ') → (m ≫= k) σ = (inl e, σ').
Proof. intros H. unfold mbind, M_bind, bind. by rewrite H. Qed.

Lemma gets_bind {A B} (f : state → A) (k : A → M B) σ :
  (gets f ≫= k) σ = k (f σ) σ.
Proof. reflexivity. Qed.

(** *** What a stage of [check_envs] leaves alone

    From [σ] to [σ'] no system has changed, no source has changed its name
    or has been enabled again, no environment has changed its name, and
    the debug log has only grown. *)
Record steady (σ σ' : state) : Prop := {
  steady_systems : ∀ r, systems σ' r = systems σ r;
  steady_source_name :
    ∀ r, source_name (sources σ' r) = source_name (sources σ r);
  steady_disabled :
    ∀ r, source_enabled (sources σ r) = false →
         source_enabled (sources σ' r) = false;
  steady_env_name :
    ∀ e, env_name (environments σ' e) = env_name (environments σ e);
  steady_log : ∀ entry, entry ∈ debug_log σ → entry ∈ debug_log σ'
}.

Lemma steady_refl σ : steady σ σ.
Proof. by constructor. Qed.

Lemma steady_trans σ1 σ2 σ3 : steady σ1 σ2 → steady σ2 σ3 → steady σ1 σ3.
Proof.
  intros [Hs Hn Hd He Hl] [Hs' Hn' Hd' He' Hl']. constructor.
  - intros r. by rewrite Hs', Hs.
  - intros r. by rewrite Hn', Hn.
  - auto.
  - intros e. by rewrite He', He.
  - auto.
Qed.

Lemma LOG_debug_steady msg name σ :
  ∃ σ', LOG_debug msg name σ = (inr tt, σ')
        ∧ steady σ σ'
        ∧ environments σ' = environments σ
        ∧ (msg, name) ∈ debug_log σ'.
Proof.
  eexists. split; [reflexivity|]. split; [|split; [done|]].
  - constructor; simpl; try done.
    intros entry Hin. apply elem_of_app. by left.
  - simpl. apply elem_of_app. right. apply list_elem_of_here.
Qed.

Lemma set_systems_steady env l σ :
  ∃ σ', set_systems env l σ = (inr tt, σ')
        ∧ steady σ σ'
        ∧ env_systems (environments σ' env) = l
        ∧ (∀ e, e ≠ env → environments σ' e = environments σ e).
Proof.
  eexists. split; [reflexivity|]. split; [|split].
  - constructor; simpl; try done.
    intros e. destruct (decide (env = e)) as [->|Hne].
    + by rewrite fn_lookup_alter.
    + by rewrite fn_lookup_alter_ne.
  - simpl. by rewrite fn_lookup_alter.
  - intros e Hne. simpl. by rewrite fn_lookup_alter_ne.
Qed.

Lemma disable_steady source σ :
  ∃ σ', disable source σ = (inr tt, σ')
        ∧ steady σ σ'
        ∧ environments σ' = environments σ
        ∧ debug_log σ' = debug_log σ
        ∧ source_enabled (sources σ' source) = false.
Proof.
  eexists. split; [reflexivity|]. split; [|split; [done|split; [done|]]].
  - constructor; simpl; try done.
    + intros r. destruct (decide (source = r)) as [->|Hne].
      * by rewrite fn_lookup_alter.
      * by rewrite fn_lookup_alter_ne.
    + intros r Hr. destruct (decide (source = r)) as [->|Hne].
      * by rewrite fn_lookup_alter.
      * by rewrite fn_lookup_alter_ne.
  - simpl. by rewrite fn_lookup_alter.
Qed.

Section Checks.
Variable ci_args : gmap string Argument.

(** *** The checks as functions of the configuration *)

(** Whether [x] passes the filter of the argument [key]: it does when the
    argument was not given. *)
Definition allowed (key x : string) : bool :=
  match ci_args !! key with
  | Some argument => bool_decide (x ∈ value argument)
  | None => true
  end.

Definition consistent_system (system : System) : bool :=
  allowed "system_type" (system_type system)
  && allowed "systems" (system_name system).

Definition consistent_environment (env : Environment) : bool :=
  allowed "env_name" (env_name env).

Definition names_of_sources (σ : state) (system : ref) : list string :=
  map (λ source, source_name (sources σ source))
      (system_sources (systems σ system)).

(** Whether some source of the system has a requested name; true when no
    [sources] argument was given. *)
Definition has_requested_source (σ : state) (system : ref) : bool :=
  match ci_args !! "sources" with
  | Some argument =>
      existsb (λ name, bool_decide (name ∈ value argument))
              (names_of_sources σ system)
  | None => true
  end.

Lemma _consistent_system_run system σ :
  _consistent_system ci_args system σ
  = (inr (consistent_system (systems σ system)), σ).
Proof.
  unfold _consistent_system, consistent_system, allowed.
  unfold mbind, M_bind, bind, gets. simpl.
  destruct (ci_args !! "system_type") as [t|],
           (ci_args !! "systems") as [n|]; simpl;
    repeat case_bool_decide; done.
Qed.

Lemma _consistent_environment_run env σ :
  _consistent_environment ci_args env σ
  = (inr (consistent_environment (environments σ env)), σ).
Proof.
  unfold _consistent_environment, consistent_environment, allowed.
  unfold mbind, M_bind, bind, gets. simpl.
  by destruct (ci_args !! "env_name").
Qed.

Lemma names_of_sources_steady σ σ' system :
  steady σ σ' → names_of_sources σ' system = names_of_sources σ system.
Proof.
  intros [Hs Hn _ _ _]. unfold names_of_sources. rewrite Hs.
  apply map_ext. intros source. apply Hn.
Qed.

Lemma has_requested_source_steady σ σ' system :
  steady σ σ' → has_requested_source σ' system = has_requested_source σ system.
Proof.
  intros H. unfold has_requested_source.
  by rewrite (names_of_sources_steady _ _ _ H).
Qed.

Lemma disable_unused_run (unused : gset string) srcs σ :
  ∃ σ', disable_unused unused srcs σ = (inr tt, σ')
        ∧ steady σ σ'
        ∧ environments σ' = environments σ
        ∧ debug_log σ' = debug_log σ
        ∧ ∀ source, source ∈ srcs →
            source_name (sources σ source) ∈ unused →
            source_enabled (sources σ' source) = false.
Proof.
  revert σ. induction srcs as [|source rest IH]; intros σ.
  - exists σ. split; [done|]. split; [apply steady_refl|].
    repeat split; try done. intros source Hin. by apply elem_of_nil in Hin.
  - simpl. unfold mbind, M_bind, bind, gets. simpl.
    case_bool_decide as Hunused.
    + destruct (disable_steady source σ) as (σ1 & -> & Hst1 & He1 & Hl1 & Hd1).
      destruct (IH σ1) as (σ' & -> & Hst & He & Hl & Hd).
      exists σ'. split; [done|]. split; [by eapply steady_trans|].
      split; [congruence|]. split; [congruence|].
      intros src [->|Hin]%elem_of_cons Hname.
      * by apply (steady_disabled _ _ Hst).
      * apply Hd; [done|]. by rewrite (steady_source_name _ _ Hst1).
    + unfold ret at 1.
      destruct (IH σ) as (σ' & -> & Hst & He & Hl & Hd).
      exists σ'. repeat split; try done; try apply Hst.
      intros src [->|Hin]%elem_of_cons Hname; [done|]. by apply Hd.
Qed.

Lemma _system_has_valid_sources_run system σ :
  ∃ σ', _system_has_valid_sources ci_args system σ
        = (inr (has_requested_source σ system), σ')
        ∧ steady σ σ'
        ∧ environments σ' = environments σ
        ∧ debug_log σ' = debug_log σ
        ∧ ∀ argument source,
            ci_args !! "sources" = Some argument →
            source ∈ system_sources (systems σ system) →
            source_name (sources σ source) ∉ value argument →
            source_enabled (sources σ' source) = false.
Proof.
  unfold _system_has_valid_sources, has_requested_source.
  unfold mbind, M_bind, bind, gets. simpl.
  destruct (ci_args !! "sources") as [argument|] eqn:Harg.
  - fold (names_of_sources σ system).
    set (unused := list_to_set (names_of_sources σ system)
                   ∖ list_to_set (value argument) : gset string).
    destruct (disable_unused_run unused (system_sources (systems σ system)) σ)
      as (σ' & -> & Hst & He & Hl & Hd).
    exists σ'. split.
    + case_bool_decide as Hempty; unfold ret; f_equal; f_equal.
      * symmetry. apply not_true_is_false. intros Hex.
        apply existsb_exists in Hex as (name & Hin & Hreq).
        apply list_elem_of_In in Hin. apply bool_decide_eq_true_1 in Hreq.
        apply (not_elem_of_empty (C:=gset string) name). rewrite <- Hempty.
        apply elem_of_intersection. by rewrite !elem_of_list_to_set.
      * symmetry. destruct (existsb _ _) eqn:Hex; [done|].
        exfalso. apply Hempty. apply set_eq. intros name. split; [|set_solver].
        intros [Hreq Hin]%elem_of_intersection.
        apply elem_of_list_to_set in Hreq, Hin. exfalso.
        apply not_true_iff_false in Hex. apply Hex.
        apply existsb_exists. exists name.
        split; [by apply list_elem_of_In|by apply bool_decide_eq_true_2].
    + repeat split; try done; try apply Hst.
      intros a source [= <-] Hin Hname. apply Hd; [done|].
      unfold unused. apply elem_of_difference. split.
      * apply elem_of_list_to_set. unfold names_of_sources.
        apply list_elem_of_fmap. eauto.
      * by rewrite elem_of_list_to_set.
  - exists σ. split; [done|]. split; [apply steady_refl|].
    repeat split; try done.
Qed.

End Checks.

(** *** One stage of [check_envs]

    A stage runs from the state [σ0] with a system check [c] that answers
    [p] and an environment check [ce] that answers [pe], both without
    touching the environments and leaving the configuration [steady]. *)
Section Stage.
Variables (c ce : ref → M bool) (p pe : ref → bool).
Variables (systems_msg envs_msg : string) (σ0 : state).

Hypothesis c_run : ∀ σ system,
  steady σ0 σ →
  ∃ σ', c system σ = (inr (p system), σ')
        ∧ steady σ σ' ∧ environments σ' = environments σ.

Hypothesis ce_run : ∀ σ env,
  steady σ0 σ → ce env σ = (inr (pe env), σ).

(** The check ran on [system] at some point before [σ']. *)
Definition examined (system : ref) (σ' : state) : Prop :=
  ∃ σa σb, steady σ0 σa ∧ c system σa = (inr (p system), σb) ∧ steady σb σ'.

Lemma examined_later system σ σ' :
  examined system σ → steady σ σ' → examined system σ'.
Proof.
  intros (σa & σb & Ha & Hrun & Hb) Hst. exists σa, σb.
  split; [done|]. split; [done|]. by eapply steady_trans.
Qed.

Definition original (env : ref) : list ref :=
  env_systems (environments σ0 env).

Definition survivors (env : ref) : list ref :=
  List.filter p (original env).

Definition kept (env : ref) : bool :=
  pe env && match survivors env with [] => false | _ => true end.

(** Each environment holds its original systems or, once it was kept,
    those of them that pass the check. *)
Definition pruned (σ : state) : Prop :=
  ∀ env, env_systems (environments σ env) = original env
         ∨ env_systems (environments σ env) = survivors env.

Lemma filter_again (l : list ref) :
  List.filter p (List.filter p l) = List.filter p l.
Proof.
  induction l as [|x l IH]; [done|]. simpl.
  destruct (p x) eqn:Hx; simpl; rewrite ?Hx, IH; done.
Qed.

Lemma pruned_survivors σ env :
  pruned σ → List.filter p (env_systems (environments σ env)) = survivors env.
Proof.
  intros H. destruct (H env) as [->| ->]; [done|]. apply filter_again.
Qed.

Lemma check_systems_run todo acc σ :
  steady σ0 σ →
  ∃ σ', check_systems c systems_msg todo acc σ
        = (inr (acc ++ List.filter p todo), σ')
        ∧ steady σ σ'
        ∧ environments σ' = environments σ
        ∧ ∀ system, system ∈ todo →
            examined system σ'
            ∧ (p system = false →
               (systems_msg, system_name (systems σ0 system)) ∈ debug_log σ').
Proof.
  revert acc σ. induction todo as [|system rest IH]; intros acc σ Hσ.
  - exists σ. simpl. rewrite app_nil_r. split; [done|].
    split; [apply steady_refl|]. split; [done|].
    intros system Hin. by apply elem_of_nil in Hin.
  - destruct (c_run σ system Hσ) as (σ1 & Hrun & Hst1 & He1).
    assert (Hσ1 : steady σ0 σ1) by (by eapply steady_trans).
    simpl. rewrite (bind_returns _ _ _ _ _ Hrun).
    destruct (p system) eqn:Hp; simpl.
    + destruct (IH (acc ++ [system]) σ1 Hσ1) as (σ' & -> & Hst & He & Hall).
      exists σ'. rewrite <- app_assoc. split; [done|].
      split; [by eapply steady_trans|]. split; [congruence|].
      intros s [->|Hin]%elem_of_cons; [|by apply Hall].
      split; [|congruence]. exists σ, σ1. by rewrite Hp.
    + rewrite gets_bind.
      destruct (LOG_debug_steady systems_msg (system_name (systems σ1 system)) σ1)
        as (σ2 & Hlog & Hst2 & He2 & Hentry).
      rewrite (bind_returns _ _ _ _ _ Hlog).
      assert (Hσ2 : steady σ0 σ2) by (by eapply steady_trans).
      destruct (IH acc σ2 Hσ2) as (σ' & -> & Hst & He & Hall).
      exists σ'. split; [done|].
      split; [eapply steady_trans; [|exact Hst]; by eapply steady_trans|].
      split; [congruence|].
      intros s [->|Hin]%elem_of_cons; [|by apply Hall].
      split.
      * exists σ, σ1. rewrite Hp. split; [done|]. split; [done|].
        by eapply steady_trans.
      * intros _. apply (steady_log _ _ Hst).
        by rewrite <- (steady_systems _ _ Hσ1).
Qed.

Lemma check_envs_loop_run todo user_envs user_systems σ :
  steady σ0 σ → pruned σ →
  ∃ σ', check_envs_loop c ce systems_msg envs_msg todo user_envs user_systems σ
        = (inr (user_envs ++ List.filter kept todo,
                user_systems ++ flat_map survivors (List.filter kept todo)),
           σ')
        ∧ steady σ σ'
        ∧ pruned σ'
        ∧ (∀ env, env ∈ todo → kept env = true →
             env_systems (environments σ' env) = survivors env)
        ∧ (∀ env, ¬ (env ∈ todo ∧ kept env = true) →
             env_systems (environments σ' env)
             = env_systems (environments σ env))
        ∧ (∀ env, env ∈ todo → pe env = false →
             (envs_msg, env_name (environments σ0 env)) ∈ debug_log σ')
        ∧ (∀ env system, env ∈ todo → pe env = true →
             system ∈ env_systems (environments σ env) →
             examined system σ'
             ∧ (p system = false →
                (systems_msg, system_name (systems σ0 system))
                ∈ debug_log σ')).
Proof.
  revert user_envs user_systems σ.
  induction todo as [|env rest IH]; intros user_envs user_systems σ Hσ Hpr.
  { exists σ. simpl. rewrite !app_nil_r. split; [done|].
    split; [apply steady_refl|]. split; [done|].
    split; [|split; [done|split]].
    - intros e Hin. by apply elem_of_nil in Hin.
    - intros e Hin. by apply elem_of_nil in Hin.
    - intros e s Hin. by apply elem_of_nil in Hin. }
  simpl. rewrite (bind_returns _ _ _ _ _ (ce_run σ env Hσ)).
  destruct (pe env) eqn:Hpe; simpl.
  - (* the environment passes its check *)
    rewrite gets_bind.
    destruct (check_systems_run (env_systems (environments σ env)) [] σ Hσ)
      as (σ1 & Hrun & Hst1 & He1 & Hsys).
    rewrite (bind_returns _ _ _ _ _ Hrun). simpl.
    rewrite (pruned_survivors σ env Hpr).
    assert (Hσ1 : steady σ0 σ1) by (by eapply steady_trans).
    assert (Hpr1 : pruned σ1) by (intros e; rewrite He1; apply Hpr).
    destruct (survivors env) as [|first others] eqn:Hsurv.
    + (* no system of it passes *)
      assert (Hkenv : kept env = false) by (unfold kept; by rewrite Hpe, Hsurv).
      rewrite Hkenv.
      destruct (IH user_envs user_systems σ1 Hσ1 Hpr1)
        as (σ' & -> & Hst & Hpr' & Hkept & Hrest & Henv & Hex).
      exists σ'. split; [done|]. split; [by eapply steady_trans|].
      split; [done|]. split; [|split; [|split]].
      * intros e [->|Hin]%elem_of_cons Hk; [|by apply Hkept].
        unfold kept in Hk. by rewrite Hpe, Hsurv in Hk.
      * intros e Hno. rewrite <- He1. apply Hrest.
        intros [Hin Hk]. apply Hno. split; [by apply elem_of_cons; right|done].
      * intros e [->|Hin]%elem_of_cons Hpe'; [congruence|by apply Henv].
      * intros e s Hin Hpe' Hs.
        destruct (decide (e = env)) as [->|Hne].
        -- destruct (Hsys s Hs) as [Hexam Hlog]. split.
           ++ by eapply examined_later.
           ++ intros Hp. by apply (steady_log _ _ Hst), Hlog.
        -- apply elem_of_cons in Hin as [?|Hin]; [done|].
           apply (Hex e s Hin Hpe'). by rewrite He1.
    + (* some system passes: the environment is kept *)
      assert (Hkenv : kept env = true) by (unfold kept; by rewrite Hpe, Hsurv).
      rewrite Hkenv. simpl.
      destruct (set_systems_steady env (first :: others) σ1)
        as (σ2 & Hset & Hst2 & Hnew & Hother).
      rewrite (bind_returns _ _ _ _ _ Hset).
      assert (Hσ2 : steady σ0 σ2) by (by eapply steady_trans).
      assert (Hpr2 : pruned σ2).
      { intros e. destruct (decide (e = env)) as [->|Hne].
        - right. by rewrite Hnew, Hsurv.
        - rewrite (Hother e Hne). apply Hpr1. }
      destruct (IH (user_envs ++ [env]) (user_systems ++ first :: others)
                  σ2 Hσ2 Hpr2)
        as (σ' & -> & Hst & Hpr' & Hkept & Hrest & Henv & Hex).
      exists σ'. rewrite <- !app_assoc, Hsurv. split; [done|].
      split; [eapply steady_trans; [|exact Hst]; by eapply steady_trans|].
      split; [done|]. split; [|split; [|split]].
      * intros e Hin Hk.
        destruct (decide (e ∈ rest)) as [Hin'|Hnotin]; [by apply Hkept|].
        apply elem_of_cons in Hin as [->|?]; [|done].
        rewrite Hrest by (by intros [? ?]). by rewrite Hnew, Hsurv.
      * intros e Hno.
        assert (e ≠ env) as Hne.
        { intros ->. apply Hno. split; [apply list_elem_of_here|].
          unfold kept. by rewrite Hpe, Hsurv. }
        rewrite Hrest, (Hother e Hne), He1; [done|].
        intros [Hin Hk]. apply Hno. split; [by apply elem_of_cons; right|done].
      * intros e [->|Hin]%elem_of_cons Hpe'; [congruence|by apply Henv].
      * intros e s Hin Hpe' Hs.
        destruct (decide (e = env)) as [->|Hne].
        -- destruct (Hsys s Hs) as [Hexam Hlog].
           assert (steady σ1 σ') by (by eapply steady_trans). split.
           ++ by eapply examined_later.
           ++ intros Hp. by apply (steady_log σ1 σ'), Hlog.
        -- apply elem_of_cons in Hin as [?|Hin]; [done|].
           apply (Hex e s Hin Hpe'). by rewrite (Hother e Hne), He1.
  - (* the environment fails its check *)
    assert (Hkenv : kept env = false) by (unfold kept; by rewrite Hpe).
    rewrite Hkenv. rewrite gets_bind.
    destruct (LOG_debug_steady envs_msg (env_name (environments σ env)) σ)
      as (σ1 & Hlog & Hst1 & He1 & Hentry).
    rewrite (bind_returns _ _ _ _ _ Hlog).
    assert (Hσ1 : steady σ0 σ1) by (by eapply steady_trans).
    assert (Hpr1 : pruned σ1) by (intros e; rewrite He1; apply Hpr).
    destruct (IH user_envs user_systems σ1 Hσ1 Hpr1)
      as (σ' & -> & Hst & Hpr' & Hkept & Hrest & Henv & Hex).
    exists σ'. split; [done|]. split; [by eapply steady_trans|].
    split; [done|]. split; [|split; [|split]].
    + intros e [->|Hin]%elem_of_cons Hk; [|by apply Hkept].
      unfold kept in Hk. by rewrite Hpe in Hk.
    + intros e Hno. rewrite <- He1. apply Hrest.
      intros [Hin Hk]. apply Hno. split; [by apply elem_of_cons; right|done].
    + intros e [->|Hin]%elem_of_cons Hpe'; [|by apply Henv].
      apply (steady_log _ _ Hst). by rewrite <- (steady_env_name _ _ Hσ).
    + intros e s [->|Hin]%elem_of_cons Hpe' Hs; [congruence|].
      apply (Hex e s Hin Hpe'). by rewrite He1.
Qed.

Lemma check_envs_run envs :
  ∃ σ', check_envs envs c ce systems_msg envs_msg σ0
        = (inr (List.filter kept envs,
                flat_map survivors (List.filter kept envs)), σ')
        ∧ steady σ0 σ'
        ∧ (∀ env, env ∈ envs → kept env = true →
             env_systems (environments σ' env) = survivors env)
        ∧ (∀ env, ¬ (env ∈ envs ∧ kept env = true) →
             env_systems (environments σ' env) = original env)
        ∧ (∀ env, env ∈ envs → pe env = false →
             (envs_msg, env_name (environments σ0 env)) ∈ debug_log σ')
        ∧ (∀ env system, env ∈ envs → pe env = true →
             system ∈ original env →
             examined system σ'
             ∧ (p system = false →
                (systems_msg, system_name (systems σ0 system))
                ∈ debug_log σ')).
Proof.
  destruct (check_envs_loop_run envs [] [] σ0 (steady_refl σ0))
    as (σ' & Hrun & Hst & _ & Hkept & Hrest & Henv & Hex).
  { intros env. by left. }
  exists σ'. split; [exact Hrun|]. split; [exact Hst|].
  split; [exact Hkept|]. split; [exact Hrest|]. split; [exact Henv|].
  exact Hex.
Qed.

(** *** What a stage writes in the debug log

    When the system check writes nothing itself, the records of a stage
    are those of the environments that fail their check and those of the
    systems that fail theirs, in an environment that passes. *)
Hypothesis c_log : ∀ σ system answer σ',
  c system σ = (inr answer, σ') → debug_log σ' = debug_log σ.







(** Who is in the answer of a stage. *)
Lemma elem_of_kept envs env :
  env ∈ List.filter kept envs
  ↔ env ∈ envs ∧ pe env = true ∧ ∃ system, system ∈ original env
                                           ∧ p system = true.
Proof.
  rewrite list_elem_of_In, filter_In, <- list_elem_of_In. unfold kept.
  rewrite andb_true_iff. unfold survivors. split.
  - intros (Hin & Hpe & Hsome). split; [done|]. split; [done|].
    destruct (List.filter p (original env)) as [|system l] eqn:Hf; [done|].
    exists system. rewrite list_elem_of_In. apply (filter_In p).
    rewrite Hf. by left.
  - intros (Hin & Hpe & system & Hsys & Hp). split; [done|]. split; [done|].
    destruct (List.filter p (original env)) as [|x l] eqn:Hf; [|done].
    exfalso. apply list_elem_of_In in Hsys.
    pose proof (proj2 (filter_In p system (original env)) (conj Hsys Hp)) as H.
    by rewrite Hf in H.
Qed.

Lemma elem_of_survivors env system :
  system ∈ survivors env ↔ system ∈ original env ∧ p system = true.
Proof.
  unfold survivors. by rewrite list_elem_of_In, filter_In, <- list_elem_of_In.
Qed.

Lemma elem_of_stage_systems envs system :
  system ∈ flat_map survivors (List.filter kept envs)
  ↔ ∃ env, env ∈ List.filter kept envs ∧ system ∈ survivors env.
Proof.
  rewrite list_elem_of_In, in_flat_map. split.
  - intros (env & Hin & Hs). exists env. by rewrite !list_elem_of_In.
  - intros (env & Hin & Hs). exists env. by rewrite <- !list_elem_of_In.
Qed.

(** No system is left exactly when no environment is kept. *)
Lemma stage_systems_nil envs :
  flat_map survivors (List.filter kept envs) = []
  ↔ List.filter kept envs = [].
Proof.
  split; [|by intros ->].
  destruct (List.filter kept envs) as [|env l] eqn:Hf; [done|].
  assert (Hk : kept env = true).
  { apply (proj1 (filter_In kept env envs)). rewrite Hf. by left. }
  simpl. unfold kept in Hk. apply andb_true_iff in Hk as [_ Hk].
  by destruct (survivors env).
Qed.

(** Whatever a stage answers, it answers this. *)
Lemma check_envs_result envs user_envs user_systems σ' :
  check_envs envs c ce systems_msg envs_msg σ0
  = (inr (user_envs, user_systems), σ') →
  user_envs = List.filter kept envs
  ∧ user_systems = flat_map survivors user_envs
  ∧ steady σ0 σ'
  ∧ (∀ env, env ∈ user_envs →
       env_systems (environments σ' env) = survivors env)
  ∧ (∀ system, system ∈ user_systems ↔
       ∃ env, env ∈ user_envs
              ∧ system ∈ env_systems (environments σ' env))
  ∧ (user_systems = [] ↔ user_envs = []).
Proof.
  intros Hrun.
  destruct (check_envs_run envs) as (σ'' & Hrun' & Hst & Hkept & _).
  rewrite Hrun in Hrun'. injection Hrun' as Hue Hus Hσ.
  subst σ'' user_envs user_systems.
  split; [done|]. split; [done|]. split; [done|].
  assert (Hsys : ∀ env, env ∈ List.filter kept envs →
                   env_systems (environments σ' env) = survivors env).
  { intros env Hin. apply list_elem_of_In, filter_In in Hin as [Hin Hk].
    apply Hkept; [by apply list_elem_of_In|done]. }
  split; [done|]. split; [|apply stage_systems_nil].
  intros system. rewrite elem_of_stage_systems.
  split; intros (env & Hin & Hs); exists env; split; try done.
  - by rewrite Hsys.
  - by rewrite <- Hsys.
Qed.

End Stage.

Section Stages.
Variable ci_args : gmap string Argument.

(** *** The stages of [validate_environments] *)

Definition all_env_names (σ : state) (envs : list ref) : list string :=
  map (λ env, env_name (environments σ env)) envs.

Definition all_systems (σ : state) (envs : list ref) : list ref :=
  flat_map (λ env, env_systems (environments σ env)) envs.

Definition all_system_names (σ : state) (envs : list ref) : list string :=
  map (λ system, system_name (systems σ system)) (all_systems σ envs).

Definition all_source_names (σ : state) (envs : list ref) : list string :=
  flat_map (names_of_sources σ) (all_systems σ envs).

(** Lines 186-197: the names are collected and the two arguments are
    checked against them. *)
Definition input_checks (envs : list ref) : M (list string * list ref) :=
  '(all_envs, all_systems) ← collect envs;
  _check_input_environments ci_args all_envs "env_name" InvalidEnvironment;;
  system_names ← gets (λ σ, map (λ system, system_name (systems σ system))
                                all_systems);
  _check_input_environments ci_args system_names "systems" InvalidSystem;;
  ret (system_names, all_systems).

(** Lines 201-207. *)
Definition consistency_stage (envs : list ref) : M (list ref * list ref) :=
  check_envs envs (_consistent_system ci_args)
    (_consistent_environment ci_args)
    msg_system_inconsistent msg_env_inconsistent.

(** Lines 214-218. *)
Definition enabled_stage (user_envs : list ref) : M (list ref * list ref) :=
  check_envs user_envs _system_is_enabled (λ _, ret true)
    msg_system_disabled "".

(** Lines 222-228. *)
Definition sources_stage (user_envs : list ref) : M (list ref * list ref) :=
  check_envs user_envs (_system_has_valid_sources ci_args) (λ _, ret true)
    msg_system_no_sources "".

(** [validate_environments] is its stages one after the other. *)
Lemma validate_environments_stages envs σ :
  validate_environments ci_args envs σ
  = ('(system_names, all_systems) ← input_checks envs;
     '(user_envs, user_systems) ← consistency_stage envs;
     match user_systems with
     | [] => raise (NoValidSystem system_names)
     | _ =>
       override_enabled_systems ci_args user_systems;;
       '(user_envs, user_systems) ← enabled_stage user_envs;
       match user_systems with
       | [] => raise NoEnabledSystem
       | _ =>
         '(user_envs, user_systems) ← sources_stage user_envs;
         match user_systems with
         | [] => names ← source_names all_systems; raise (NoValidSources names)
         | _ => ret user_envs
         end
       end
     end) σ.
Proof.
  unfold validate_environments, input_checks, consistency_stage,
    enabled_stage, sources_stage.
  unfold mbind, M_bind, bind, collect, gets, ret. simpl.
  repeat (case_match; simplify_eq; try done).
Qed.

(** The first of [names] that is not among [all_names]. *)
Definition first_absent (all_names names : list string) : option string :=
  List.find (λ name, negb (bool_decide (name ∈ all_names))) names.

(** The value of an argument, empty when the argument was not given. *)
Definition requested (key : string) : list string :=
  match ci_args !! key with
  | Some argument => value argument
  | None => []
  end.

Lemma check_names_run exception_to_raise all_names names σ :
  check_names exception_to_raise all_names names σ
  = (match first_absent all_names names with
     | Some name => inl (exception_to_raise name all_names)
     | None => inr tt
     end, σ).
Proof.
  unfold first_absent. induction names as [|name names IH]; [done|].
  simpl. by destruct (negb _).
Qed.

Lemma _check_input_environments_run all_names key exception_to_raise σ :
  _check_input_environments ci_args all_names key exception_to_raise σ
  = (match first_absent all_names (requested key) with
     | Some name => inl (exception_to_raise name all_names)
     | None => inr tt
     end, σ).
Proof.
  unfold _check_input_environments, requested.
  destruct (ci_args !! key); [apply check_names_run|done].
Qed.

Lemma input_checks_run envs σ :
  input_checks envs σ
  = (match first_absent (all_env_names σ envs) (requested "env_name") with
     | Some name => inl (InvalidEnvironment name (all_env_names σ envs))
     | None =>
         match first_absent (all_system_names σ envs) (requested "systems") with
         | Some name => inl (InvalidSystem name (all_system_names σ envs))
         | None => inr (all_system_names σ envs, all_systems σ envs)
         end
     end, σ).
Proof.
  unfold input_checks, collect. rewrite gets_bind. simpl.
  unfold mbind at 1, M_bind, bind at 1.
  rewrite _check_input_environments_run.
  fold (all_env_names σ envs) (all_systems σ envs).
  destruct (first_absent (all_env_names σ envs) _); [done|].
  rewrite gets_bind. unfold mbind at 1, M_bind, bind at 1.
  rewrite _check_input_environments_run.
  fold (all_system_names σ envs).
  by destruct (first_absent (all_system_names σ envs) _).
Qed.

Lemma first_absent_Some all_names names :
  (∃ name, name ∈ names ∧ name ∉ all_names) →
  ∃ name, first_absent all_names names = Some name
          ∧ name ∈ names ∧ name ∉ all_names.
Proof.
  intros (name & Hin & Hout). unfold first_absent.
  destruct (List.find _ names) as [found|] eqn:Hfind.
  - apply find_some in Hfind as [Hfound Hnot]. exists found.
    split; [done|]. split; [by apply list_elem_of_In|].
    apply negb_true_iff in Hnot. by apply bool_decide_eq_false_1 in Hnot.
  - exfalso. apply list_elem_of_In in Hin.
    pose proof (find_none _ _ Hfind name Hin) as Hnone. simpl in Hnone.
    apply negb_false_iff, bool_decide_eq_true_1 in Hnone. done.
Qed.

Lemma first_absent_None all_names names :
  (∀ name, name ∈ names → name ∈ all_names) →
  first_absent all_names names = None.
Proof.
  intros Hall. unfold first_absent.
  destruct (List.find _ names) as [found|] eqn:Hfind; [|done].
  apply find_some in Hfind as [Hfound Hnot].
  apply negb_true_iff, bool_decide_eq_false_1 in Hnot.
  exfalso. apply Hnot, Hall. by apply list_elem_of_In.
Qed.

(** *** What the whole validation leaves alone

    The names of the systems and of the sources, and the sources of each
    system. *)
Record same_shape (σ σ' : state) : Prop := {
  shape_system_name :
    ∀ r, system_name (systems σ' r) = system_name (systems σ r);
  shape_system_sources :
    ∀ r, system_sources (systems σ' r) = system_sources (systems σ r);
  shape_source_name :
    ∀ r, source_name (sources σ' r) = source_name (sources σ r)
}.

Lemma same_shape_trans σ1 σ2 σ3 :
  same_shape σ1 σ2 → same_shape σ2 σ3 → same_shape σ1 σ3.
Proof.
  intros [Hn Hs Hsn] [Hn' Hs' Hsn']. constructor; intros r.
  - by rewrite Hn', Hn.
  - by rewrite Hs', Hs.
  - by rewrite Hsn', Hsn.
Qed.

Lemma steady_same_shape σ σ' : steady σ σ' → same_shape σ σ'.
Proof.
  intros [Hs Hn _ _ _]. constructor; intros r; by rewrite ?Hs, ?Hn.
Qed.

Lemma names_of_sources_same_shape σ σ' system :
  same_shape σ σ' → names_of_sources σ' system = names_of_sources σ system.
Proof.
  intros [_ Hs Hn]. unfold names_of_sources. rewrite Hs.
  apply map_ext. intros source. apply Hn.
Qed.

(** *** The checks of the three stages *)

Definition passes_consistency (σ : state) (system : ref) : bool :=
  consistent_system ci_args (systems σ system).

Definition passes_environment (σ : state) (env : ref) : bool :=
  consistent_environment ci_args (environments σ env).

Definition is_enabled_in (σ : state) (system : ref) : bool :=
  system_enabled (systems σ system).

Definition always (env : ref) : bool := true.

Lemma consistency_c_run σ0 σ system :
  steady σ0 σ →
  ∃ σ', _consistent_system ci_args system σ
        = (inr (passes_consistency σ0 system), σ')
        ∧ steady σ σ' ∧ environments σ' = environments σ.
Proof.
  intros Hst. exists σ. rewrite _consistent_system_run.
  unfold passes_consistency. rewrite (steady_systems _ _ Hst).
  split; [done|]. split; [apply steady_refl|done].
Qed.

Lemma consistency_ce_run σ0 σ env :
  steady σ0 σ →
  _consistent_environment ci_args env σ
  = (inr (passes_environment σ0 env), σ).
Proof.
  intros Hst. rewrite _consistent_environment_run.
  unfold passes_environment, consistent_environment.
  by rewrite (steady_env_name _ _ Hst).
Qed.


Lemma enabled_c_run σ0 σ system :
  steady σ0 σ →
  ∃ σ', _system_is_enabled system σ = (inr (is_enabled_in σ0 system), σ')
        ∧ steady σ σ' ∧ environments σ' = environments σ.
Proof.
  intros Hst. exists σ. unfold _system_is_enabled, is_enabled, gets.
  unfold is_enabled_in. rewrite (steady_systems _ _ Hst).
  split; [done|]. split; [apply steady_refl|done].
Qed.

Lemma always_ce_run (σ0 σ : state) (env : ref) :
  steady σ0 σ → (λ _ : ref, ret true) env σ = (inr (always env), σ).
Proof. done. Qed.

Lemma sources_c_run σ0 σ system :
  steady σ0 σ →
  ∃ σ', _system_has_valid_sources ci_args system σ
        = (inr (has_requested_source ci_args σ0 system), σ')
        ∧ steady σ σ' ∧ environments σ' = environments σ.
Proof.
  intros Hst.
  destruct (_system_has_valid_sources_run ci_args system σ)
    as (σ' & Hrun & Hst' & He & _).
  exists σ'. rewrite Hrun, (has_requested_source_steady _ _ _ _ Hst). done.
Qed.

(** *** The override of the enabled flag *)

Definition enabled_version (system : System) : System :=
  {| system_name := system_name system;
     system_type := system_type system;
     system_enabled := true;
     system_sources := system_sources system |}.

(** Whether [override_enabled_systems] enables the system: it is one of
    the systems at hand and the [systems] argument names it. *)
Definition forced (σ : state) (user_systems : list ref) (system : ref) : bool :=
  bool_decide (system ∈ user_systems)
  && bool_decide (system_name (systems σ system) ∈ requested "systems").

Lemma enable_named_run names todo σ :
  ∃ σ', enable_named names todo σ = (inr tt, σ')
        ∧ environments σ' = environments σ
        ∧ sources σ' = sources σ
        ∧ debug_log σ' = debug_log σ
        ∧ ∀ system,
            systems σ' system
            = if bool_decide (system ∈ todo)
                 && bool_decide (system_name (systems σ system) ∈ names)
              then enabled_version (systems σ system)
              else systems σ system.
Proof.
  revert σ. induction todo as [|first rest IH]; intros σ.
  - exists σ. by repeat split.
  - simpl. rewrite gets_bind.
    set (σ1 := if bool_decide (system_name (systems σ first) ∈ names)
               then (enable first σ).2 else σ).
    assert (Hstep : (if bool_decide (system_name (systems σ first) ∈ names)
                     then enable first else ret tt) σ = (inr tt, σ1)).
    { unfold σ1. by case_bool_decide. }
    rewrite (bind_returns _ _ _ _ _ Hstep).
    destruct (IH σ1) as (σ' & -> & He & Hs & Hl & Hsys).
    assert (H1 : ∀ system,
               systems σ1 system
               = if bool_decide (system = first)
                    && bool_decide (system_name (systems σ system) ∈ names)
                 then enabled_version (systems σ system)
                 else systems σ system).
    { intros system. unfold σ1. case_bool_decide as Hname; simpl.
      - case_bool_decide as Heq; simpl.
        + subst. rewrite fn_lookup_alter. by rewrite bool_decide_eq_true_2.
        + by rewrite fn_lookup_alter_ne.
      - case_bool_decide as Heq; simpl; [|done].
        subst. by rewrite bool_decide_eq_false_2. }
    exists σ'. split; [done|].
    split; [rewrite He; unfold σ1; by case_bool_decide|].
    split; [rewrite Hs; unfold σ1; by case_bool_decide|].
    split; [rewrite Hl; unfold σ1; by case_bool_decide|].
    intros system. rewrite Hsys, H1.
    assert (Hname : system_name
                      (if bool_decide (system = first)
                          && bool_decide (system_name (systems σ system) ∈ names)
                       then enabled_version (systems σ system)
                       else systems σ system)
                    = system_name (systems σ system))
      by (by destruct (_ && _)).
    rewrite Hname.
    destruct (bool_decide (system_name (systems σ system) ∈ names)) eqn:Hn;
      rewrite ?andb_false_r; [|done].
    rewrite !andb_true_r.
    destruct (decide (system = first)) as [->|Hne].
    + rewrite (bool_decide_eq_true_2 (first = first)) by done.
      rewrite (bool_decide_eq_true_2 (first ∈ first :: rest))
        by apply list_elem_of_here.
      by destruct (bool_decide (first ∈ rest)).
    + rewrite (bool_decide_eq_false_2 (system = first)) by done.
      destruct (decide (system ∈ rest)) as [Hin|Hnotin].
      * rewrite !bool_decide_eq_true_2;
          [done|by apply list_elem_of_further|done].
      * rewrite !bool_decide_eq_false_2; [done| |done].
        by intros [?|?]%elem_of_cons.
Qed.

Lemma override_enabled_systems_run user_systems σ :
  ∃ σ', override_enabled_systems ci_args user_systems σ = (inr tt, σ')
        ∧ environments σ' = environments σ
        ∧ sources σ' = sources σ
        ∧ debug_log σ' = debug_log σ
        ∧ ∀ system,
            systems σ' system
            = if forced σ user_systems system
              then enabled_version (systems σ system)
              else systems σ system.
Proof.
  unfold override_enabled_systems, forced, requested.
  destruct (ci_args !! "systems") as [argument|].
  - destruct (value argument) as [|name names] eqn:Hvalue.
    + exists σ. repeat split; try done. intros system.
      rewrite (bool_decide_eq_false_2 (_ ∈ [])), andb_false_r; [done|].
      apply not_elem_of_nil.
    + apply enable_named_run.
  - exists σ. repeat split; try done. intros system.
    rewrite (bool_decide_eq_false_2 (_ ∈ [])), andb_false_r; [done|].
    apply not_elem_of_nil.
Qed.

End Stages.

(** *** A configuration to run the validator on

    Two environments: [env1] holds the systems [sysA] (jenkins, enabled,
    sources [A] and [B]) and [sysB] (zuul, disabled, source [C]); [env2]
    holds [sysC] (zuul, enabled, source [D]). Every source is enabled. *)
Definition a_source (name : string) : Source :=
  {| source_name := name; source_enabled := true |}.

Definition a_configuration : state :=
  {| environments := λ r,
       match r with
       | 0 => {| env_name := "env1"; env_systems := [0; 1] |}
       | _ => {| env_name := "env2"; env_systems := [2] |}
       end;
     systems := λ r,
       match r with
       | 0 => {| system_name := "sysA"; system_type := "jenkins";
                 system_enabled := true; system_sources := [0; 1] |}
       | 1 => {| system_name := "sysB"; system_type := "zuul";
                 system_enabled := false; system_sources := [2] |}
       | _ => {| system_name := "sysC"; system_type := "zuul";
                 system_enabled := true; system_sources := [3] |}
       end;
     sources := λ r,
       match r with
       | 0 => a_source "A"
       | 1 => a_source "B"
       | 2 => a_source "C"
       | _ => a_source "D"
       end;
     debug_log := [] |}.

Definition an_argument (names : list string) : Argument :=
  {| value := names |}.

(** *** The input checks *)

(** The claim on the input checks, as the specification words it: an
    absent environment name raises [InvalidEnvironment], an absent system
    name raises [InvalidSystem], the configuration is left as it was. *)
Definition absent_names_claim : Prop :=
  ∀ (ci_args : gmap string Argument) (envs : list ref) (σ : state),
    (∀ argument,
        ci_args !! "env_name" = Some argument →
        (∃ name, name ∈ value argument ∧ name ∉ all_env_names σ envs) →
        ∃ name all_names,
          validate_environments ci_args envs σ
          = (inl (InvalidEnvironment name all_names), σ))
    ∧ (∀ argument,
        ci_args !! "systems" = Some argument →
        (∃ name, name ∈ value argument ∧ name ∉ all_system_names σ envs) →
        ∃ name all_names,
          validate_environments ci_args envs σ
          = (inl (InvalidSystem name all_names), σ)).

Definition both_absent : gmap string Argument :=
  {[ "env_name" := an_argument ["nowhere"];
     "systems" := an_argument ["nothing"] ]}.

(** C7, as stated, fails: when both arguments hold an absent name, the
    environment names are checked first and [InvalidEnvironment] is
    raised, not [InvalidSystem]. *)
Lemma absent_system_after_absent_environment : ¬ absent_names_claim.
Proof.
  intros H.
  destruct (H both_absent [0; 1] a_configuration) as [_ Hsystems].
  destruct (Hsystems (an_argument ["nothing"]) eq_refl)
    as (name & all_names & Hrun).
  - exists "nothing". split; [apply list_elem_of_here|].
    vm_compute. intros Hin. repeat (apply elem_of_cons in Hin as [[=]|Hin]).
    by apply elem_of_nil in Hin.
  - vm_compute in Hrun. discriminate Hrun.
Qed.

(** C7, amended. The names of the arguments are checked against all the
    environments and all the systems of the configuration before anything
    is filtered. A name of [env_name] that is not an environment raises
    [InvalidEnvironment]; a name of [systems] that is not a system raises
    [InvalidSystem] when every name of [env_name] (if given) is an
    environment. The exception carries the first such name and all the
    names; the configuration is as it was. *)
Theorem absent_names_rejected (ci_args : gmap string Argument)
    (envs : list ref) (σ : state) :
  (∀ argument,
      ci_args !! "env_name" = Some argument →
      (∃ name, name ∈ value argument ∧ name ∉ all_env_names σ envs) →
      ∃ name, name ∈ value argument ∧ (name ∉ all_env_names σ envs)
        ∧ validate_environments ci_args envs σ
          = (inl (InvalidEnvironment name (all_env_names σ envs)), σ))
  ∧ (∀ argument,
      ci_args !! "systems" = Some argument →
      (∀ name, name ∈ requested ci_args "env_name" →
               name ∈ all_env_names σ envs) →
      (∃ name, name ∈ value argument ∧ name ∉ all_system_names σ envs) →
      ∃ name, name ∈ value argument ∧ (name ∉ all_system_names σ envs)
        ∧ validate_environments ci_args envs σ
          = (inl (InvalidSystem name (all_system_names σ envs)), σ)).
Proof.
  split.
  - intros argument Harg Habsent.
    assert (requested ci_args "env_name" = value argument) as Hreq
      by (unfold requested; by rewrite Harg).
    destruct (first_absent_Some _ _ Habsent) as (name & Hfirst & Hin & Hout).
    exists name. split; [done|]. split; [done|].
    rewrite validate_environments_stages.
    apply bind_raises. rewrite input_checks_run, Hreq, Hfirst. done.
  - intros argument Harg Henvs Habsent.
    assert (requested ci_args "systems" = value argument) as Hreq
      by (unfold requested; by rewrite Harg).
    destruct (first_absent_Some _ _ Habsent) as (name & Hfirst & Hin & Hout).
    exists name. split; [done|]. split; [done|].
    rewrite validate_environments_stages.
    apply bind_raises.
    rewrite input_checks_run, (first_absent_None _ _ Henvs), Hreq, Hfirst.
    done.
Qed.

(** With [systems] naming a system that does not exist, and no
    [env_name], [InvalidSystem] is raised. *)
Lemma absent_names_rejected_witness :
  ∃ name,
    name ∈ ["nothing"]
    ∧ (name ∉ all_system_names a_configuration [0; 1])
    ∧ validate_environments {[ "systems" := an_argument ["nothing"] ]}
        [0; 1] a_configuration
      = (inl (InvalidSystem name (all_system_names a_configuration [0; 1])),
         a_configuration).
Proof.
  apply (proj2 (absent_names_rejected
                  {[ "systems" := an_argument ["nothing"] ]}
                  [0; 1] a_configuration)
               (an_argument ["nothing"])).
  - reflexivity.
  - intros name Hin. vm_compute in Hin. by apply elem_of_nil in Hin.
  - exists "nothing". split; [apply list_elem_of_here|].
    vm_compute. intros Hin. repeat (apply elem_of_cons in Hin as [[=]|Hin]).
    by apply elem_of_nil in Hin.
Defined.

(** *** The consistency stage *)

Lemma answer_inj (b b' : bool) (σ : state) :
  (inr b, σ) = (inr b', σ) :> (exception + bool) * state ↔ b = b'.
Proof. split; [by intros [= ->]|by intros ->]. Qed.

Lemma _consistent_system_passes ci_args system σ b :
  _consistent_system ci_args system σ = (inr b, σ)
  ↔ passes_consistency ci_args σ system = b.
Proof. rewrite _consistent_system_run. apply answer_inj. Qed.

Lemma _consistent_environment_passes ci_args env σ b :
  _consistent_environment ci_args env σ = (inr b, σ)
  ↔ passes_environment ci_args σ env = b.
Proof. rewrite _consistent_environment_run. apply answer_inj. Qed.

Lemma input_checks_pass ci_args envs σ :
  (∀ name, name ∈ requested ci_args "env_name" →
           name ∈ all_env_names σ envs) →
  (∀ name, name ∈ requested ci_args "systems" →
           name ∈ all_system_names σ envs) →
  input_checks ci_args envs σ
  = (inr (all_system_names σ envs, all_systems σ envs), σ).
Proof.
  intros Henvs Hsystems. rewrite input_checks_run.
  by rewrite (first_absent_None _ _ Henvs), (first_absent_None _ _ Hsystems).
Qed.







(** *** The override and the enabled stage *)

Lemma consistency_stage_result ci_args envs user_envs user_systems σ σ1 :
  consistency_stage ci_args envs σ = (inr (user_envs, user_systems), σ1) →
  steady σ σ1
  ∧ (∀ system, system ∈ user_systems ↔
       ∃ env, env ∈ user_envs ∧ system ∈ env_systems (environments σ1 env))
  ∧ (∀ system, system ∈ user_systems → system ∈ all_systems σ envs).
Proof.
  intros Hrun.
  destruct (check_envs_result _ _ _ _ _ _ σ (consistency_c_run ci_args σ)
              (consistency_ce_run ci_args σ) envs _ _ _ Hrun)
    as (Hue & Hus & Hst & Hsys & Hin & _).
  split; [done|]. split; [done|].
  intros system Hs. rewrite Hus in Hs.
  apply list_elem_of_In, in_flat_map in Hs as (env & Henv & Hs).
  rewrite Hue in Henv. apply filter_In in Henv as [Henv _].
  apply list_elem_of_In, in_flat_map. exists env. split; [done|].
  apply list_elem_of_In. by apply list_elem_of_In, elem_of_survivors in Hs as [Hs _].
Qed.

Lemma enabled_stage_result user_envs user_envs' user_systems' σ σ2 :
  enabled_stage user_envs σ = (inr (user_envs', user_systems'), σ2) →
  steady σ σ2
  ∧ (∀ env, env ∈ user_envs' → env ∈ user_envs)
  ∧ (∀ env, env ∈ user_envs' →
       env_systems (environments σ2 env)
       = List.filter (is_enabled_in σ) (env_systems (environments σ env)))
  ∧ (∀ system, system ∈ user_systems' ↔
       ∃ env, env ∈ user_envs' ∧ system ∈ env_systems (environments σ2 env))
  ∧ (∀ system, system ∈ user_systems' ↔
       (∃ env, env ∈ user_envs ∧ system ∈ env_systems (environments σ env))
       ∧ system_enabled (systems σ system) = true).
Proof.
  intros Hrun.
  destruct (check_envs_result _ _ _ _ _ _ σ (enabled_c_run σ)
              (always_ce_run σ) user_envs _ _ _ Hrun)
    as (Hue & Hus & Hst & Hsys & Hin & _).
  split; [done|]. split; [|split; [done|split; [done|]]].
  - intros env Henv. rewrite Hue in Henv.
    by apply list_elem_of_In, filter_In in Henv as [?%list_elem_of_In _].
  - intros system. rewrite Hus, Hue, elem_of_stage_systems. split.
    + intros (env & Henv & Hs). apply elem_of_kept in Henv as (Henv & _ & _).
      apply elem_of_survivors in Hs as [Hs Hp]. split; [|done]. by exists env.
    + intros [(env & Henv & Hs) Hp]. exists env. split.
      * apply elem_of_kept. split; [done|]. split; [done|]. by exists system.
      * by apply elem_of_survivors.
Qed.

(** C6. After the consistency stage, [override_enabled_systems] sets the
    enabled flag of every remaining system that the [systems] argument
    names, in the store and before the enabled filter runs, and such a
    system is in the answer of the filter; the filter keeps exactly the
    remaining systems that are enabled after the override. When every
    remaining system is disabled after the override, and in particular
    when no [systems] argument is given and every system of the
    configuration is disabled, [validate_environments] raises
    [NoEnabledSystem], an exception without a list of names. *)
Theorem override_then_enabled_filter (ci_args : gmap string Argument)
    (envs user_envs user_systems : list ref) (σ σ1 : state) :
  consistency_stage ci_args envs σ = (inr (user_envs, user_systems), σ1) →
  ∃ σ1' user_envs' user_systems' σ2,
    override_enabled_systems ci_args user_systems σ1 = (inr tt, σ1')
    ∧ enabled_stage user_envs σ1' = (inr (user_envs', user_systems'), σ2)
    ∧ (∀ system,
         system ∈ user_systems →
         system_name (systems σ system) ∈ requested ci_args "systems" →
         system_enabled (systems σ1' system) = true
         ∧ system ∈ user_systems')
    ∧ (∀ system,
         system ∈ user_systems' ↔
         system ∈ user_systems ∧ system_enabled (systems σ1' system) = true)
    ∧ ((∀ name, name ∈ requested ci_args "env_name" →
                name ∈ all_env_names σ envs) →
       (∀ name, name ∈ requested ci_args "systems" →
                name ∈ all_system_names σ envs) →
       user_systems ≠ [] →
       ((∀ system, system ∈ user_systems →
                   system_enabled (systems σ1' system) = false)
        ∨ (ci_args !! "systems" = None
           ∧ ∀ system, system ∈ all_systems σ envs →
                       system_enabled (systems σ system) = false)) →
       validate_environments ci_args envs σ = (inl NoEnabledSystem, σ2)).
Proof.
  intros Hrun1.
  destruct (consistency_stage_result _ _ _ _ _ _ Hrun1)
    as (Hst1 & Hin1 & Hall1).
  destruct (override_enabled_systems_run ci_args user_systems σ1)
    as (σ1' & Hover & Henvs1' & _ & _ & Hsys1').
  destruct (check_envs_run _ _ _ _ msg_system_disabled "" σ1'
              (enabled_c_run σ1') (always_ce_run σ1') user_envs)
    as (σ2 & Hrun2 & _).
  fold (enabled_stage user_envs) in Hrun2.
  destruct (enabled_stage_result _ _ _ _ _ Hrun2) as (_ & _ & _ & _ & Hin2).
  set (user_envs' := List.filter _ user_envs) in *.
  set (user_systems' := flat_map _ user_envs') in *.
  assert (Hkeep : ∀ system,
            system ∈ user_systems' ↔
            system ∈ user_systems
            ∧ system_enabled (systems σ1' system) = true).
  { intros system. rewrite Hin2, Hin1. by rewrite Henvs1'. }
  exists σ1', user_envs', user_systems', σ2.
  split; [done|]. split; [done|]. split; [|split; [done|]].
  - intros system Hin Hname.
    assert (Hon : system_enabled (systems σ1' system) = true).
    { rewrite Hsys1'. unfold forced.
      rewrite (steady_systems _ _ Hst1).
      by rewrite !bool_decide_eq_true_2. }
    split; [done|]. by apply Hkeep.
  - intros Henvs Hsystems Hsome Hoff.
    assert (Hdisabled : ∀ system, system ∈ user_systems →
                          system_enabled (systems σ1' system) = false).
    { destruct Hoff as [Hoff|[Hnone Hoff]]; [done|].
      intros system Hin. rewrite Hsys1'. unfold forced, requested.
      rewrite Hnone, (bool_decide_eq_false_2 (_ ∈ [])), andb_false_r
        by apply not_elem_of_nil.
      rewrite (steady_systems _ _ Hst1). by apply Hoff, Hall1. }
    assert (Hnil : user_systems' = []).
    { destruct user_systems' as [|system l] eqn:Hl; [done|]. exfalso.
      destruct (proj1 (Hkeep system)) as [Hin Hon];
        [apply list_elem_of_here|].
      by rewrite (Hdisabled system Hin) in Hon. }
    rewrite validate_environments_stages.
    rewrite (bind_returns _ _ _ _ _ (input_checks_pass _ _ _ Henvs Hsystems)).
    simpl. rewrite (bind_returns _ _ _ _ _ Hrun1). simpl.
    destruct user_systems as [|system rest]; [done|].
    rewrite (bind_returns _ _ _ _ _ Hover).
    rewrite (bind_returns _ _ _ _ _ Hrun2). simpl. by rewrite Hnil.
Qed.

(** A system that the configuration disables is named by [systems]: it is
    enabled by the override and the enabled filter keeps it. *)
Lemma override_then_enabled_filter_witness :
  system_enabled (systems a_configuration 1) = false
  ∧ ∃ σ1' user_envs' user_systems' σ2,
      override_enabled_systems {[ "systems" := an_argument ["sysB"] ]} [1]
        (consistency_stage {[ "systems" := an_argument ["sysB"] ]}
           [0; 1] a_configuration).2
      = (inr tt, σ1')
      ∧ enabled_stage [0] σ1' = (inr (user_envs', user_systems'), σ2)
      ∧ system_enabled (systems σ1' 1) = true
      ∧ 1 ∈ user_systems'.
Proof.
  split; [reflexivity|].
  destruct (override_then_enabled_filter
              {[ "systems" := an_argument ["sysB"] ]} [0; 1] [0] [1]
              a_configuration
              (consistency_stage {[ "systems" := an_argument ["sysB"] ]}
                 [0; 1] a_configuration).2)
    as (σ1' & user_envs' & user_systems' & σ2 & Hover & Hrun & Hforced & _).
  - vm_compute. reflexivity.
  - exists σ1', user_envs', user_systems', σ2.
    split; [exact Hover|]. split; [exact Hrun|].
    apply Hforced; [apply list_elem_of_here|].
    vm_compute. apply list_elem_of_here.
Defined.

(** A configuration whose only system is disabled. *)
Definition a_disabled_configuration : state :=
  {| environments := λ _, {| env_name := "env"; env_systems := [0] |};
     systems := λ _, {| system_name := "sys"; system_type := "zuul";
                        system_enabled := false; system_sources := [0] |};
     sources := λ _, a_source "A";
     debug_log := [] |}.

Example all_disabled_raises :
  (validate_environments ∅ [0] a_disabled_configuration).1
  = inl NoEnabledSystem.
Proof. vm_compute. reflexivity. Qed.

(** *** The sources stage *)

(** The run of [validate_environments] gets to the sources stage with the
    environments [user_envs] and the systems [user_systems], in the state
    [σ2]: the input checks pass, the consistency stage and the enabled
    stage each leave a system. *)
Definition reaches_sources (ci_args : gmap string Argument)
    (envs : list ref) (σ : state) (user_envs user_systems : list ref)
    (σ2 : state) : Prop :=
  (∀ name, name ∈ requested ci_args "env_name" → name ∈ all_env_names σ envs)
  ∧ (∀ name, name ∈ requested ci_args "systems" →
             name ∈ all_system_names σ envs)
  ∧ ∃ envs1 systems1 σ1 σ1',
      consistency_stage ci_args envs σ = (inr (envs1, systems1), σ1)
      ∧ systems1 ≠ []
      ∧ override_enabled_systems ci_args systems1 σ1 = (inr tt, σ1')
      ∧ enabled_stage envs1 σ1' = (inr (user_envs, user_systems), σ2)
      ∧ user_systems ≠ [].

Lemma reaches_sources_validate ci_args envs σ user_envs user_systems σ2 :
  reaches_sources ci_args envs σ user_envs user_systems σ2 →
  validate_environments ci_args envs σ
  = ('(user_envs, user_systems) ← sources_stage ci_args user_envs;
     match user_systems with
     | [] => names ← source_names (all_systems σ envs);
             raise (NoValidSources names)
     | _ => ret user_envs
     end) σ2.
Proof.
  intros (Henvs & Hsystems & envs1 & systems1 & σ1 & σ1'
          & Hrun1 & Hsome1 & Hover & Hrun2 & Hsome2).
  rewrite validate_environments_stages.
  rewrite (bind_returns _ _ _ _ _ (input_checks_pass _ _ _ Henvs Hsystems)).
  simpl. rewrite (bind_returns _ _ _ _ _ Hrun1). simpl.
  destruct systems1 as [|s1 rest1]; [done|].
  rewrite (bind_returns _ _ _ _ _ Hover).
  rewrite (bind_returns _ _ _ _ _ Hrun2). simpl.
  destruct user_systems as [|s2 rest2]; [done|]. done.
Qed.

Lemma reaches_sources_result ci_args envs σ user_envs user_systems σ2 :
  reaches_sources ci_args envs σ user_envs user_systems σ2 →
  same_shape σ σ2
  ∧ (∀ system, system ∈ user_systems ↔
       ∃ env, env ∈ user_envs ∧ system ∈ env_systems (environments σ2 env)).
Proof.
  intros (_ & _ & envs1 & systems1 & σ1 & σ1'
          & Hrun1 & _ & Hover & Hrun2 & _).
  destruct (consistency_stage_result _ _ _ _ _ _ Hrun1) as (Hst1 & _).
  destruct (override_enabled_systems_run ci_args systems1 σ1)
    as (σ' & Hover' & _ & Hsrc & _ & Hsys).
  rewrite Hover in Hover'. injection Hover' as <-.
  destruct (enabled_stage_result _ _ _ _ _ Hrun2) as (Hst2 & _ & _ & Hin & _).
  split; [|done].
  eapply same_shape_trans; [by apply steady_same_shape|].
  eapply same_shape_trans; [|by apply steady_same_shape].
  constructor; intros r; rewrite ?Hsys, ?Hsrc; try done;
    by destruct (forced _ _ _ _).
Qed.

Lemma has_requested_source_true ci_args argument σ system :
  ci_args !! "sources" = Some argument →
  has_requested_source ci_args σ system = true
  ↔ ∃ source, source ∈ system_sources (systems σ system)
              ∧ source_name (sources σ source) ∈ value argument.
Proof.
  intros Harg. unfold has_requested_source, names_of_sources.
  rewrite Harg, existsb_exists. split.
  - intros (name & Hin & Hreq).
    apply in_map_iff in Hin as (source & <- & Hin).
    exists source. split; [by apply list_elem_of_In|].
    by apply bool_decide_eq_true_1 in Hreq.
  - intros (source & Hin & Hreq). exists (source_name (sources σ source)).
    split; [|by apply bool_decide_eq_true_2].
    apply in_map_iff. exists source. split; [done|by apply list_elem_of_In].
Qed.

(** Once the sources check ran on a system, its sources with a name that
    is not requested are disabled for the rest of the stage. *)
Lemma examined_sources_disabled ci_args argument σ2 σ3 system source :
  ci_args !! "sources" = Some argument →
  examined (_system_has_valid_sources ci_args)
    (has_requested_source ci_args σ2) σ2 system σ3 →
  source ∈ system_sources (systems σ2 system) →
  source_name (sources σ2 source) ∉ value argument →
  source_enabled (sources σ3 source) = false.
Proof.
  intros Harg (σa & σb & Ha & Hrun & Hb) Hin Hname.
  destruct (_system_has_valid_sources_run ci_args system σa)
    as (σ' & Hrun' & _ & _ & _ & Hdisabled).
  rewrite Hrun in Hrun'. injection Hrun' as _ <-.
  apply (steady_disabled _ _ Hb). apply (Hdisabled argument source Harg).
  - by rewrite (steady_systems _ _ Ha).
  - by rewrite (steady_source_name _ _ Ha).
Qed.

Lemma source_names_run (all : list ref) σ :
  source_names all σ = (inr (flat_map (names_of_sources σ) all), σ).
Proof. reflexivity. Qed.

(** What the sources stage does to the systems it checks. *)
Lemma sources_stage_checked ci_args envs σ argument user_envs user_systems σ2 :
  ci_args !! "sources" = Some argument →
  reaches_sources ci_args envs σ user_envs user_systems σ2 →
  ∃ user_envs' user_systems' σ3,
    sources_stage ci_args user_envs σ2
    = (inr (user_envs', user_systems'), σ3)
    ∧ (∀ system source,
         system ∈ user_systems →
         source ∈ system_sources (systems σ2 system) →
         source_name (sources σ2 source) ∉ value argument →
         source_enabled (sources σ3 source) = false)
    ∧ (∀ system,
         system ∈ user_systems' ↔
         system ∈ user_systems
         ∧ ∃ source, source ∈ system_sources (systems σ2 system)
                     ∧ source_name (sources σ2 source) ∈ value argument).
Proof.
  intros Harg Hreach.
  destruct (reaches_sources_result _ _ _ _ _ _ Hreach) as (Hshape & Hin2).
  set (p := has_requested_source ci_args σ2).
  destruct (check_envs_run _ _ p always msg_system_no_sources "" σ2
              (sources_c_run ci_args σ2) (always_ce_run σ2) user_envs)
    as (σ3 & Hrun & Hst & _ & _ & _ & Hex).
  fold (sources_stage ci_args user_envs) in Hrun.
  set (user_envs' := List.filter (kept p always σ2) user_envs) in *.
  set (user_systems' := flat_map (survivors p σ2) user_envs') in *.
  exists user_envs', user_systems', σ3.
  split; [exact Hrun|]. split.
  - intros system source Hsys Hsrc Hname.
    apply Hin2 in Hsys as (env & Henv & Hsys).
    destruct (Hex env system Henv eq_refl Hsys) as [Hexamined _].
    by eapply examined_sources_disabled.
  - intros system. unfold user_systems', user_envs'.
    rewrite elem_of_stage_systems, Hin2.
    rewrite <- (has_requested_source_true ci_args argument σ2 system Harg).
    split.
    + intros (env & Henv & Hs). apply elem_of_kept in Henv as (Henv & _ & _).
      apply elem_of_survivors in Hs as [Hs Hp]. split; [|done]. by exists env.
    + intros [(env & Henv & Hs) Hp]. exists env. split.
      * apply elem_of_kept. split; [done|]. split; [done|]. by exists system.
      * by apply elem_of_survivors.
Qed.

(** C2. With a [sources] argument, when the run gets to the sources
    stage: the stage never raises and removes no source from any system;
    every source of a checked system whose name is not requested is
    disabled; the systems left are the checked systems with a source of a
    requested name, and no other system is left in a kept environment;
    when no system is left, [validate_environments] raises
    [NoValidSources] with the names of the sources of all the systems the
    configuration held at the start, and otherwise it answers the kept
    environments. *)
Theorem sources_stage_disables (ci_args : gmap string Argument)
    (envs : list ref) (σ : state) (argument : Argument)
    (user_envs user_systems : list ref) (σ2 : state) :
  ci_args !! "sources" = Some argument →
  reaches_sources ci_args envs σ user_envs user_systems σ2 →
  ∃ user_envs' user_systems' σ3,
    sources_stage ci_args user_envs σ2
    = (inr (user_envs', user_systems'), σ3)
    ∧ same_shape σ2 σ3
    ∧ (∀ system source,
         system ∈ user_systems →
         source ∈ system_sources (systems σ2 system) →
         source_name (sources σ2 source) ∉ value argument →
         source_enabled (sources σ3 source) = false)
    ∧ (∀ system,
         system ∈ user_systems' ↔
         system ∈ user_systems
         ∧ ∃ source, source ∈ system_sources (systems σ2 system)
                     ∧ source_name (sources σ2 source) ∈ value argument)
    ∧ (∀ env system,
         env ∈ user_envs' →
         system ∈ env_systems (environments σ3 env) →
         system ∈ user_systems')
    ∧ (user_systems' = [] →
       validate_environments ci_args envs σ
       = (inl (NoValidSources (all_source_names σ envs)), σ3))
    ∧ (user_systems' ≠ [] →
       validate_environments ci_args envs σ = (inr user_envs', σ3)).
Proof.
  intros Harg Hreach.
  destruct (reaches_sources_result _ _ _ _ _ _ Hreach) as (Hshape & _).
  destruct (sources_stage_checked _ _ _ _ _ _ _ Harg Hreach)
    as (user_envs' & user_systems' & σ3 & Hrun & Hdisabled & Hleft).
  destruct (check_envs_result _ _ _ _ _ _ σ2 (sources_c_run ci_args σ2)
              (always_ce_run σ2) user_envs _ _ _ Hrun)
    as (_ & _ & Hst & _ & Hin3 & _).
  exists user_envs', user_systems', σ3.
  split; [exact Hrun|]. split; [by apply steady_same_shape|].
  split; [exact Hdisabled|]. split; [exact Hleft|]. split; [|split].
  - intros env system Henv Hs. apply Hin3. by exists env.
  - intros Hnil. rewrite (reaches_sources_validate _ _ _ _ _ _ Hreach).
    rewrite (bind_returns _ _ _ _ _ Hrun). simpl. rewrite Hnil.
    rewrite (bind_returns _ _ _ _ _ (source_names_run _ σ3)).
    unfold raise, all_source_names. do 3 f_equal.
    apply flat_map_ext. intros system.
    apply names_of_sources_same_shape.
    eapply same_shape_trans; [exact Hshape|by apply steady_same_shape].
  - intros Hsome. rewrite (reaches_sources_validate _ _ _ _ _ _ Hreach).
    rewrite (bind_returns _ _ _ _ _ Hrun). simpl.
    by destruct user_systems'.
Qed.

Definition only_C : gmap string Argument :=
  {[ "sources" := an_argument ["C"] ]}.

(** The states the run on [a_configuration] with [sources] set to [C]
    goes through before the sources stage. *)
Definition after_consistency : state :=
  (consistency_stage only_C [0; 1] a_configuration).2.

Definition after_enabled : state :=
  (enabled_stage [0; 1] after_consistency).2.

(** That run gets to the sources stage with both environments and the two
    enabled systems. *)
Lemma only_C_reaches_sources :
  reaches_sources only_C [0; 1] a_configuration [0; 1] [0; 2] after_enabled.
Proof.
  split; [|split].
  - intros name Hin. vm_compute in Hin. by apply elem_of_nil in Hin.
  - intros name Hin. vm_compute in Hin. by apply elem_of_nil in Hin.
  - exists [0; 1], [0; 1; 2], after_consistency, after_consistency.
    split; [vm_compute; reflexivity|]. split; [done|].
    split; [vm_compute; reflexivity|].
    split; [vm_compute; reflexivity|done].
Defined.

(** The enabled systems have sources [A], [B] and [D] only: both are
    dropped, their sources are disabled, and [NoValidSources] carries the
    source [C] of the disabled system too. *)
Lemma sources_stage_disables_witness :
  ∃ σ3,
    validate_environments only_C [0; 1] a_configuration
    = (inl (NoValidSources ["A"; "B"; "C"; "D"]), σ3)
    ∧ source_enabled (sources σ3 0) = false.
Proof.
  destruct (sources_stage_disables only_C [0; 1] a_configuration
              (an_argument ["C"]) [0; 1] [0; 2] after_enabled
              eq_refl only_C_reaches_sources)
    as (user_envs' & user_systems' & σ3 & Hrun & _ & Hdisabled & _ & _
        & Hraise & _).
  exists σ3. split.
  - apply Hraise. vm_compute in Hrun. by injection Hrun as _ <- _.
  - apply (Hdisabled 0 0).
    + apply list_elem_of_here.
    + vm_compute. apply list_elem_of_here.
    + vm_compute. by intros ?%list_elem_of_singleton.
Defined.

(** *** The failure of the sources stage *)

Lemma first_absent_None_inv all_names names :
  first_absent all_names names = None →
  ∀ name, name ∈ names → name ∈ all_names.
Proof.
  unfold first_absent. intros Hfind name Hin. apply list_elem_of_In in Hin.
  pose proof (find_none _ _ Hfind name Hin) as Hnone. simpl in Hnone.
  by apply negb_false_iff, bool_decide_eq_true_1 in Hnone.
Qed.

(** A run that raises [NoValidSources] got to the sources stage. *)
Lemma no_valid_sources_reaches ci_args envs σ names σ' :
  validate_environments ci_args envs σ = (inl (NoValidSources names), σ') →
  ∃ user_envs user_systems σ2,
    reaches_sources ci_args envs σ user_envs user_systems σ2.
Proof.
  intros Hrun. rewrite validate_environments_stages in Hrun.
  pose proof (input_checks_run ci_args envs σ) as Hinput.
  destruct (first_absent (all_env_names σ envs) (requested ci_args "env_name"))
    as [name|] eqn:Henvs.
  { by rewrite (bind_raises _ _ _ _ _ Hinput) in Hrun. }
  destruct (first_absent (all_system_names σ envs) (requested ci_args "systems"))
    as [name|] eqn:Hsystems.
  { by rewrite (bind_raises _ _ _ _ _ Hinput) in Hrun. }
  rewrite (bind_returns _ _ _ _ _ Hinput) in Hrun. simpl in Hrun.
  destruct (check_envs_run _ _ _ _ msg_system_inconsistent
              msg_env_inconsistent σ (consistency_c_run ci_args σ)
              (consistency_ce_run ci_args σ) envs)
    as (σ1 & Hrun1 & _).
  fold (consistency_stage ci_args envs) in Hrun1.
  rewrite (bind_returns _ _ _ _ _ Hrun1) in Hrun. simpl in Hrun.
  destruct (flat_map _ _) as [|s1 rest1] eqn:Hsystems1 in Hrun1, Hrun; [done|].
  set (envs1 := List.filter _ envs) in *.
  destruct (override_enabled_systems_run ci_args (s1 :: rest1) σ1)
    as (σ1' & Hover & _).
  rewrite (bind_returns _ _ _ _ _ Hover) in Hrun.
  destruct (check_envs_run _ _ _ _ msg_system_disabled "" σ1'
              (enabled_c_run σ1') (always_ce_run σ1') envs1)
    as (σ2 & Hrun2 & _).
  fold (enabled_stage envs1) in Hrun2.
  set (user_envs := List.filter _ envs1) in *.
  set (user_systems := flat_map _ user_envs) in *.
  rewrite (bind_returns _ _ _ _ _ Hrun2) in Hrun. simpl in Hrun.
  destruct user_systems as [|s2 rest2] eqn:Hsystems2; [done|].
  exists user_envs, (s2 :: rest2), σ2.
  split; [by apply first_absent_None_inv|].
  split; [by apply first_absent_None_inv|].
  exists envs1, (s1 :: rest1), σ1, σ1'. by repeat split.
Qed.

(** C10. With a [sources] argument, a run of [validate_environments] that
    raises [NoValidSources] got to the sources stage, and the state it
    leaves is the state that stage left: nothing is rolled back. In that
    state every source of every system that the stage checked is
    disabled, whatever its flag was before the run. *)
Theorem disabled_sources_persist (ci_args : gmap string Argument)
    (envs : list ref) (σ : state) (argument : Argument)
    (names : list string) (σ' : state) :
  ci_args !! "sources" = Some argument →
  validate_environments ci_args envs σ = (inl (NoValidSources names), σ') →
  (∃ user_envs user_systems σ2,
     reaches_sources ci_args envs σ user_envs user_systems σ2)
  ∧ ∀ user_envs user_systems σ2,
      reaches_sources ci_args envs σ user_envs user_systems σ2 →
      sources_stage ci_args user_envs σ2 = (inr ([], []), σ')
      ∧ ∀ system source,
          system ∈ user_systems →
          source ∈ system_sources (systems σ system) →
          source_enabled (sources σ' source) = false.
Proof.
  intros Harg Hraise. split; [by eapply no_valid_sources_reaches|].
  intros user_envs user_systems σ2 Hreach.
  destruct (reaches_sources_result _ _ _ _ _ _ Hreach) as (Hshape & _).
  set (p := has_requested_source ci_args σ2).
  destruct (check_envs_run _ _ p always msg_system_no_sources "" σ2
              (sources_c_run ci_args σ2) (always_ce_run σ2) user_envs)
    as (σ3 & Hrun & _).
  fold (sources_stage ci_args user_envs) in Hrun.
  destruct (check_envs_result _ _ _ _ _ _ σ2 (sources_c_run ci_args σ2)
              (always_ce_run σ2) user_envs _ _ _ Hrun)
    as (_ & _ & _ & _ & _ & Hnil).
  destruct (sources_stage_checked ci_args envs σ argument user_envs
              user_systems σ2 Harg Hreach)
    as (envs3 & systems3 & σ3' & Hrun' & Hdisabled & Hleft).
  rewrite Hrun in Hrun'. injection Hrun' as Henvs3 Hsystems3 <-.
  rewrite (reaches_sources_validate _ _ _ _ _ _ Hreach) in Hraise.
  rewrite (bind_returns _ _ _ _ _ Hrun) in Hraise. simpl in Hraise.
  destruct (flat_map _ _) as [|s3 rest3] eqn:Hsystems in Hrun, Hnil, Hraise,
    Hsystems3; [|done].
  rewrite (bind_returns _ _ _ _ _ (source_names_run _ σ3)) in Hraise.
  injection Hraise as _ <-.
  rewrite (proj1 Hnil eq_refl) in Hrun. split; [exact Hrun|].
  intros system source Hsys Hsrc.
  rewrite <- (shape_system_sources _ _ Hshape) in Hsrc.
  apply (Hdisabled system source Hsys Hsrc).
  intros Hname. subst systems3.
  assert (Hin : system ∈ []); [|by apply elem_of_nil in Hin].
  apply Hleft. split; [done|]. by exists source.
Qed.

(** On [a_configuration] with [sources] set to [C], the source [A] is
    enabled before the run and disabled in the state the failed run
    leaves. *)
Lemma disabled_sources_persist_witness :
  source_enabled (sources a_configuration 0) = true
  ∧ (validate_environments only_C [0; 1] a_configuration).1
    = inl (NoValidSources ["A"; "B"; "C"; "D"])
  ∧ source_enabled
      (sources (validate_environments only_C [0; 1] a_configuration).2 0)
    = false.
Proof.
  split; [reflexivity|]. split; [vm_compute; reflexivity|].
  apply (proj2 (disabled_sources_persist only_C [0; 1] a_configuration
                  (an_argument ["C"]) ["A"; "B"; "C"; "D"]
                  (validate_environments only_C [0; 1] a_configuration).2
                  eq_refl ltac:(vm_compute; reflexivity))
               [0; 1] [0; 2] after_enabled only_C_reaches_sources) with 0.
  - apply list_elem_of_here.
  - vm_compute. apply list_elem_of_here.
Defined.

End ValidationSpec.


(* ===================================================================== *)
(** * Further properties *)
(* ===================================================================== *)

(** ** Laws of the filter utility *)

Module FilteringLaws.
Import Filtering FilteringSpec.

(** X1. Applying filters in two rounds is applying them all in one round,
    and applying the same filters a second time changes nothing. *)
Theorem apply_filters_rounds {A : Type} (S : list A)
    (ps qs : list (A → bool)) :
  apply_filters (apply_filters S ps) qs = apply_filters S (ps ++ qs)
  ∧ apply_filters (apply_filters S ps) ps = apply_filters S ps.
Proof.
  split.
  - unfold apply_filters. by rewrite fold_left_app.
  - rewrite !apply_filters_accepted, filter_twice.
    apply filter_ext. intros x. by destruct (accepted ps x).
Qed.

Lemma apply_filters_sublist {A : Type} (S : list A) (ps : list (A → bool)) :
  sublist (apply_filters S ps) S.
Proof. rewrite apply_filters_accepted. apply filter_sublist. Qed.

(** X2. Filters only narrow: with more filters the answer is a sublist of
    the answer with fewer, whatever the filters are, and it is never
    longer than the input. *)
Theorem apply_filters_narrows {A : Type} (S : list A)
    (ps qs : list (A → bool)) :
  sublist (apply_filters S (ps ++ qs)) (apply_filters S ps)
  ∧ length (apply_filters S (ps ++ qs)) ≤ length S.
Proof.
  assert (H : sublist (apply_filters S (ps ++ qs)) (apply_filters S ps)).
  { unfold apply_filters at 1. rewrite fold_left_app.
    apply (apply_filters_sublist (apply_filters S ps) qs). }
  split; [exact H|].
  apply sublist_length. etrans; [exact H|]. apply apply_filters_sublist.
Qed.

End FilteringLaws.

(** ** Laws of builds requests *)

Module BuildsLaws.
Import Filtering Transactions FilteringSpec TransactionsSpec.

#[local] Instance call_eq_dec : EqDecision call.
Proof. solve_decision. Defined.

(** The field a call tests and the patterns it was given. *)
Definition field_of (c : call) : ZuulBuildAPI → string :=
  match c with
  | WithUuid _ => build_uuid
  | WithStatus _ => build_result
  | WithProject _ => build_project
  | WithPipeline _ => build_pipeline
  | WithLastBuildOnly => λ _, ""
  end.

Definition patterns_of (c : call) : list string :=
  match c with
  | WithUuid pattern | WithStatus pattern
  | WithProject pattern | WithPipeline pattern => pattern
  | WithLastBuildOnly => []
  end.

Section Laws.
Variable matches_regex : string → string → bool.

#[local] Abbreviation chain := (chain matches_regex).
#[local] Abbreviation registered := (registered matches_regex).

(** A build passes a call when the call is [with_last_build_only] or one
    of its patterns matches the field it tests. *)
Definition passes (c : call) (build : ZuulBuildAPI) : Prop :=
  c = WithLastBuildOnly
  ∨ ∃ patt, patt ∈ patterns_of c
            ∧ matches_regex patt (field_of c build) = true.

Lemma accepted_registered calls build :
  accepted (flat_map registered calls) build = true
  ↔ ∀ c, c ∈ calls → passes c build.
Proof.
  rewrite accepted_true. split.
  - intros H c Hc.
    assert (Hreg : ∀ p, p ∈ registered c → p build = true).
    { intros p Hp. apply H. apply list_elem_of_In, in_flat_map. exists c.
      split; by apply list_elem_of_In. }
    destruct c as [pattern|pattern|pattern|pattern|]; [right..|by left];
      specialize (Hreg _ (list_elem_of_here _ _));
      apply existsb_exists in Hreg as (patt & Hin & Hm);
      exists patt; (split; [by apply list_elem_of_In|done]).
  - intros H p Hp. apply list_elem_of_In, in_flat_map in Hp as (c & Hc & Hp).
    apply list_elem_of_In in Hc.
    destruct (H c Hc) as [->|(patt & Hin & Hm)]; [by destruct Hp|].
    assert (p = test matches_regex (field_of c) (patterns_of c)) as ->.
    { destruct c; simpl in Hp;
        [destruct Hp as [<-|[]]; done..|by destruct Hp]. }
    apply existsb_exists. exists patt. split; [by apply list_elem_of_In|done].
Qed.

Lemma flag_of_chain job calls :
  _last_build_only (chain job calls) = true ↔ WithLastBuildOnly ∈ calls.
Proof.
  rewrite (proj2 (proj2 (chain_fields matches_regex job calls))).
  rewrite existsb_exists. split.
  - intros (c & Hin & Hc). destruct c; try done. by apply list_elem_of_In.
  - intros Hin. exists WithLastBuildOnly. by rewrite <- list_elem_of_In.
Qed.

Lemma get_of_chain job calls :
  get (chain job calls)
  = map Build_BuildResponse
      (let builds := List.filter (accepted (flat_map registered calls))
                       (job_builds job) in
       if bool_decide (WithLastBuildOnly ∈ calls) then take 1 builds
       else builds).
Proof.
  unfold get.
  destruct (chain_fields matches_regex job calls) as (-> & -> & _).
  rewrite apply_filters_accepted. simpl.
  destruct (_last_build_only (chain job calls)) eqn:Hflag.
  - apply flag_of_chain in Hflag. by rewrite bool_decide_eq_true_2.
  - rewrite bool_decide_eq_false_2; [done|].
    intros Hin. apply (flag_of_chain job) in Hin. congruence.
Qed.

(** X3. Patterns are alternatives within one call and calls are
    conjoined: every build that [get()] answers is a build of the job
    that, for each [with_*] call, matches one of the patterns of the call
    on the field the call tests; without [with_last_build_only] the
    answer holds every such build. *)
Theorem get_any_pattern_every_call job calls build :
  ({| _build := build |} ∈ get (chain job calls) →
   build ∈ job_builds job ∧ ∀ c, c ∈ calls → passes c build)
  ∧ (WithLastBuildOnly ∉ calls →
     build ∈ job_builds job → (∀ c, c ∈ calls → passes c build) →
     {| _build := build |} ∈ get (chain job calls)).
Proof.
  rewrite get_of_chain. simpl. split.
  - intros (b & [= ->] & Hin)%list_elem_of_fmap.
    assert (Hf : b ∈ List.filter (accepted (flat_map registered calls))
                   (job_builds job)).
    { case_bool_decide; [|done]. by eapply subseteq_take. }
    apply list_elem_of_In, filter_In in Hf as [Hb Hacc].
    split; [by apply list_elem_of_In|by apply accepted_registered].
  - intros Hflag Hb Hpass. rewrite bool_decide_eq_false_2 by done.
    apply list_elem_of_fmap. exists build. split; [done|].
    apply list_elem_of_In, filter_In. split; [by apply list_elem_of_In|].
    by apply accepted_registered.
Qed.

Lemma accepted_app {A : Type} (ps qs : list (A → bool)) (x : A) :
  accepted (ps ++ qs) x = accepted ps x && accepted qs x.
Proof. unfold accepted. apply forallb_app. Qed.

Lemma filter_none {A : Type} (f : A → bool) (l : list A) :
  (∀ x, x ∈ l → f x = false) → List.filter f l = [].
Proof.
  induction l as [|x l IH]; intros H; [done|]. simpl.
  rewrite (H x) by apply list_elem_of_here.
  apply IH. intros y Hy. apply H. by apply list_elem_of_further.
Qed.

(** X4. The order of the calls on a request does not matter: requests
    built by the same calls in another order give the same answer. *)
Theorem get_call_order job calls calls' :
  calls ≡ₚ calls' → get (chain job calls) = get (chain job calls').
Proof.
  intros Hperm. rewrite !get_of_chain. simpl. f_equal.
  assert (Hfilter :
    List.filter (accepted (flat_map registered calls)) (job_builds job)
    = List.filter (accepted (flat_map registered calls')) (job_builds job)).
  { apply filter_ext. intros build. apply accepted_perm.
    by apply Permutation_flat_map. }
  rewrite Hfilter.
  rewrite (bool_decide_ext (WithLastBuildOnly ∈ calls)
             (WithLastBuildOnly ∈ calls')); [done|].
  by rewrite Hperm.
Qed.

(** X5. A [with_*] call given no pattern at all rejects every build:
    with such a call in the chain the answer is empty. *)
Theorem get_no_pattern job calls c :
  c ∈ calls → c ≠ WithLastBuildOnly → patterns_of c = [] →
  get (chain job calls) = [].
Proof.
  intros Hc Hne Hnone. rewrite get_of_chain. simpl.
  rewrite filter_none.
  - by case_bool_decide.
  - intros build _. apply not_true_is_false. intros Hacc.
    destruct (proj1 (accepted_registered calls build) Hacc c Hc)
      as [?|(patt & Hin & _)]; [done|].
    rewrite Hnone in Hin. by apply elem_of_nil in Hin.
Qed.

Lemma take_1_filter {A : Type} (f : A → bool) (l : list A) (x : A) :
  take 1 (List.filter f l) = [x]
  ↔ ∃ pre post, l = pre ++ x :: post ∧ f x = true
                ∧ ∀ y, y ∈ pre → f y = false.
Proof.
  induction l as [|a l IH]; simpl.
  - split; [done|]. intros (pre & post & Hl & _). by destruct pre.
  - destruct (f a) eqn:Ha; simpl.
    + rewrite take_0. split.
      * intros [= ->]. exists [], l. split; [done|]. split; [done|].
        intros y Hy. by apply elem_of_nil in Hy.
      * intros (pre & post & Hl & Hx & Hpre).
        destruct pre as [|b pre]; simpl in Hl.
        -- by injection Hl as ->.
        -- injection Hl as -> _.
           rewrite (Hpre b) in Ha by apply list_elem_of_here. done.
    + rewrite IH. split.
      * intros (pre & post & -> & Hx & Hpre). exists (a :: pre), post.
        split; [done|]. split; [done|].
        intros y [->|Hy]%elem_of_cons; auto.
      * intros (pre & post & Hl & Hx & Hpre).
        destruct pre as [|b pre]; simpl in Hl.
        -- injection Hl as -> _. congruence.
        -- injection Hl as -> ->. exists pre, post.
           split; [done|]. split; [done|].
           intros y Hy. apply Hpre. by apply list_elem_of_further.
Qed.

(** X6. With [with_last_build_only], [get()] answers exactly one build
    precisely when that build is the first one, in the order the job gives
    its builds, to pass every call: every build before it fails some
    call. *)
Theorem get_first_passing job calls build :
  WithLastBuildOnly ∈ calls →
  get (chain job calls) = [ {| _build := build |} ]
  ↔ ∃ pre post,
      job_builds job = pre ++ build :: post
      ∧ (∀ c, c ∈ calls → passes c build)
      ∧ ∀ earlier, earlier ∈ pre → ¬ ∀ c, c ∈ calls → passes c earlier.
Proof.
  intros Hflag. rewrite get_of_chain. simpl.
  rewrite bool_decide_eq_true_2 by done.
  set (f := accepted (flat_map registered calls)).
  assert (Hmap : map Build_BuildResponse (take 1 (List.filter f (job_builds job)))
                 = [ {| _build := build |} ]
                 ↔ take 1 (List.filter f (job_builds job)) = [build]).
  { split; [|by intros ->].
    destruct (take 1 _) as [|b [|b' l]]; simpl; try done. by intros [= ->]. }
  rewrite Hmap, take_1_filter. unfold f.
  split; intros (pre & post & Hbuilds & Hbuild & Hpre); exists pre, post;
    (split; [done|]); split.
  - by apply accepted_registered.
  - intros earlier Hin Hpass. apply accepted_registered in Hpass.
    by rewrite (Hpre earlier Hin) in Hpass.
  - by apply accepted_registered.
  - intros earlier Hin. apply not_true_is_false.
    intros Hacc. apply (Hpre earlier Hin). by apply accepted_registered.
Qed.

(** X7. Without [with_last_build_only], more calls only narrow the
    answer: the answer of a longer chain is a sublist of the answer of
    the chain it extends. *)
Theorem get_narrows job calls more :
  WithLastBuildOnly ∉ calls ++ more →
  sublist (get (chain job (calls ++ more))) (get (chain job calls)).
Proof.
  intros Hflag. rewrite !get_of_chain. simpl.
  rewrite !bool_decide_eq_false_2;
    [|intros Hin; apply Hflag, elem_of_app; by left|done].
  apply (fmap_sublist Build_BuildResponse). rewrite flat_map_app.
  rewrite (filter_ext _ (λ x, accepted (flat_map registered calls) x
                              && accepted (flat_map registered more) x))
    by (intros x; apply accepted_app).
  rewrite <- filter_twice. apply filter_sublist.
Qed.

End Laws.

(** Both orders of two calls on [three_builds]. *)
Lemma get_call_order_witness :
  get (Transactions.chain String.eqb three_builds
         [WithLastBuildOnly; WithStatus ["SUCCESS"]])
  = get (Transactions.chain String.eqb three_builds
           [WithStatus ["SUCCESS"]; WithLastBuildOnly]).
Proof.
  apply (get_call_order String.eqb three_builds
           [WithLastBuildOnly; WithStatus ["SUCCESS"]]
           [WithStatus ["SUCCESS"]; WithLastBuildOnly]).
  apply perm_swap.
Defined.

(** [with_uuid()] without a pattern. *)
Lemma get_no_pattern_witness :
  get (Transactions.chain String.eqb three_builds
         [WithStatus ["SUCCESS"]; WithUuid []]) = [].
Proof.
  apply (get_no_pattern String.eqb three_builds
           [WithStatus ["SUCCESS"]; WithUuid []] (WithUuid [])).
  - apply list_elem_of_further, list_elem_of_here.
  - done.
  - reflexivity.
Defined.

(** The newest successful build of [three_builds] comes after a failed
    one. *)
Lemma get_first_passing_witness :
  ∃ pre post,
    job_builds three_builds
    = pre ++ {| build_uuid := "2"; build_result := "SUCCESS";
                build_project := "p"; build_pipeline := "check" |} :: post
    ∧ (∀ c, c ∈ [WithLastBuildOnly; WithStatus ["SUCCESS"]] →
            passes String.eqb c
              {| build_uuid := "2"; build_result := "SUCCESS";
                 build_project := "p"; build_pipeline := "check" |})
    ∧ ∀ earlier, earlier ∈ pre →
        ¬ ∀ c, c ∈ [WithLastBuildOnly; WithStatus ["SUCCESS"]] →
               passes String.eqb c earlier.
Proof.
  apply (proj1 (get_first_passing String.eqb three_builds
                  [WithLastBuildOnly; WithStatus ["SUCCESS"]]
                  {| build_uuid := "2"; build_result := "SUCCESS";
                     build_project := "p"; build_pipeline := "check" |}
                  (list_elem_of_here _ _))).
  reflexivity.
Defined.

(** Adding a filter on the pipeline to a filter on the status. *)
Lemma get_narrows_witness :
  sublist
    (get (Transactions.chain String.eqb three_builds
            ([WithStatus ["SUCCESS"]] ++ [WithPipeline ["gate"]])))
    (get (Transactions.chain String.eqb three_builds
            [WithStatus ["SUCCESS"]])).
Proof.
  apply (get_narrows String.eqb three_builds
           [WithStatus ["SUCCESS"]] [WithPipeline ["gate"]]).
  intros Hin. repeat (apply elem_of_cons in Hin as [[=]|Hin]).
  by apply elem_of_nil in Hin.
Defined.

(** With [with_last_build_only] a further call can change the answer to a
    build that was not in it: the requirement of X7 is needed. *)
Example last_build_not_narrowed :
  get (Transactions.chain String.eqb three_builds [WithLastBuildOnly])
  = [ {| _build := {| build_uuid := "3"; build_result := "FAILURE";
                      build_project := "p"; build_pipeline := "check" |} |} ]
  ∧ get (Transactions.chain String.eqb three_builds
           [WithLastBuildOnly; WithStatus ["SUCCESS"]])
    = [ {| _build := {| build_uuid := "2"; build_result := "SUCCESS";
                        build_project := "p"; build_pipeline := "check" |} |} ].
Proof. split; reflexivity. Qed.

(** A build of [three_builds] that matches the status and one of two
    pipelines is in the answer. *)
Lemma get_any_pattern_every_call_witness :
  {| _build := {| build_uuid := "1"; build_result := "SUCCESS";
                  build_project := "p"; build_pipeline := "gate" |} |}
  ∈ get (Transactions.chain String.eqb three_builds
           [WithStatus ["SUCCESS"]; WithPipeline ["periodic"; "gate"]]).
Proof.
  apply (proj2 (get_any_pattern_every_call String.eqb three_builds
                  [WithStatus ["SUCCESS"]; WithPipeline ["periodic"; "gate"]]
                  {| build_uuid := "1"; build_result := "SUCCESS";
                     build_project := "p"; build_pipeline := "gate" |})).
  - intros Hin. repeat (apply elem_of_cons in Hin as [[=]|Hin]).
    by apply elem_of_nil in Hin.
  - do 2 apply list_elem_of_further. apply list_elem_of_here.
  - intros c Hc. right.
    apply elem_of_cons in Hc as [->|Hc];
      [|apply list_elem_of_singleton in Hc as ->].
    + exists "SUCCESS". split; [apply list_elem_of_here|reflexivity].
    + exists "gate". split; [|reflexivity].
      apply list_elem_of_further, list_elem_of_here.
Defined.

End BuildsLaws.

(** ** Laws of the variable search *)

Module SearchLaws.
Import Transactions Variants VariantsSpec.

Lemma search_in_app terms more (vars : gmap string value) :
  search_in (terms ++ more) vars
  = match first_match terms vars with
    | Some _ => search_in terms vars
    | None => search_in more vars
    end.
Proof.
  unfold first_match. induction terms as [|term terms IH]; [done|]. simpl.
  case_bool_decide as Hsome.
  - destruct Hsome as [found Hfound]. by rewrite Hfound.
  - apply eq_None_not_Some in Hsome. by rewrite Hsome.
Qed.

(** X8. A search never makes a value up: its answer is [None] or the
    value that the variables of the variant bind to one of the search
    terms. *)
Theorem search_answers_bound_value (self : VariableSearch)
    (variant : VariantResponse) :
  search self variant = VNone
  ∨ ∃ term, term ∈ search_terms self
            ∧ variables variant true !! term = Some (search self variant).
Proof.
  unfold search.
  pose proof (first_match_search_in (search_terms self)
                (variables variant true)) as H.
  destruct (first_match _ _) as [term|] eqn:Hfirst.
  - right. exists term. split; [|done].
    apply find_some in Hfirst as [Hin _]. by apply list_elem_of_In.
  - left. by destruct H.
Qed.

(** X9. Search terms appended to a list are a fallback: the search over
    [terms ++ more] answers what the search over [terms] answers when one
    of [terms] is bound, and what the search over [more] answers when
    none is. *)
Theorem search_falls_back (terms more : list string)
    (variant : VariantResponse) :
  search {| search_terms := terms ++ more |} variant
  = if bool_decide (Exists (λ term, is_Some (variables variant true !! term))
                      terms)
    then search {| search_terms := terms |} variant
    else search {| search_terms := more |} variant.
Proof.
  unfold search. simpl. rewrite search_in_app.
  pose proof (first_match_search_in terms (variables variant true)) as H.
  destruct (first_match terms _) as [term|] eqn:Hfirst.
  - rewrite bool_decide_eq_true_2; [done|].
    apply Exists_exists. exists term. split; [|by eexists].
    by apply find_some in Hfirst as [Hin _].
  - rewrite bool_decide_eq_false_2; [done|].
    intros (term & Hin & [found Hfound])%Exists_exists.
    apply list_elem_of_In in Hin.
    destruct H as [Hnone _]. by rewrite (Hnone term Hin) in Hfound.
Qed.

(** X10. A search reads the variables named by its search terms and no
    others: two variants whose recursively gathered variables agree on
    every search term get the same answer. *)
Theorem search_reads_its_terms (self : VariableSearch)
    (variant variant' : VariantResponse) :
  (∀ term, term ∈ search_terms self →
           variables variant true !! term = variables variant' true !! term) →
  search self variant = search self variant'.
Proof.
  unfold search. generalize (variables variant true) (variables variant' true).
  intros vars vars'. induction (search_terms self) as [|term terms IH];
    intros Hagree; [done|]. simpl.
  rewrite <- (Hagree term) by apply list_elem_of_here.
  destruct (vars !! term); [done|].
  apply IH. intros t Ht. apply Hagree. by apply list_elem_of_further.
Qed.

(** Two variants that differ in a variable that is not searched for. *)
Lemma search_reads_its_terms_witness :
  search {| search_terms := DEFAULT_SEARCH_TERMS |}
    {| _variant := {| variant_name := "v";
                      variant_variables := λ _,
                        {[ "release" := VStr "17.0" ]} |} |}
  = search {| search_terms := DEFAULT_SEARCH_TERMS |}
      {| _variant := {| variant_name := "w";
                        variant_variables := λ _,
                          {[ "release" := VStr "17.0";
                             "featureset" := VInt 1 ]} |} |}.
Proof.
  apply search_reads_its_terms.
  intros term Hin. simpl in Hin.
  repeat (apply elem_of_cons in Hin as [->|Hin]); try reflexivity.
  by apply elem_of_nil in Hin.
Defined.

End SearchLaws.

(** ** The outcomes of a validation *)

Module ValidationOutcome.
Import Validation ValidationSpec.

(** The six ways a run of [validate_environments] ends, each with the
    state it leaves. *)
Inductive outcome (ci_args : gmap string Argument) (envs : list ref)
    (σ : state) : (exception + list ref) * state → Prop :=
| absent_environment name :
    first_absent (all_env_names σ envs) (requested ci_args "env_name")
    = Some name →
    outcome ci_args envs σ
      (inl (InvalidEnvironment name (all_env_names σ envs)), σ)
| absent_system name :
    first_absent (all_env_names σ envs) (requested ci_args "env_name")
    = None →
    first_absent (all_system_names σ envs) (requested ci_args "systems")
    = Some name →
    outcome ci_args envs σ
      (inl (InvalidSystem name (all_system_names σ envs)), σ)
| no_valid_system user_envs σ1 :
    input_checks ci_args envs σ
    = (inr (all_system_names σ envs, all_systems σ envs), σ) →
    consistency_stage ci_args envs σ = (inr (user_envs, []), σ1) →
    outcome ci_args envs σ
      (inl (NoValidSystem (all_system_names σ envs)), σ1)
| no_enabled_system envs1 systems1 σ1 σ1' user_envs σ2 :
    input_checks ci_args envs σ
    = (inr (all_system_names σ envs, all_systems σ envs), σ) →
    consistency_stage ci_args envs σ = (inr (envs1, systems1), σ1) →
    systems1 ≠ [] →
    override_enabled_systems ci_args systems1 σ1 = (inr tt, σ1') →
    enabled_stage envs1 σ1' = (inr (user_envs, []), σ2) →
    outcome ci_args envs σ (inl NoEnabledSystem, σ2)
| no_valid_sources envs2 systems2 σ2 user_envs σ3 :
    reaches_sources ci_args envs σ envs2 systems2 σ2 →
    sources_stage ci_args envs2 σ2 = (inr (user_envs, []), σ3) →
    outcome ci_args envs σ
      (inl (NoValidSources (all_source_names σ envs)), σ3)
| validated envs2 systems2 σ2 user_envs user_systems σ3 :
    reaches_sources ci_args envs σ envs2 systems2 σ2 →
    sources_stage ci_args envs2 σ2 = (inr (user_envs, user_systems), σ3) →
    user_systems ≠ [] →
    outcome ci_args envs σ (inr user_envs, σ3).

(** Each stage answers, whatever the state. *)
Lemma consistency_stage_answers ci_args envs σ :
  ∃ user_envs user_systems σ1,
    consistency_stage ci_args envs σ = (inr (user_envs, user_systems), σ1).
Proof.
  destruct (check_envs_run _ _ _ _ msg_system_inconsistent
              msg_env_inconsistent σ (consistency_c_run ci_args σ)
              (consistency_ce_run ci_args σ) envs) as (σ1 & Hrun & _).
  by eexists _, _, σ1.
Qed.

Lemma enabled_stage_answers envs σ :
  ∃ user_envs user_systems σ2,
    enabled_stage envs σ = (inr (user_envs, user_systems), σ2).
Proof.
  destruct (check_envs_run _ _ _ _ msg_system_disabled "" σ
              (enabled_c_run σ) (always_ce_run σ) envs) as (σ2 & Hrun & _).
  by eexists _, _, σ2.
Qed.

Lemma sources_stage_answers ci_args envs σ :
  ∃ user_envs user_systems σ3,
    sources_stage ci_args envs σ = (inr (user_envs, user_systems), σ3).
Proof.
  destruct (check_envs_run _ _ _ _ msg_system_no_sources "" σ
              (sources_c_run ci_args σ) (always_ce_run σ) envs)
    as (σ3 & Hrun & _).
  by eexists _, _, σ3.
Qed.

(** On arguments that hold lists, a run ends in one of the six ways,
    decided by the first stage that fails. *)
Lemma validate_environments_cases (ci_args : gmap string Argument)
    (envs : list ref) (σ : state) :
  outcome ci_args envs σ (validate_environments ci_args envs σ).
Proof.
  rewrite validate_environments_stages.
  pose proof (input_checks_run ci_args envs σ) as Hinput.
  destruct (first_absent (all_env_names σ envs) (requested ci_args "env_name"))
    as [name|] eqn:Henvs.
  { rewrite (bind_raises _ _ _ _ _ Hinput). by apply absent_environment. }
  destruct (first_absent (all_system_names σ envs) (requested ci_args "systems"))
    as [name|] eqn:Hsystems.
  { rewrite (bind_raises _ _ _ _ _ Hinput). by apply absent_system. }
  rewrite (bind_returns _ _ _ _ _ Hinput). simpl.
  destruct (consistency_stage_answers ci_args envs σ)
    as (envs1 & systems1 & σ1 & Hrun1).
  rewrite (bind_returns _ _ _ _ _ Hrun1). simpl.
  destruct systems1 as [|s1 rest1]; [by eapply no_valid_system|].
  destruct (override_enabled_systems_run ci_args (s1 :: rest1) σ1)
    as (σ1' & Hover & _).
  rewrite (bind_returns _ _ _ _ _ Hover).
  destruct (enabled_stage_answers envs1 σ1') as (envs2 & systems2 & σ2 & Hrun2).
  rewrite (bind_returns _ _ _ _ _ Hrun2). simpl.
  destruct systems2 as [|s2 rest2]; [by eapply no_enabled_system|].
  assert (Hreach : reaches_sources ci_args envs σ envs2 (s2 :: rest2) σ2).
  { split; [by apply first_absent_None_inv|].
    split; [by apply first_absent_None_inv|].
    exists envs1, (s1 :: rest1), σ1, σ1'. by repeat split. }
  destruct (sources_stage_answers ci_args envs2 σ2)
    as (envs3 & systems3 & σ3 & Hrun3).
  rewrite (bind_returns _ _ _ _ _ Hrun3). simpl.
  destruct systems3 as [|s3 rest3].
  - rewrite (bind_returns _ _ _ _ _ (source_names_run _ σ3)).
    assert (Hnames : flat_map (names_of_sources σ3) (all_systems σ envs)
                     = all_source_names σ envs).
    { apply flat_map_ext. intros system. apply names_of_sources_same_shape.
      destruct (reaches_sources_result _ _ _ _ _ _ Hreach) as (Hshape & _).
      eapply same_shape_trans; [exact Hshape|]. apply steady_same_shape.
      by destruct (check_envs_result _ _ _ _ _ _ σ2 (sources_c_run ci_args σ2)
                     (always_ce_run σ2) envs2 _ _ _ Hrun3) as (_ & _ & ? & _). }
    unfold raise. rewrite Hnames. by eapply no_valid_sources.
  - by eapply validated.
Qed.

(** *** What no run does *)

(** From [σ] to [σ']: no system or source has changed its name, no system
    has changed its type or its sources, no environment has changed its
    name or gained a system, no source has been enabled, no system has
    been disabled, and no debug record is gone. *)
Record evolves (σ σ' : state) : Prop := {
  evolves_shape : same_shape σ σ';
  evolves_system_type :
    ∀ r, system_type (systems σ' r) = system_type (systems σ r);
  evolves_env_name :
    ∀ e, env_name (environments σ' e) = env_name (environments σ e);
  evolves_env_systems :
    ∀ e, sublist (env_systems (environments σ' e))
                 (env_systems (environments σ e));
  evolves_sources :
    ∀ r, source_enabled (sources σ r) = false →
         source_enabled (sources σ' r) = false;
  evolves_systems :
    ∀ r, system_enabled (systems σ r) = true →
         system_enabled (systems σ' r) = true;
  evolves_log : ∀ entry, entry ∈ debug_log σ → entry ∈ debug_log σ'
}.

Lemma evolves_refl σ : evolves σ σ.
Proof. constructor; try done; by constructor. Qed.

Lemma evolves_trans σ1 σ2 σ3 : evolves σ1 σ2 → evolves σ2 σ3 → evolves σ1 σ3.
Proof.
  intros [Hs Ht He Hl Hoff Hon Hlog] [Hs' Ht' He' Hl' Hoff' Hon' Hlog'].
  constructor; auto.
  - by eapply same_shape_trans.
  - intros r. by rewrite Ht', Ht.
  - intros e. by rewrite He', He.
  - intros e. etrans; [apply Hl'|apply Hl].
Qed.

Section StageEvolves.
Variables (c ce : ref → M bool) (p pe : ref → bool).
Variables (systems_msg envs_msg : string) (σ0 : state).

Hypothesis c_run : ∀ σ system,
  steady σ0 σ →
  ∃ σ', c system σ = (inr (p system), σ')
        ∧ steady σ σ' ∧ environments σ' = environments σ.

Hypothesis ce_run : ∀ σ env,
  steady σ0 σ → ce env σ = (inr (pe env), σ).

Lemma stage_evolves envs r σ' :
  check_envs envs c ce systems_msg envs_msg σ0 = (r, σ') → evolves σ0 σ'.
Proof.
  intros Hrun.
  destruct (check_envs_run c ce p pe systems_msg envs_msg σ0 c_run ce_run envs)
    as (σ'' & Hrun' & Hst & Hkept & Hrest & _).
  rewrite Hrun in Hrun'. injection Hrun' as _ <-.
  destruct Hst as [Hs Hn Hd He Hl].
  constructor; try done.
  - constructor; intros r'; by rewrite ?Hs, ?Hn.
  - intros r'. by rewrite Hs.
  - intros e.
    destruct (decide (e ∈ envs ∧ kept p pe σ0 e = true)) as [[Hin Hk]|Hno].
    + rewrite (Hkept e Hin Hk). apply FilteringSpec.filter_sublist.
    + by rewrite (Hrest e Hno).
  - intros r' Hon. by rewrite Hs.
Qed.

End StageEvolves.

Lemma override_evolves ci_args user_systems σ σ' :
  override_enabled_systems ci_args user_systems σ = (inr tt, σ') →
  evolves σ σ'.
Proof.
  intros Hrun.
  destruct (override_enabled_systems_run ci_args user_systems σ)
    as (σ'' & Hrun' & He & Hsrc & Hl & Hsys).
  rewrite Hrun in Hrun'. injection Hrun' as <-.
  constructor.
  - constructor; intros r; rewrite ?Hsys, ?Hsrc; try done;
      by destruct (forced _ _ _ _).
  - intros r. rewrite Hsys. by destruct (forced _ _ _ _).
  - intros e. by rewrite He.
  - intros e. by rewrite He.
  - intros r. by rewrite Hsrc.
  - intros r Hon. rewrite Hsys. by destruct (forced _ _ _ _).
  - intros entry. by rewrite Hl.
Qed.

Lemma reaches_sources_evolves ci_args envs σ envs2 systems2 σ2 :
  reaches_sources ci_args envs σ envs2 systems2 σ2 → evolves σ σ2.
Proof.
  intros (_ & _ & envs1 & systems1 & σ1 & σ1' & Hrun1 & _ & Hover & Hrun2 & _).
  eapply evolves_trans;
    [exact (stage_evolves _ _ _ _ _ _ σ (consistency_c_run ci_args σ)
              (consistency_ce_run ci_args σ) _ _ _ Hrun1)|].
  eapply evolves_trans; [by eapply override_evolves|].
  exact (stage_evolves _ _ _ _ _ _ σ1' (enabled_c_run σ1')
           (always_ce_run σ1') _ _ _ Hrun2).
Qed.

(** X12. Whatever its outcome, a run of [validate_environments] renames
    nothing, changes the type and the sources of no system, adds no
    system to an environment, enables no source that was disabled,
    disables no system that was enabled and drops no debug record. *)
Theorem validate_environments_evolves (ci_args : gmap string Argument)
    (envs : list ref) (σ : state) :
  evolves σ (validate_environments ci_args envs σ).2.
Proof.
  destruct (validate_environments_cases ci_args envs σ)
    as [name Habsent|name Henvs Habsent|user_envs σ1 Hinput Hrun1
        |envs1 systems1 σ1 σ1' user_envs σ2 Hinput Hrun1 Hsome Hover Hrun2
        |envs2 systems2 σ2 user_envs σ3 Hreach Hrun3
        |envs2 systems2 σ2 user_envs user_systems σ3 Hreach Hrun3 Hsome];
    simpl.
  - apply evolves_refl.
  - apply evolves_refl.
  - exact (stage_evolves _ _ _ _ _ _ σ (consistency_c_run ci_args σ)
             (consistency_ce_run ci_args σ) _ _ _ Hrun1).
  - eapply evolves_trans;
      [exact (stage_evolves _ _ _ _ _ _ σ (consistency_c_run ci_args σ)
                (consistency_ce_run ci_args σ) _ _ _ Hrun1)|].
    eapply evolves_trans; [by eapply override_evolves|].
    exact (stage_evolves _ _ _ _ _ _ σ1' (enabled_c_run σ1')
             (always_ce_run σ1') _ _ _ Hrun2).
  - eapply evolves_trans; [by eapply reaches_sources_evolves|].
    exact (stage_evolves _ _ _ _ _ _ σ2 (sources_c_run ci_args σ2)
             (always_ce_run σ2) _ _ _ Hrun3).
  - eapply evolves_trans; [by eapply reaches_sources_evolves|].
    exact (stage_evolves _ _ _ _ _ _ σ2 (sources_c_run ci_args σ2)
             (always_ce_run σ2) _ _ _ Hrun3).
Qed.

(** *** What a successful run answers *)

Lemma elem_of_filter_bool {A : Type} (f : A → bool) (l : list A) (x : A) :
  x ∈ List.filter f l ↔ x ∈ l ∧ f x = true.
Proof. by rewrite list_elem_of_In, filter_In, <- list_elem_of_In. Qed.

Lemma has_requested_source_same_shape ci_args σ σ' system :
  same_shape σ σ' →
  has_requested_source ci_args σ' system = has_requested_source ci_args σ system.
Proof.
  intros H. unfold has_requested_source.
  by rewrite (names_of_sources_same_shape _ _ _ H).
Qed.

(** A system fits the arguments: it passes the type/name check, it is
    enabled in the state [σ'], and one of its sources has a requested
    name. *)
Definition fits (ci_args : gmap string Argument) (σ σ' : state)
    (system : ref) : Prop :=
  _consistent_system ci_args system σ = (inr true, σ)
  ∧ system_enabled (systems σ' system) = true
  ∧ has_requested_source ci_args σ system = true.

(** X13. When [validate_environments] answers environments, they are, in
    the order of the input, exactly the environments that pass the
    environment check and hold a system that fits the arguments, and in
    the state left each of them holds exactly its systems that fit. *)
Theorem validated_environments (ci_args : gmap string Argument)
    (envs user_envs : list ref) (σ σ' : state) :
  validate_environments ci_args envs σ = (inr user_envs, σ') →
  sublist user_envs envs
  ∧ (∀ env,
       env ∈ user_envs ↔
       env ∈ envs
       ∧ _consistent_environment ci_args env σ = (inr true, σ)
       ∧ ∃ system, system ∈ env_systems (environments σ env)
                   ∧ fits ci_args σ σ' system)
  ∧ (∀ env system,
       env ∈ user_envs →
       system ∈ env_systems (environments σ' env) ↔
       system ∈ env_systems (environments σ env)
       ∧ fits ci_args σ σ' system).
Proof.
  intros Hrun.
  pose proof (validate_environments_cases ci_args envs σ) as Hout.
  rewrite Hrun in Hout.
  inversion Hout
    as [| | | | |envs2 systems2 σ2 ue us σ3 Hreach Hrun3 Hsome Hue]; subst.
  destruct (reaches_sources_result _ _ _ _ _ _ Hreach) as (Hshape & _).
  destruct Hreach
    as (_ & _ & envs1 & systems1 & σ1 & σ1' & Hrun1 & _ & Hover & Hrun2 & _).
  set (p1 := passes_consistency ci_args σ).
  set (pe1 := passes_environment ci_args σ).
  set (p2 := is_enabled_in σ1').
  set (p3 := has_requested_source ci_args σ2).
  destruct (check_envs_result _ _ p1 pe1 _ _ σ (consistency_c_run ci_args σ)
              (consistency_ce_run ci_args σ) envs _ _ _ Hrun1)
    as (Hue1 & _ & Hst1 & Hsys1 & _).
  destruct (override_enabled_systems_run ci_args systems1 σ1)
    as (σ'' & Hover' & Henv1' & _).
  rewrite Hover in Hover'. injection Hover' as <-.
  destruct (check_envs_result _ _ p2 always _ _ σ1' (enabled_c_run σ1')
              (always_ce_run σ1') envs1 _ _ _ Hrun2)
    as (Hue2 & _ & Hst2 & Hsys2 & _).
  destruct (check_envs_result _ _ p3 always _ _ σ2 (sources_c_run ci_args σ2)
              (always_ce_run σ2) envs2 _ _ _ Hrun3)
    as (Hue3 & _ & Hst3 & Hsys3 & _).
  assert (Hfits : ∀ system,
            fits ci_args σ σ' system
            ↔ p1 system = true ∧ p2 system = true ∧ p3 system = true).
  { intros system. unfold fits, p1, p2, p3, is_enabled_in.
    rewrite _consistent_system_passes.
    rewrite (has_requested_source_same_shape _ _ _ _ Hshape).
    by rewrite (steady_systems _ _ Hst3), (steady_systems _ _ Hst2). }
  assert (Hin1 : ∀ env, env ∈ envs1 →
            env_systems (environments σ1' env)
            = List.filter p1 (env_systems (environments σ env))).
  { intros env Hin. rewrite Henv1'. by apply Hsys1. }
  assert (Hin2 : ∀ env, env ∈ envs2 →
            env_systems (environments σ2 env)
            = List.filter p2 (List.filter p1 (env_systems (environments σ env)))).
  { intros env Hin. rewrite (Hsys2 env Hin). unfold survivors, original.
    rewrite Hin1; [done|].
    rewrite Hue2 in Hin. by apply elem_of_filter_bool in Hin as [? _]. }
  assert (Hin3 : ∀ env, env ∈ user_envs →
            env_systems (environments σ' env)
            = List.filter p3
                (List.filter p2
                   (List.filter p1 (env_systems (environments σ env))))).
  { intros env Hin. rewrite (Hsys3 env Hin). unfold survivors, original.
    rewrite Hin2; [done|].
    rewrite Hue3 in Hin. by apply elem_of_filter_bool in Hin as [? _]. }
  split; [|split].
  - rewrite Hue3, Hue2, Hue1.
    etrans; [apply FilteringSpec.filter_sublist|].
    etrans; apply FilteringSpec.filter_sublist.
  - intros env. setoid_rewrite Hfits.
    rewrite _consistent_environment_passes. fold (pe1 env). split.
    + intros Hin3'. pose proof Hin3' as Hin.
      rewrite Hue3 in Hin. apply elem_of_kept in Hin as (Hin2' & _ & s & Hs & Hp3).
      pose proof Hin2' as Hin.
      rewrite Hue2 in Hin. apply elem_of_kept in Hin as (Hin1' & _ & _).
      pose proof Hin1' as Hin.
      rewrite Hue1 in Hin. apply elem_of_kept in Hin as (Hin0 & Hpe & _).
      split; [done|]. split; [done|]. exists s.
      unfold original in Hs. rewrite (Hin2 env Hin2') in Hs.
      apply elem_of_filter_bool in Hs as [Hs Hp2].
      apply elem_of_filter_bool in Hs as [Hs Hp1]. done.
    + intros (Hin0 & Hpe & s & Hs & Hp1 & Hp2 & Hp3).
      assert (Hin1' : env ∈ envs1).
      { rewrite Hue1. apply elem_of_kept. split; [done|]. split; [done|].
        by exists s. }
      assert (Hin2' : env ∈ envs2).
      { rewrite Hue2. apply elem_of_kept. split; [done|]. split; [done|].
        exists s. split; [|done]. unfold original. rewrite (Hin1 env Hin1').
        by apply elem_of_filter_bool. }
      rewrite Hue3. apply elem_of_kept. split; [done|]. split; [done|].
      exists s. split; [|done]. unfold original. rewrite (Hin2 env Hin2').
      apply elem_of_filter_bool. split; [|done]. by apply elem_of_filter_bool.
  - intros env system Hin. rewrite (Hin3 env Hin), Hfits.
    rewrite !elem_of_filter_bool. tauto.
Qed.

Definition only_zuul : gmap string Argument :=
  {[ "system_type" := an_argument ["zuul"] ]}.

Lemma only_zuul_validates :
  validate_environments only_zuul [0; 1] a_configuration
  = (inr [1], (validate_environments only_zuul [0; 1] a_configuration).2).
Proof. vm_compute. reflexivity. Qed.

(** With [system_type] set to [zuul], of the two environments of
    [a_configuration] the one with the enabled zuul system is answered,
    and it holds the systems that fit. *)
Lemma validated_environments_witness :
  2 ∈ env_systems
        (environments
           (validate_environments only_zuul [0; 1] a_configuration).2 1)
  ↔ 2 ∈ env_systems (environments a_configuration 1)
    ∧ fits only_zuul a_configuration
        (validate_environments only_zuul [0; 1] a_configuration).2 2.
Proof.
  apply (proj2 (proj2 (validated_environments only_zuul [0; 1] [1]
                         a_configuration _ only_zuul_validates)) 1 2).
  apply list_elem_of_here.
Defined.

(** *** What a run leaves untouched *)

Section Kept.
Variable Q : state → Prop.
Variables c ce : ref → M bool.
Variables systems_msg envs_msg : string.

Hypothesis c_keeps : ∀ system σ, Q σ → Q (c system σ).2.
Hypothesis ce_keeps : ∀ env σ, Q σ → Q (ce env σ).2.
Hypothesis log_keeps : ∀ msg name σ, Q σ → Q (LOG_debug msg name σ).2.
Hypothesis set_keeps : ∀ env l σ, Q σ → Q (set_systems env l σ).2.

Lemma check_systems_keeps todo acc σ :
  Q σ → Q (check_systems c systems_msg todo acc σ).2.
Proof.
  revert acc σ. induction todo as [|system rest IH]; intros acc σ HQ; [done|].
  simpl. unfold mbind, M_bind, bind.
  pose proof (c_keeps system σ HQ) as H1.
  destruct (c system σ) as [[e|[|]] σ1]; simpl in *; [done|by apply IH|].
  apply IH. by apply log_keeps.
Qed.

Lemma check_envs_loop_keeps todo user_envs user_systems σ :
  Q σ →
  Q (check_envs_loop c ce systems_msg envs_msg todo user_envs user_systems σ).2.
Proof.
  revert user_envs user_systems σ.
  induction todo as [|env rest IH]; intros user_envs user_systems σ HQ; [done|].
  simpl. unfold mbind, M_bind, bind.
  pose proof (ce_keeps env σ HQ) as H1.
  destruct (ce env σ) as [[e|[|]] σ1]; simpl in *; [done| |].
  - pose proof (check_systems_keeps (env_systems (environments σ1 env)) [] σ1 H1)
      as H2.
    destruct (check_systems _ _ _ _ σ1) as [[e|[|s l]] σ2]; simpl in *;
      [done|by apply IH|].
    apply IH. by apply set_keeps.
  - apply IH. by apply log_keeps.
Qed.

Lemma check_envs_keeps envs σ :
  Q σ → Q (check_envs envs c ce systems_msg envs_msg σ).2.
Proof. apply check_envs_loop_keeps. Qed.

End Kept.

Lemma override_without_names ci_args user_systems σ :
  requested ci_args "systems" = [] →
  override_enabled_systems ci_args user_systems σ = (inr tt, σ).
Proof.
  unfold requested, override_enabled_systems.
  destruct (ci_args !! "systems") as [argument|]; [|done]. by intros ->.
Qed.

Lemma sources_check_without_argument ci_args system σ :
  ci_args !! "sources" = None →
  _system_has_valid_sources ci_args system σ = (inr true, σ).
Proof.
  intros Hnone. unfold _system_has_valid_sources.
  rewrite !gets_bind. by rewrite Hnone.
Qed.

(** X14. The flags change only on request: a run without a [sources]
    argument leaves every source as it was, and a run whose [systems]
    argument is absent or empty leaves every system as it was, whatever
    the outcome of the run. *)
Theorem flags_change_on_request (ci_args : gmap string Argument)
    (envs : list ref) (σ : state) :
  (ci_args !! "sources" = None →
   sources (validate_environments ci_args envs σ).2 = sources σ)
  ∧ (requested ci_args "systems" = [] →
     systems (validate_environments ci_args envs σ).2 = systems σ).
Proof.
  assert (Hstage1 : ∀ (Q : state → Prop),
            (∀ msg name σ', Q σ' → Q (LOG_debug msg name σ').2) →
            (∀ env l σ', Q σ' → Q (set_systems env l σ').2) →
            Q σ → Q (consistency_stage ci_args envs σ).2).
  { intros Q Hlog Hset HQ. unfold consistency_stage.
    apply check_envs_keeps; try done.
    - intros system σ' HQ'. by rewrite _consistent_system_run.
    - intros env σ' HQ'. by rewrite _consistent_environment_run. }
  assert (Hstage2 : ∀ (Q : state → Prop) envs1 σ1,
            (∀ msg name σ', Q σ' → Q (LOG_debug msg name σ').2) →
            (∀ env l σ', Q σ' → Q (set_systems env l σ').2) →
            Q σ1 → Q (enabled_stage envs1 σ1).2).
  { intros Q envs1 σ1 Hlog Hset HQ. unfold enabled_stage.
    by apply check_envs_keeps. }
  split.
  - intros Hnone.
    set (Q := λ σ' : state, sources σ' = sources σ).
    assert (Hlog : ∀ msg name σ', Q σ' → Q (LOG_debug msg name σ').2) by done.
    assert (Hset : ∀ env l σ', Q σ' → Q (set_systems env l σ').2) by done.
    assert (Hstage3 : ∀ envs2 σ2, Q σ2 → Q (sources_stage ci_args envs2 σ2).2).
    { intros envs2 σ2 HQ. unfold sources_stage.
      apply check_envs_keeps; try done.
      intros system σ' HQ'. by rewrite sources_check_without_argument. }
    assert (Hreach : ∀ envs2 systems2 σ2,
              reaches_sources ci_args envs σ envs2 systems2 σ2 → Q σ2).
    { intros envs2 systems2 σ2
        (_ & _ & envs1 & systems1 & σ1 & σ1' & Hrun1 & _ & Hover & Hrun2 & _).
      pose proof (Hstage1 Q Hlog Hset eq_refl) as H1. rewrite Hrun1 in H1.
      destruct (override_enabled_systems_run ci_args systems1 σ1)
        as (σ'' & Hover' & _ & Hsrc & _).
      rewrite Hover in Hover'. injection Hover' as <-.
      assert (H1' : Q σ1') by (unfold Q; by rewrite Hsrc).
      pose proof (Hstage2 Q envs1 σ1' Hlog Hset H1') as H2.
      by rewrite Hrun2 in H2. }
    destruct (validate_environments_cases ci_args envs σ)
      as [name Habsent|name Henvs Habsent|user_envs σ1 Hinput Hrun1
          |envs1 systems1 σ1 σ1' user_envs σ2 Hinput Hrun1 Hsome Hover Hrun2
          |envs2 systems2 σ2 user_envs σ3 Hreach' Hrun3
          |envs2 systems2 σ2 user_envs user_systems σ3 Hreach' Hrun3 Hsome];
      simpl; try done.
    + pose proof (Hstage1 Q Hlog Hset eq_refl) as H1. by rewrite Hrun1 in H1.
    + pose proof (Hstage1 Q Hlog Hset eq_refl) as H1. rewrite Hrun1 in H1.
      destruct (override_enabled_systems_run ci_args systems1 σ1)
        as (σ'' & Hover' & _ & Hsrc & _).
      rewrite Hover in Hover'. injection Hover' as <-.
      assert (H1' : Q σ1') by (unfold Q; by rewrite Hsrc).
      pose proof (Hstage2 Q envs1 σ1' Hlog Hset H1') as H2.
      by rewrite Hrun2 in H2.
    + pose proof (Hstage3 envs2 σ2 (Hreach _ _ _ Hreach')) as H3.
      by rewrite Hrun3 in H3.
    + pose proof (Hstage3 envs2 σ2 (Hreach _ _ _ Hreach')) as H3.
      by rewrite Hrun3 in H3.
  - intros Hnone.
    set (Q := λ σ' : state, systems σ' = systems σ).
    assert (Hlog : ∀ msg name σ', Q σ' → Q (LOG_debug msg name σ').2) by done.
    assert (Hset : ∀ env l σ', Q σ' → Q (set_systems env l σ').2) by done.
    assert (Hdisable : ∀ unused srcs σ',
              Q σ' → Q (disable_unused unused srcs σ').2).
    { intros unused srcs. induction srcs as [|source rest IH]; intros σ' HQ;
        [done|].
      simpl. rewrite gets_bind. unfold mbind, M_bind, bind.
      case_bool_decide; simpl; by apply IH. }
    assert (Hstage3 : ∀ envs2 σ2, Q σ2 → Q (sources_stage ci_args envs2 σ2).2).
    { intros envs2 σ2 HQ. unfold sources_stage.
      apply check_envs_keeps; try done.
      intros system σ' HQ'. unfold _system_has_valid_sources.
      rewrite !gets_bind.
      destruct (ci_args !! "sources") as [argument|]; [|done].
      unfold mbind, M_bind, bind.
      pose proof (Hdisable
                    (list_to_set
                       (map (λ source, source_name (sources σ' source))
                          (system_sources (systems σ' system)))
                     ∖ list_to_set (value argument))
                    (system_sources (systems σ' system)) σ' HQ') as Hd.
      destruct (disable_unused _ _ σ') as [[e|[]] σ3]; simpl in *; [done|].
      by case_bool_decide. }
    assert (Hreach : ∀ envs2 systems2 σ2,
              reaches_sources ci_args envs σ envs2 systems2 σ2 → Q σ2).
    { intros envs2 systems2 σ2
        (_ & _ & envs1 & systems1 & σ1 & σ1' & Hrun1 & _ & Hover & Hrun2 & _).
      pose proof (Hstage1 Q Hlog Hset eq_refl) as H1. rewrite Hrun1 in H1.
      rewrite (override_without_names _ _ _ Hnone) in Hover.
      injection Hover as <-.
      pose proof (Hstage2 Q envs1 σ1 Hlog Hset H1) as H2.
      by rewrite Hrun2 in H2. }
    destruct (validate_environments_cases ci_args envs σ)
      as [name Habsent|name Henvs Habsent|user_envs σ1 Hinput Hrun1
          |envs1 systems1 σ1 σ1' user_envs σ2 Hinput Hrun1 Hsome Hover Hrun2
          |envs2 systems2 σ2 user_envs σ3 Hreach' Hrun3
          |envs2 systems2 σ2 user_envs user_systems σ3 Hreach' Hrun3 Hsome];
      simpl; try done.
    + pose proof (Hstage1 Q Hlog Hset eq_refl) as H1. by rewrite Hrun1 in H1.
    + pose proof (Hstage1 Q Hlog Hset eq_refl) as H1. rewrite Hrun1 in H1.
      rewrite (override_without_names _ _ _ Hnone) in Hover.
      injection Hover as <-.
      pose proof (Hstage2 Q envs1 σ1 Hlog Hset H1) as H2.
      by rewrite Hrun2 in H2.
    + pose proof (Hstage3 envs2 σ2 (Hreach _ _ _ Hreach')) as H3.
      by rewrite Hrun3 in H3.
    + pose proof (Hstage3 envs2 σ2 (Hreach _ _ _ Hreach')) as H3.
      by rewrite Hrun3 in H3.
Qed.

(** Without any argument the run on [a_configuration] reads the same
    sources afterwards. *)
Lemma flags_change_on_request_witness :
  sources (validate_environments ∅ [0; 1] a_configuration).2
  = sources a_configuration.
Proof.
  apply (proj1 (flags_change_on_request ∅ [0; 1] a_configuration)).
  reflexivity.
Defined.

End ValidationOutcome.

(** ** The outcomes of a validation whose arguments may hold [None] *)

Module ValidationNoneLaws.
Import Validation ValidationSpec ValidationOutcome.

(** *** Arguments that may hold [None] *)

(** The arguments as lists, for the arguments that hold one. *)
Definition listed (given : gmap string ValidationNone.GivenArgument)
    : gmap string Argument :=
  omap (λ argument,
          (λ names, {| value := names |})
            <$> ValidationNone.given_value argument) given.

(** None of the arguments the validator reads holds [None]. *)
Definition holds_lists (given : gmap string ValidationNone.GivenArgument)
    : Prop :=
  ∀ key argument,
    key ∈ ["env_name"; "systems"; "system_type"; "sources"] →
    given !! key = Some argument →
    ValidationNone.given_value argument ≠ None.

Lemma bind_ext {A B} (m m' : M A) (k k' : A → M B) σ :
  m σ = m' σ → (∀ a σ', k a σ' = k' a σ') →
  (m ≫= k) σ = (m' ≫= k') σ.
Proof.
  intros Hm Hk. unfold mbind, M_bind, bind. rewrite Hm.
  destruct (m' σ) as [[e|a] σ']; [done|apply Hk].
Qed.

Lemma check_systems_ext (c c' : ref → M bool) msg todo acc σ :
  (∀ system σ, c system σ = c' system σ) →
  check_systems c msg todo acc σ = check_systems c' msg todo acc σ.
Proof.
  intros Hc. revert acc σ. induction todo as [|system rest IH];
    intros acc σ; [done|].
  simpl. apply bind_ext; [apply Hc|]. intros ok σ'.
  destruct ok; simpl; [apply IH|].
  apply bind_ext; [done|]. intros name σ''.
  apply bind_ext; [done|]. intros _ σ3. apply IH.
Qed.

Lemma check_envs_ext (c c' ce ce' : ref → M bool) smsg emsg envs σ :
  (∀ system σ, c system σ = c' system σ) →
  (∀ env σ, ce env σ = ce' env σ) →
  check_envs envs c ce smsg emsg σ = check_envs envs c' ce' smsg emsg σ.
Proof.
  intros Hc Hce. unfold check_envs. generalize (@nil ref) at 1 3.
  generalize (@nil ref). revert σ.
  induction envs as [|env rest IH]; intros σ user_systems user_envs; [done|].
  simpl. apply bind_ext; [apply Hce|]. intros ok σ'.
  destruct ok; simpl.
  - apply bind_ext; [done|]. intros todo σ''.
    apply bind_ext; [by apply check_systems_ext|]. intros env_systems σ3.
    destruct env_systems; [apply IH|].
    apply bind_ext; [done|]. intros _ σ4. apply IH.
  - apply bind_ext; [done|]. intros name σ''.
    apply bind_ext; [done|]. intros _ σ3. apply IH.
Qed.

Section Lists.
Variable given : gmap string ValidationNone.GivenArgument.
Hypothesis lists : holds_lists given.

Lemma listed_lookup key :
  key ∈ ["env_name"; "systems"; "system_type"; "sources"] →
  (given !! key = None ∧ listed given !! key = None)
  ∨ ∃ names, given !! key = Some {| ValidationNone.given_value := Some names |}
             ∧ listed given !! key = Some {| value := names |}.
Proof.
  intros Hkey. unfold listed. rewrite lookup_omap.
  destruct (given !! key) as [[[names|]]|] eqn:Hgiven.
  - right. by exists names.
  - by destruct (lists key _ Hkey Hgiven).
  - by left.
Qed.

Ltac four := repeat first [apply list_elem_of_here | apply list_elem_of_further].

Lemma _check_input_environments_lists all_envs argument raised σ :
  argument ∈ ["env_name"; "systems"; "system_type"; "sources"] →
  ValidationNone._check_input_environments given all_envs argument raised σ
  = _check_input_environments (listed given) all_envs argument raised σ.
Proof.
  intros Hkey.
  unfold ValidationNone._check_input_environments, _check_input_environments.
  by destruct (listed_lookup argument Hkey) as [[-> ->]|(names & -> & ->)].
Qed.

Lemma _consistent_environment_lists env σ :
  ValidationNone._consistent_environment given env σ
  = _consistent_environment (listed given) env σ.
Proof.
  unfold ValidationNone._consistent_environment, _consistent_environment.
  by destruct (listed_lookup "env_name" ltac:(four))
    as [[-> ->]|(names & -> & ->)].
Qed.

Lemma _consistent_system_lists system σ :
  ValidationNone._consistent_system given system σ
  = _consistent_system (listed given) system σ.
Proof.
  unfold ValidationNone._consistent_system, _consistent_system.
  by destruct (listed_lookup "system_type" ltac:(four))
       as [[-> ->]|(types & -> & ->)],
     (listed_lookup "systems" ltac:(four)) as [[-> ->]|(names & -> & ->)].
Qed.

Lemma _system_has_valid_sources_lists system σ :
  ValidationNone._system_has_valid_sources given system σ
  = _system_has_valid_sources (listed given) system σ.
Proof.
  unfold ValidationNone._system_has_valid_sources, _system_has_valid_sources.
  by destruct (listed_lookup "sources" ltac:(four))
    as [[-> ->]|(names & -> & ->)].
Qed.

Lemma override_enabled_systems_lists systems σ :
  ValidationNone.override_enabled_systems given systems σ
  = override_enabled_systems (listed given) systems σ.
Proof.
  unfold ValidationNone.override_enabled_systems, override_enabled_systems.
  destruct (listed_lookup "systems" ltac:(four))
    as [[-> ->]|(names & -> & ->)]; [done|].
  simpl. by destruct names.
Qed.

(** On arguments that hold lists, the run is the run on the lists. *)
Lemma validate_environments_lists envs σ :
  ValidationNone.validate_environments given envs σ
  = validate_environments (listed given) envs σ.
Proof.
  unfold ValidationNone.validate_environments, validate_environments.
  apply bind_ext; [done|]. intros [all_envs all_systems] σ1.
  apply bind_ext; [apply _check_input_environments_lists; four|].
  intros _ σ2. apply bind_ext; [done|]. intros system_names σ3.
  apply bind_ext; [apply _check_input_environments_lists; four|].
  intros _ σ4.
  apply bind_ext.
  { apply check_envs_ext; intros;
      [apply _consistent_system_lists|apply _consistent_environment_lists]. }
  intros [user_envs user_systems] σ5.
  destruct user_systems as [|first others]; [done|].
  apply bind_ext; [apply override_enabled_systems_lists|]. intros _ σ6.
  apply bind_ext; [done|]. intros [user_envs' user_systems'] σ7.
  destruct user_systems' as [|first' others']; [done|].
  apply bind_ext.
  { apply check_envs_ext; intros;
      [apply _system_has_valid_sources_lists|done]. }
  intros [user_envs'' user_systems''] σ8. done.
Qed.

End Lists.

(** X11. When none of the arguments [env_name], [systems], [system_type]
    and [sources] holds [None], a run of [validate_environments] ends in
    one of six ways, decided by the first stage that fails: an absent
    environment name, else an absent system name (both leave the state as
    it was), else no consistent system, else no enabled system, else no
    system with a requested source, else the environments that are
    left. *)
Theorem validate_environments_outcome
    (given : gmap string ValidationNone.GivenArgument)
    (envs : list ref) (σ : state) :
  holds_lists given →
  outcome (listed given) envs σ
    (ValidationNone.validate_environments given envs σ).
Proof.
  intros lists. rewrite (validate_environments_lists given lists).
  apply validate_environments_cases.
Qed.

Definition given_lists (names : list string) : ValidationNone.GivenArgument :=
  {| ValidationNone.given_value := Some names |}.

Definition given_None : ValidationNone.GivenArgument :=
  {| ValidationNone.given_value := None |}.

(** Only [systems] is given, and asks for the disabled [sysB]. *)
Definition sysB_given : gmap string ValidationNone.GivenArgument :=
  {[ "systems" := given_lists ["sysB"] ]}.

Lemma validate_environments_outcome_witness :
  outcome (listed sysB_given) [0; 1] a_configuration
    (ValidationNone.validate_environments sysB_given [0; 1] a_configuration).
Proof.
  apply (validate_environments_outcome sysB_given [0; 1] a_configuration).
  intros key argument _ Hlookup. unfold sysB_given in Hlookup.
  apply lookup_singleton_Some in Hlookup as [_ <-]. done.
Defined.

(** X27. An argument that holds [None] is a seventh way to end: when
    [env_name] holds [None], or [systems] does and [env_name] is not
    given, the run raises [TypeError] and leaves the state as it was. *)
Theorem None_raises_TypeError
    (given : gmap string ValidationNone.GivenArgument)
    (envs : list ref) (σ : state) (argument : ValidationNone.GivenArgument) :
  ValidationNone.given_value argument = None →
  given !! "env_name" = Some argument
  ∨ (given !! "env_name" = None ∧ given !! "systems" = Some argument) →
  ValidationNone.validate_environments given envs σ = (inl TypeError, σ).
Proof.
  intros Hnone Hgiven.
  unfold ValidationNone.validate_environments,
    ValidationNone._check_input_environments.
  unfold mbind, M_bind, bind, collect, gets. simpl.
  destruct Hgiven as [->|[-> ->]]; by rewrite Hnone.
Qed.

Definition systems_None : gmap string ValidationNone.GivenArgument :=
  {[ "systems" := given_None ]}.

Lemma None_raises_TypeError_witness :
  ValidationNone.validate_environments systems_None [0; 1] a_configuration
  = (inl TypeError, a_configuration).
Proof.
  apply (None_raises_TypeError systems_None [0; 1] a_configuration given_None).
  - reflexivity.
  - right. split; reflexivity.
Defined.

End ValidationNoneLaws.

(** ** Laws of the indented text builder *)

Module StringsLaws.

Import Stdlib.Strings.Ascii.
Import Strings.

(** All the chunks [build] writes, each behind its line's indentation. *)
Definition chunks (self : IndentedTextBuilder) : list text :=
  flat_map (λ line, map (app (indentation self line)) (split (_text line)))
    (_lines self).

Lemma split_not_nil s : split s ≠ [].
Proof.
  destruct s as [|c s]; simpl; [done|].
  destruct (Ascii.eqb c LF); [done|]. by destruct (split s).
Qed.

Lemma join_cons line rest :
  rest ≠ [] → join (line :: rest) = line ++ LF :: join rest.
Proof. by destruct rest. Qed.

Lemma join_push c first others :
  join ((c :: first) :: others) = c :: join (first :: others).
Proof. by destruct others. Qed.

Lemma join_split s : join (split s) = s.
Proof.
  induction s as [|c s IH]; simpl; [done|].
  destruct (Ascii.eqb c LF) eqn:Hc.
  - apply Ascii.eqb_eq in Hc as ->.
    rewrite join_cons by apply split_not_nil. simpl. by rewrite IH.
  - pose proof (split_not_nil s) as Hne.
    destruct (split s) as [|first others]; [done|].
    rewrite join_push. by rewrite IH.
Qed.

Lemma split_free s : Forall (λ chunk, LF ∉ chunk) (split s).
Proof.
  induction s as [|c s IH]; simpl.
  - constructor; [apply not_elem_of_nil|constructor].
  - destruct (Ascii.eqb c LF) eqn:Hc.
    + constructor; [apply not_elem_of_nil|exact IH].
    + apply Ascii.eqb_neq in Hc.
      pose proof (split_not_nil s) as Hne.
      destruct (split s) as [|first others]; [done|].
      inversion IH as [|? ? Hfirst Hothers]; subst.
      constructor; [|done].
      intros [Heq|?]%elem_of_cons; [by apply Hc|by apply Hfirst].
Qed.

Lemma split_app_free chunk s :
  LF ∉ chunk →
  split (chunk ++ LF :: s) = chunk :: split s.
Proof.
  induction chunk as [|c chunk IH]; intros Hfree; simpl.
  - done.
  - destruct (Ascii.eqb c LF) eqn:Hc.
    + apply Ascii.eqb_eq in Hc as ->. exfalso. apply Hfree. by left.
    + rewrite IH; [done|]. intros ?. apply Hfree. by right.
Qed.

Lemma split_free_one chunk : LF ∉ chunk → split chunk = [chunk].
Proof.
  induction chunk as [|c chunk IH]; intros Hfree; simpl; [done|].
  destruct (Ascii.eqb c LF) eqn:Hc.
  - apply Ascii.eqb_eq in Hc as ->. exfalso. apply Hfree. by left.
  - rewrite IH; [done|]. intros ?. apply Hfree. by right.
Qed.

Lemma split_join lines :
  lines ≠ [] → Forall (λ chunk, LF ∉ chunk) lines →
  split (join lines) = lines.
Proof.
  induction lines as [|line rest IH]; intros Hne Hfree; [done|].
  inversion Hfree as [|? ? Hline Hrest]; subst.
  destruct rest as [|next rest].
  - simpl. by apply split_free_one.
  - rewrite join_cons by done. rewrite split_app_free by done.
    by rewrite IH.
Qed.

Lemma split_app a b : split (a ++ LF :: b) = split a ++ split b.
Proof.
  induction a as [|c a IH]; simpl; [done|].
  destruct (Ascii.eqb c LF); [by rewrite IH|].
  rewrite IH. pose proof (split_not_nil a) as Hne.
  by destruct (split a).
Qed.

Lemma join_app a b :
  a ≠ [] → b ≠ [] → join (a ++ b) = join a ++ LF :: join b.
Proof.
  induction a as [|line rest IH]; intros Ha Hb; [done|].
  destruct rest as [|next rest].
  - simpl. by destruct b.
  - rewrite <- app_comm_cons. rewrite !join_cons by done.
    rewrite IH by done. by rewrite <- app_assoc.
Qed.

Lemma join_flat_split texts : join (flat_map split texts) = join texts.
Proof.
  induction texts as [|t texts IH]; [done|].
  destruct texts as [|t' texts].
  - simpl. rewrite app_nil_r. apply join_split.
  - change (join (split t ++ flat_map split (t' :: texts)) =
            join (t :: t' :: texts)).
    rewrite join_app.
    + rewrite IH, join_split. by rewrite (join_cons t).
    + apply split_not_nil.
    + simpl. pose proof (split_not_nil t'). by destruct (split t').
Qed.

(** *** Stripping *)

Lemma lstrip_suffix s : ∃ k, s = repeat LF k ++ lstrip s.
Proof.
  induction s as [|c s [k IH]]; simpl.
  - by exists 0.
  - destruct (Ascii.eqb c LF) eqn:Hc.
    + apply Ascii.eqb_eq in Hc as ->. exists (S k). simpl. by rewrite <- IH.
    + by exists 0.
Qed.

Lemma lstrip_head s : list.head (lstrip s) ≠ Some LF.
Proof.
  induction s as [|c s IH]; simpl; [done|].
  destruct (Ascii.eqb c LF) eqn:Hc; [done|].
  apply Ascii.eqb_neq in Hc. simpl. congruence.
Qed.

Lemma lstrip_id s : list.head s ≠ Some LF → lstrip s = s.
Proof.
  destruct s as [|c s]; simpl; [done|]. intros Hc.
  destruct (Ascii.eqb c LF) eqn:Heq; [|done].
  apply Ascii.eqb_eq in Heq as ->. done.
Qed.

Lemma lstrip_snoc s :
  lstrip (s ++ [LF]) = [] ∧ lstrip s = [] ∨
  lstrip (s ++ [LF]) = lstrip s ++ [LF].
Proof.
  induction s as [|c s IH]; simpl; [by left|].
  destruct (Ascii.eqb c LF); [done|by right].
Qed.

Lemma head_rev {A} (l : list A) : list.head (rev l) = list.last l.
Proof.
  induction l as [|x l IH] using rev_ind; [done|].
  rewrite rev_app_distr, last_snoc. done.
Qed.

Lemma last_rev {A} (l : list A) : list.last (rev l) = list.head l.
Proof. rewrite <- head_rev. by rewrite rev_involutive. Qed.

Lemma rstrip_snoc s : rstrip (s ++ [LF]) = rstrip s.
Proof. unfold rstrip. by rewrite rev_app_distr. Qed.

Lemma rstrip_last s : list.last (rstrip s) ≠ Some LF.
Proof. unfold rstrip. rewrite last_rev. apply lstrip_head. Qed.

Lemma rstrip_id s : list.last s ≠ Some LF → rstrip s = s.
Proof.
  intros Hlast. unfold rstrip. rewrite lstrip_id.
  - apply rev_involutive.
  - by rewrite head_rev.
Qed.

Lemma rstrip_prefix s : ∃ k, s = rstrip s ++ repeat LF k.
Proof.
  unfold rstrip. destruct (lstrip_suffix (rev s)) as [k Hk].
  exists k. rewrite <- (rev_involutive s) at 1. rewrite Hk at 1.
  rewrite rev_app_distr. f_equal.
  clear. induction k as [|k IH]; [done|].
  simpl. rewrite IH. clear. induction k as [|k IH]; [done|].
  simpl. by rewrite IH.
Qed.

Lemma rstrip_head s : list.head s ≠ Some LF → list.head (rstrip s) ≠ Some LF.
Proof.
  intros Hs. destruct (rstrip_prefix s) as [k Hk].
  destruct (rstrip s) as [|c t]; [done|].
  rewrite Hk in Hs. done.
Qed.

Lemma strip_snoc s : strip (s ++ [LF]) = strip s.
Proof.
  unfold strip. destruct (lstrip_snoc s) as [[-> ->]| ->]; [done|].
  apply rstrip_snoc.
Qed.

Lemma strip_id s : list.head s ≠ Some LF → list.last s ≠ Some LF → strip s = s.
Proof.
  intros Hh Hl. unfold strip. rewrite lstrip_id by done. by apply rstrip_id.
Qed.

Lemma strip_ends s : list.head (strip s) ≠ Some LF ∧ list.last (strip s) ≠ Some LF.
Proof.
  split.
  - apply rstrip_head, lstrip_head.
  - apply rstrip_last.
Qed.

(** *** What [build] writes *)

Lemma fold_append {A} (f : A → text) l result :
  fold_left (λ result x, result ++ f x) l result = result ++ concat (map f l).
Proof.
  revert result. induction l as [|x l IH]; intros result; simpl.
  - by rewrite app_nil_r.
  - rewrite IH. by rewrite <- app_assoc.
Qed.

Lemma build_line_writes self result line :
  build_line self result line =
  result ++ concat (map (λ chunk, chunk ++ [LF])
                      (map (app (indentation self line)) (split (_text line)))).
Proof.
  unfold build_line.
  rewrite (fold_append (λ chunk, indentation self line ++ chunk ++ [LF])).
  f_equal. rewrite map_map. f_equal. apply map_ext. intros chunk.
  by rewrite <- app_assoc.
Qed.

Lemma build_loop self lines result :
  fold_left (build_line self) lines result =
  result ++ concat (map (λ chunk, chunk ++ [LF])
    (flat_map (λ line, map (app (indentation self line)) (split (_text line)))
       lines)).
Proof.
  revert result. induction lines as [|line lines IH]; intros result; simpl.
  - by rewrite app_nil_r.
  - rewrite IH, build_line_writes. rewrite map_app, concat_app.
    by rewrite <- app_assoc.
Qed.

Lemma concat_lines lines :
  lines ≠ [] → concat (map (λ chunk, chunk ++ [LF]) lines) = join lines ++ [LF].
Proof.
  induction lines as [|line rest IH]; intros Hne; [done|].
  destruct rest as [|next rest].
  - simpl. by rewrite app_nil_r.
  - rewrite join_cons by done. simpl map. simpl concat.
    simpl map in IH. simpl concat in IH. rewrite IH by done.
    rewrite <- !app_assoc. done.
Qed.

Lemma build_joins self : build self = strip (join (chunks self)).
Proof.
  unfold build. rewrite build_loop. simpl. fold (chunks self).
  destruct (chunks self) as [|chunk rest] eqn:Hchunks; [done|].
  rewrite concat_lines by done. apply strip_snoc.
Qed.

Lemma chunks_not_nil self : _lines self ≠ [] → chunks self ≠ [].
Proof.
  unfold chunks. destruct (_lines self) as [|line lines]; [done|].
  intros _. simpl. pose proof (split_not_nil (_text line)).
  by destruct (split (_text line)).
Qed.

Lemma indentation_free self line : LF ∉ indentation self line.
Proof.
  unfold indentation. intros Hin. apply list_elem_of_In, repeat_spec in Hin.
  discriminate.
Qed.

Lemma chunks_free self : Forall (λ chunk, LF ∉ chunk) (chunks self).
Proof.
  unfold chunks. apply Forall_flat_map. apply Forall_forall. intros line _.
  apply Forall_map. eapply Forall_impl; [|apply split_free].
  intros chunk Hfree. simpl. intros [?|?]%elem_of_app; [|done].
  by eapply indentation_free.
Qed.

Lemma head_join lines first :
  list.head lines = Some first → first ≠ [] → list.head (join lines) = list.head first.
Proof.
  destruct lines as [|line rest]; [done|]. intros [= ->] Hne.
  destruct rest; [done|]. rewrite join_cons by done. by destruct first.
Qed.

Lemma last_join lines final :
  list.last lines = Some final → final ≠ [] → list.last (join lines) = list.last final.
Proof.
  induction lines as [|line rest IH]; [done|]. intros Hlast Hne.
  destruct rest as [|next rest].
  - by injection Hlast as ->.
  - rewrite join_cons by done. rewrite last_app_cons, last_cons.
    rewrite last_cons_cons in Hlast. rewrite (IH Hlast Hne).
    destruct final as [|c final] using rev_ind; [done|].
    by rewrite last_snoc.
Qed.

Lemma position_last n : position (S n) (-1) = Some n.
Proof.
  unfold position.
  replace (0 <=? -1)%Z with false by done.
  rewrite (proj2 (Z.leb_le _ _)) by lia.
  simpl. f_equal. lia.
Qed.

Lemma position_inside n index :
  (0 ≤ index < Z.of_nat n)%Z → position n index = Some (Z.to_nat index).
Proof.
  intros [Hlo Hhi]. unfold position.
  rewrite (proj2 (Z.leb_le _ _)) by lia.
  by rewrite (proj2 (Z.ltb_lt _ _)) by lia.
Qed.

(** X15. A line that was added is the last one, [self[-1]], and appending
    to it there is the same as having added the longer text; the builder
    is one line longer and the lines it had stay where they were. *)
Theorem add_then_last self txt level more :
  __len__ (add self txt level) = S (__len__ self) ∧
  __getitem__ (add self txt level) (-1) =
    Some {| _text := txt; _level := level |} ∧
  (∀ index, (0 ≤ index < Z.of_nat (__len__ self))%Z →
     __getitem__ (add self txt level) index = __getitem__ self index) ∧
  append_at (add self txt level) (-1) more =
    Some (add self (txt ++ more) level).
Proof.
  unfold __len__, __getitem__, append_at, add. simpl.
  rewrite length_app. simpl. rewrite Nat.add_1_r.
  split; [done|]. rewrite position_last. simpl. repeat split.
  - by rewrite lookup_app_r, Nat.sub_diag.
  - intros index Hindex. rewrite !position_inside by lia. simpl.
    apply lookup_app_l. lia.
  - f_equal. f_equal.
    rewrite alter_app_r_alt by done. by rewrite Nat.sub_diag.
Qed.

(** X16. The built text neither starts nor ends with a line feed. *)
Theorem build_no_outer_line_feed self :
  list.head (build self) ≠ Some LF ∧ list.last (build self) ≠ Some LF.
Proof. apply strip_ends. Qed.

(** X17. When the first and the last chunk written are not empty, the
    built text is the chunks, each behind its indentation, joined by line
    feeds, and splitting it at the line feeds gives them back. *)
Theorem build_lines self :
  _lines self ≠ [] →
  list.head (chunks self) ≠ Some [] →
  list.last (chunks self) ≠ Some [] →
  build self = join (chunks self) ∧ split (build self) = chunks self.
Proof.
  intros Hlines Hfirst Hlast.
  pose proof (chunks_not_nil self Hlines) as Hne.
  pose proof (chunks_free self) as Hfree.
  assert (Hbuild : build self = join (chunks self)).
  { rewrite build_joins. apply strip_id.
    - destruct (list.head (chunks self)) as [first|] eqn:Hhead.
      + assert (first ≠ []) by congruence.
        rewrite (head_join _ first) by done.
        intros Hlf. apply head_Some_elem_of in Hlf.
        apply head_Some_elem_of in Hhead.
        rewrite Forall_forall in Hfree. apply (Hfree first); [|done].
        by apply list_elem_of_In.
      + by destruct (chunks self).
    - destruct (list.last (chunks self)) as [final|] eqn:Hfinal.
      + assert (final ≠ []) by congruence.
        rewrite (last_join _ final) by done.
        intros Hlf. apply last_Some_elem_of in Hlf.
        apply last_Some_elem_of in Hfinal.
        rewrite Forall_forall in Hfree. apply (Hfree final); [|done].
        by apply list_elem_of_In.
      + by apply last_None in Hfinal. }
  split; [done|]. rewrite Hbuild. by apply split_join.
Qed.

Lemma chunks_flat self :
  (∀ line, line ∈ _lines self → (_level line * _spaces_per_tab self ≤ 0)%Z) →
  chunks self = flat_map split (map _text (_lines self)).
Proof.
  unfold chunks. induction (_lines self) as [|line lines IH]; intros Hflat.
  - done.
  - simpl. rewrite IH.
    + f_equal. unfold indentation.
      replace (Z.to_nat (_level line * _spaces_per_tab self)) with 0.
      * simpl. apply map_id.
      * specialize (Hflat line ltac:(by left)). lia.
    + intros other Hother. apply Hflat. by right.
Qed.

(** X18. Without indentation, at level 0 say, the built text is the texts
    of the lines joined by line feeds, less the line feeds at both ends. *)
Theorem build_without_indentation self :
  (∀ line, line ∈ _lines self → (_level line * _spaces_per_tab self ≤ 0)%Z) →
  build self = strip (join (map _text (_lines self))).
Proof.
  intros Hflat. rewrite build_joins, chunks_flat by done.
  by rewrite join_flat_split.
Qed.

Lemma chunks_add self txt level :
  chunks (add self txt level) =
  chunks self ++
  map (app (repeat SPACE (Z.to_nat (level * _spaces_per_tab self))))
    (split txt).
Proof.
  unfold chunks, add. simpl. rewrite flat_map_app. simpl.
  by rewrite app_nil_r.
Qed.

(** X19. A line whose text holds a line feed is built as the two lines it
    falls into, both at its level. *)
Theorem build_line_feed self before after level :
  build (add self (before ++ LF :: after) level) =
  build (add (add self before level) after level).
Proof.
  rewrite !build_joins, !chunks_add. simpl.
  by rewrite split_app, map_app, <- app_assoc.
Qed.

(** A builder as [print_stage] fills it: a title, and under it one text
    of two lines. *)
Definition a_report : IndentedTextBuilder :=
  add (add (IndentedTextBuilder_init 2) (literal "- build") 0)
    (literal "Status: SUCCESS" ++ LF :: literal "Duration: 1.5min") 1.

Lemma add_then_last_witness :
  __getitem__ (add a_report (literal "done") 0) 1 = __getitem__ a_report 1.
Proof.
  destruct (add_then_last a_report (literal "done") 0 [])
    as (_ & _ & Hkept & _).
  apply Hkept. cbn. lia.
Defined.

Lemma build_lines_witness :
  build a_report =
    literal "- build" ++ LF :: literal "  Status: SUCCESS" ++
    LF :: literal "  Duration: 1.5min" ∧
  split (build a_report) =
    [literal "- build"; literal "  Status: SUCCESS";
     literal "  Duration: 1.5min"].
Proof.
  apply (build_lines a_report); vm_compute; discriminate.
Defined.

(** The same lines, all at level 0. *)
Definition a_flat_report : IndentedTextBuilder :=
  add (add (IndentedTextBuilder_init 2) (literal "- build") 0)
    (literal "Status: SUCCESS" ++ LF :: literal "Duration: 1.5min") 0.

Lemma build_without_indentation_witness :
  build a_flat_report =
    literal "- build" ++ LF :: literal "Status: SUCCESS" ++
    LF :: literal "Duration: 1.5min".
Proof.
  apply (build_without_indentation a_flat_report).
  intros line Hline. apply list_elem_of_In in Hline.
  destruct Hline as [<-|[<-|[]]]; simpl; lia.
Defined.

End StringsLaws.

(** ** Laws of the printed stage *)

Module StageOutputLaws.

Import Strings StageOutput StringsLaws.

Section Laws.

Context {object : Type}.
Variable truthy : object → bool.
Variable str : object → text.
Variable blue : text → text.
Variable get_status_colored : object → text.
Variable minutes : object → text.

Abbreviation print_stage :=
  (print_stage object truthy str blue get_status_colored minutes).

(** The first line [print_stage] writes. *)
Definition header (stage : Stage object) : text :=
  blue (literal "- ") ++ str (stage_name object stage).

(** The lines [print_stage] writes when it is verbose. *)
Definition status_line (stage : Stage object) : text :=
  literal "  " ++ blue (literal "Status: ") ++
  get_status_colored (stage_status object stage).

Definition duration_line (stage : Stage object) : text :=
  literal "  " ++ blue (literal "Duration: ") ++
  minutes (stage_duration object stage).

Definition details (stage : Stage object) : list text :=
  (if truthy (stage_status object stage) then [status_line stage] else []) ++
  (if truthy (stage_duration object stage) then [duration_line stage] else []).

Lemma free_by_check txt :
  forallb (λ c, negb (Ascii.eqb c LF)) txt = true → LF ∉ txt.
Proof.
  intros Hcheck Hin. rewrite forallb_forall in Hcheck.
  apply list_elem_of_In, Hcheck in Hin. by rewrite Ascii.eqb_refl in Hin.
Qed.

Lemma append_after_add self txt level more :
  append_at (add self txt level) (-1) more =
  Some (add self (txt ++ more) level).
Proof.
  unfold append_at, add. simpl. rewrite length_app. simpl.
  rewrite Nat.add_1_r, position_last. simpl. f_equal. f_equal.
  rewrite alter_app_r_alt by done. by rewrite Nat.sub_diag.
Qed.

(** The lines of the builder when [print_stage] builds it. *)
Definition detail_lines (stage : Stage object) : list Line :=
  (if truthy (stage_status object stage)
   then [ {| _text := blue (literal "Status: ") ++
                      get_status_colored (stage_status object stage);
             _level := 1 |} ]
   else []) ++
  (if truthy (stage_duration object stage)
   then [ {| _text := blue (literal "Duration: ") ++
                      minutes (stage_duration object stage);
             _level := 1 |} ]
   else []).

Definition printer_of (stage : Stage object) (verbosity : Z)
    : IndentedTextBuilder :=
  {| _lines := {| _text := header stage; _level := 0 |} ::
               (if (0 <? verbosity)%Z then detail_lines stage else []);
     _spaces_per_tab := 2 |}.

Lemma print_stage_builds stage verbosity :
  print_stage stage verbosity = Some (build (printer_of stage verbosity)).
Proof.
  unfold StageOutput.print_stage, printer_of, detail_lines, header.
  rewrite append_after_add. cbn [mbind option_bind].
  destruct (0 <? verbosity)%Z; [|done].
  destruct (truthy (stage_status object stage));
    destruct (truthy (stage_duration object stage));
    rewrite ?append_after_add; cbn [mbind option_bind];
    rewrite ?append_after_add; done.
Qed.

(** X20. Without verbosity, or for a stage that has neither a status nor
    a duration, the answer is the title alone: the coloured dash and the
    name, less the line feeds at both ends. *)
Theorem print_stage_quiet stage verbosity :
  (verbosity ≤ 0)%Z ∨
  truthy (stage_status object stage) = false ∧
  truthy (stage_duration object stage) = false →
  print_stage stage verbosity = Some (strip (header stage)).
Proof.
  intros Hquiet. rewrite print_stage_builds. f_equal.
  assert (Hprinter : printer_of stage verbosity =
            add (IndentedTextBuilder_init 2) (header stage) 0).
  { unfold printer_of, detail_lines, add. simpl. f_equal.
    destruct Hquiet as [Hle|[-> ->]].
    - by rewrite (proj2 (Z.ltb_ge _ _)) by lia.
    - by destruct (0 <? verbosity)%Z. }
  rewrite Hprinter, build_without_indentation; [done|].
  simpl. intros line [->|[]%elem_of_nil]%elem_of_cons. simpl. lia.
Qed.

Hypothesis blue_free : ∀ txt, LF ∉ txt → LF ∉ blue txt.

(** X21. With verbosity, and texts that hold no line feed, the answer has
    the title as its first line and then, each behind two spaces, the
    status line if the stage has a status and the duration line if it has
    a duration. *)
Theorem print_stage_verbose stage verbosity :
  (0 < verbosity)%Z →
  header stage ≠ [] →
  LF ∉ str (stage_name object stage) →
  LF ∉ get_status_colored (stage_status object stage) →
  LF ∉ minutes (stage_duration object stage) →
  ∃ printed,
    print_stage stage verbosity = Some printed ∧
    split printed = header stage :: details stage.
Proof.
  intros Hverbose Hheader Hname Hstatus Hduration.
  rewrite print_stage_builds. eexists. split; [done|].
  assert (Hchunks :
    chunks (printer_of stage verbosity) = header stage :: details stage).
  { unfold chunks, printer_of, detail_lines, details, status_line,
      duration_line. simpl.
    rewrite (proj2 (Z.ltb_lt _ _)) by lia.
    rewrite (split_free_one (header stage)).
    2:{ unfold header. intros [?|?]%elem_of_app; [|done].
        eapply blue_free; [|done]. by apply free_by_check. }
    simpl. f_equal.
    destruct (truthy (stage_status object stage));
      destruct (truthy (stage_duration object stage)); simpl;
      rewrite ?split_free_one; simpl; try done.
    all: intros [?|?]%elem_of_app; [|done].
    all: eapply blue_free; [|done].
    all: by apply free_by_check. }
  destruct (build_lines (printer_of stage verbosity)) as [_ Hsplit].
  - done.
  - rewrite Hchunks. simpl. congruence.
  - rewrite Hchunks. unfold details, status_line, duration_line.
    destruct (truthy (stage_status object stage));
      destruct (truthy (stage_duration object stage)); simpl; congruence.
  - by rewrite Hsplit.
Qed.

End Laws.

(** A plain palette over texts: no colour, and a text is false when it is
    empty. *)
Definition plain (txt : text) : text := txt.

Definition filled (txt : text) : bool :=
  match txt with [] => false | _ :: _ => true end.

Definition in_minutes (txt : text) : text := txt ++ literal "min".

Definition a_stage : Stage text :=
  {| stage_name := literal "build";
     stage_status := literal "SUCCESS";
     stage_duration := literal "1.5" |}.

Lemma print_stage_quiet_witness :
  StageOutput.print_stage text filled plain plain plain in_minutes a_stage 0 =
  Some (literal "- build").
Proof.
  apply (print_stage_quiet filled plain plain plain in_minutes a_stage 0).
  left. lia.
Defined.

Lemma print_stage_verbose_witness :
  ∃ printed,
    StageOutput.print_stage text filled plain plain plain in_minutes a_stage 1 =
      Some printed ∧
    split printed =
      [literal "- build"; literal "  Status: SUCCESS";
       literal "  Duration: 1.5min"].
Proof.
  apply (print_stage_verbose filled plain plain plain in_minutes
           (λ txt Hfree, Hfree) a_stage 1).
  - lia.
  - vm_compute. discriminate.
  - by apply free_by_check.
  - by apply free_by_check.
  - by apply free_by_check.
Defined.

End StageOutputLaws.

(** ** Laws of the infra type of a job *)

Module JenkinsJobBuilderLaws.

Import Stdlib.Strings.Ascii.
Import Strings JenkinsJobBuilder.

Lemma startswith_spec prefix s :
  startswith prefix s = true ↔ ∃ after, s = prefix ++ after.
Proof.
  revert s. induction prefix as [|c prefix IH]; intros s; simpl.
  - split; [by exists s|done].
  - destruct s as [|d s].
    + split; [done|by intros [after Hafter]].
    + rewrite andb_true_iff, Ascii.eqb_eq, IH. split.
      * intros [-> [after ->]]. by exists after.
      * intros [after [= -> ->]]. split; [done|by exists after].
Qed.

Lemma contains_spec needle haystack :
  contains needle haystack = true ↔
  ∃ before after, haystack = before ++ needle ++ after.
Proof.
  induction haystack as [|d haystack IH].
  - simpl. rewrite orb_false_r, startswith_spec. split.
    + intros [after ->]. by exists [], after.
    + intros [before [after Heq]]. symmetry in Heq.
      apply app_eq_nil in Heq as [-> Heq]. by exists after.
  - cbn [contains]. rewrite orb_true_iff, startswith_spec, IH. split.
    + intros [[after ->]|[before [after ->]]].
      * by exists [], after.
      * by exists (d :: before), after.
    + intros [[|b before] [after Heq]].
      * left. by exists after.
      * right. injection Heq as -> ->. by exists before, after.
Qed.

Lemma args_are_in_list_exists arg_list lst :
  args_are_in_list arg_list lst =
  existsb (contains (str_join (literal " ") arg_list)) lst.
Proof.
  unfold args_are_in_list. induction lst as [|el lst IH]; simpl; [done|].
  destruct (contains _ el); simpl; [done|apply IH].
Qed.

(** X22. [args_are_in_list] answers whether the arguments, written one
    after another with a space between, are a part of some element of the
    list. *)
Theorem args_are_in_list_part arg_list lst :
  args_are_in_list arg_list lst = true ↔
  ∃ el before after,
    el ∈ lst ∧ el = before ++ str_join (literal " ") arg_list ++ after.
Proof.
  rewrite args_are_in_list_exists, existsb_exists. split.
  - intros [el [Hin [before [after ->]]%contains_spec]].
    eexists _, before, after. split; [|done]. by apply list_elem_of_In.
  - intros [el [before [after [Hin Hel]]]]. exists el.
    split; [by apply list_elem_of_In|].
    apply contains_spec. by exists before, after.
Qed.

Lemma contains_several arg_list el :
  2 ≤ length arg_list → SPACE ∉ el →
  contains (str_join (literal " ") arg_list) el = false.
Proof.
  intros Hlen Hfree. apply not_true_is_false.
  intros [before [after ->]]%contains_spec. apply Hfree.
  destruct arg_list as [|first [|second rest]]; [simpl in Hlen; lia..|].
  apply elem_of_app. right. apply elem_of_app. left.
  cbn [str_join]. apply elem_of_app. right. apply elem_of_app. left.
  by left.
Qed.

(** X23. Two or more arguments are never found in a list whose elements
    hold no space. *)
Theorem args_are_in_list_several arg_list lst :
  2 ≤ length arg_list →
  (∀ el, el ∈ lst → SPACE ∉ el) →
  args_are_in_list arg_list lst = false.
Proof.
  intros Hlen Hfree. rewrite args_are_in_list_exists.
  apply not_true_is_false. intros [el [Hin Hpart]]%existsb_exists.
  rewrite contains_several in Hpart; [done..|].
  by apply Hfree, list_elem_of_In.
Qed.

Lemma args_are_in_list_several_witness :
  args_are_in_list [literal "ovb"; literal "virt"]
    [literal "ovb"; literal "virt"] = false.
Proof.
  apply (args_are_in_list_several [literal "ovb"; literal "virt"]
           [literal "ovb"; literal "virt"]).
  - simpl. lia.
  - intros el Hel Hspace. apply list_elem_of_In in Hel, Hspace.
    destruct Hel as [<-|[<-|[]]]; vm_compute in Hspace;
      intuition discriminate.
Defined.

Section InfraLaws.

Variable rstrip : text → text.
Variable findall_DEPLOYMENT : text → list text.

Abbreviation _get_infra_type :=
  (_get_infra_type rstrip findall_DEPLOYMENT).

(** Every deployment the file names, in the order the loops meet them. *)
Definition found (in_mem_file : list text) : list text :=
  flat_map findall_DEPLOYMENT
    (map rstrip
       (List.filter (contains (literal "--deployment-files")) in_mem_file)).

Definition is_virt (el : text) : bool :=
  contains (literal "virt") el || contains (literal "composable_roles") el.

Definition is_ovb (el : text) : bool :=
  negb (is_virt el) && contains (literal "ovb") el.

Definition infra (el : text) : text :=
  if is_virt el then literal "virt"
  else if contains (literal "ovb") el then literal "ovb"
       else literal "baremetal".

Lemma fold_nested {A B C} (f : A → C → A) (g : B → list C) lines start :
  fold_left (λ result line, fold_left f (g line) result) lines start =
  fold_left f (flat_map g lines) start.
Proof.
  revert start. induction lines as [|line lines IH]; intros start; simpl.
  - done.
  - by rewrite IH, fold_left_app.
Qed.

Lemma add_infra_infra result el : add_infra result el = result ∪ {[ infra el ]}.
Proof.
  unfold add_infra, infra, is_virt.
  destruct (contains (literal "virt") el || _); [done|].
  by destruct (contains (literal "ovb") el).
Qed.

Lemma fold_add_infra (els : list text) (start : gset text) :
  fold_left add_infra els start = start ∪ list_to_set (map infra els).
Proof.
  revert start. induction els as [|el els IH]; intros start; simpl.
  - by rewrite union_empty_r_L.
  - by rewrite IH, add_infra_infra, (assoc_L (∪)).
Qed.

Lemma result_of in_mem_file :
  fold_left
    (λ result line, fold_left add_infra (findall_DEPLOYMENT line) result)
    (map rstrip
       (List.filter (contains (literal "--deployment-files")) in_mem_file))
    (∅ : gset text) =
  list_to_set (map infra (found in_mem_file)).
Proof.
  rewrite fold_nested, fold_add_infra. fold (found in_mem_file).
  by rewrite union_empty_l_L.
Qed.

Lemma infra_ovb el : infra el = literal "ovb" ↔ is_ovb el = true.
Proof.
  unfold infra, is_ovb. destruct (is_virt el); cbn [negb andb].
  - split; intros Heq; [vm_compute in Heq|]; discriminate Heq.
  - destruct (contains (literal "ovb") el); [by split|].
    split; intros Heq; [vm_compute in Heq|]; discriminate Heq.
Qed.

Lemma infra_virt el : infra el = literal "virt" ↔ is_virt el = true.
Proof.
  unfold infra. destruct (is_virt el); [by split|].
  destruct (contains (literal "ovb") el);
    split; intros Heq; [vm_compute in Heq| |vm_compute in Heq|];
    discriminate Heq.
Qed.

Lemma infra_cases el :
  infra el = literal "virt" ∨ infra el = literal "ovb" ∨
  infra el = literal "baremetal".
Proof.
  unfold infra. destruct (is_virt el); [by left|].
  destruct (contains (literal "ovb") el); [right; by left|right; by right].
Qed.

Lemma elem_of_kinds kind els :
  kind ∈ (list_to_set (map infra els) : gset text) ↔
  ∃ el, In el els ∧ infra el = kind.
Proof.
  rewrite elem_of_list_to_set, list_elem_of_In, in_map_iff.
  split; intros [el [? ?]]; by exists el.
Qed.

Lemma kinds_case els :
  els ≠ [] →
  (list_to_set (map infra els) : gset text) ≠ ∅ ∧
  (if decide (literal "ovb" ∈ (list_to_set (map infra els) : gset text))
   then [literal "ovb"]
   else if decide
             (literal "baremetal" ∈ (list_to_set (map infra els) : gset text))
        then [literal "baremetal"]
        else [literal "virt"]) =
  [if existsb is_ovb els then literal "ovb"
   else if forallb is_virt els then literal "virt"
        else literal "baremetal"].
Proof.
  intros Hne. split.
  - destruct els as [|el els]; [done|]. intros Hempty.
    assert (Hin : infra el ∈ (list_to_set (map infra (el :: els)) : gset text)).
    { apply elem_of_kinds. exists el. split; [by left|done]. }
    rewrite Hempty in Hin. by apply not_elem_of_empty in Hin.
  - destruct (decide (literal "ovb" ∈ _)) as [Hovb|Hovb].
    + apply elem_of_kinds in Hovb as [el [Hin Hel]].
      assert (Hex : existsb is_ovb els = true).
      { apply existsb_exists. exists el. split; [done|by apply infra_ovb]. }
      by rewrite Hex.
    + assert (Hex : existsb is_ovb els = false).
      { apply not_true_is_false. intros [el [Hin Hel]]%existsb_exists.
        apply Hovb, elem_of_kinds. exists el. split; [done|].
        by apply infra_ovb. }
      rewrite Hex.
      destruct (decide (literal "baremetal" ∈ _)) as [Hbare|Hbare].
      * apply elem_of_kinds in Hbare as [el [Hin Hel]].
        assert (Hall : forallb is_virt els = false).
        { apply not_true_is_false. intros Hall.
          rewrite forallb_forall in Hall. apply Hall, infra_virt in Hin.
          rewrite Hin in Hel. vm_compute in Hel. discriminate Hel. }
        by rewrite Hall.
      * assert (Hall : forallb is_virt els = true).
        { apply forallb_forall. intros el Hin. apply infra_virt.
          destruct (infra_cases el) as [Hk|[Hk|Hk]]; [done| |].
          - exfalso. apply Hovb, elem_of_kinds. by exists el.
          - exfalso. apply Hbare, elem_of_kinds. by exists el. }
        by rewrite Hall.
Qed.

(** X24. When no type is asked for, the answer is [None] if the file names
    no deployment; else it is ovb as soon as one deployment is an ovb one,
    virt only when every deployment is a virt one, and baremetal in every
    other case. *)
Theorem infra_type_priority in_mem_file :
  _get_infra_type in_mem_file (Some []) =
  match found in_mem_file with
  | [] => None
  | _ :: _ =>
      if existsb is_ovb (found in_mem_file) then Some (literal "ovb")
      else if forallb is_virt (found in_mem_file) then Some (literal "virt")
           else Some (literal "baremetal")
  end.
Proof.
  unfold JenkinsJobBuilder._get_infra_type. rewrite result_of.
  destruct (found in_mem_file) as [|el els] eqn:Hfound; [done|].
  rewrite <- Hfound.
  destruct (kinds_case (found in_mem_file)) as [Hne ->]; [by rewrite Hfound|].
  destruct (decide _) as [Hempty|_]; [done|].
  cbn [str_join].
  destruct (existsb is_ovb _); [done|]. by destruct (forallb is_virt _).
Qed.

(** X25. An answer to a request is the answer when no type is asked for,
    and the words of the request, written with a space between, are a
    part of it. *)
Theorem infra_type_requested in_mem_file value answer :
  _get_infra_type in_mem_file (Some value) = Some answer →
  _get_infra_type in_mem_file (Some []) = Some answer ∧
  (value = [] ∨
   ∃ before after,
     answer = before ++ str_join (literal " ") value ++ after).
Proof.
  unfold JenkinsJobBuilder._get_infra_type. rewrite result_of.
  destruct (decide _) as [Hempty|Hne]; [done|].
  destruct value as [|word words]; [intros ->; split; [done|by left]|].
  rewrite args_are_in_list_exists.
  set (kinds := if decide (literal "ovb" ∈ _) then _ else _).
  assert (Hone : ∃ kind, kinds = [kind]).
  { unfold kinds. destruct (decide _); [by eexists|].
    destruct (decide _); by eexists. }
  destruct Hone as [kind ->]. cbn [existsb str_join]. rewrite orb_false_r.
  destruct (contains _ kind) eqn:Hpart; [|done].
  intros [= <-]. split; [done|]. right. by apply contains_spec.
Qed.

Lemma kind_without_space (kinds : gset text) :
  SPACE ∉
    match (if decide (literal "ovb" ∈ kinds) then [literal "ovb"]
           else if decide (literal "baremetal" ∈ kinds)
                then [literal "baremetal"]
                else [literal "virt"]) with
    | [kind] => kind
    | _ => []
    end.
Proof.
  destruct (decide _); [|destruct (decide _)];
    intros Hin; apply list_elem_of_In in Hin; vm_compute in Hin;
    intuition discriminate.
Qed.

(** X26. A request for two or more types is never answered. *)
Theorem infra_type_several in_mem_file value :
  2 ≤ length value →
  _get_infra_type in_mem_file (Some value) = None.
Proof.
  intros Hlen. unfold JenkinsJobBuilder._get_infra_type. rewrite result_of.
  destruct (decide _) as [Hempty|Hne]; [done|].
  destruct value as [|word words]; [simpl in Hlen; lia|].
  rewrite args_are_in_list_exists.
  pose proof (kind_without_space
                (list_to_set (map infra (found in_mem_file)))) as Hfree.
  set (kinds := if decide (literal "ovb" ∈ _) then _ else _) in *.
  assert (Hone : ∃ kind, kinds = [kind]).
  { unfold kinds. destruct (decide _); [by eexists|].
    destruct (decide _); by eexists. }
  destruct Hone as [kind Hkind]. rewrite Hkind in *.
  cbn [existsb]. rewrite orb_false_r.
  by rewrite contains_several.
Qed.

End InfraLaws.

(** A file that names a virt and an ovb deployment, with a line taken as
    the one deployment it names. *)
Definition a_file : list text :=
  [literal "--deployment-files virt"; literal "echo";
   literal "--deployment-files ovb"].

Definition unchanged (line : text) : text := line.

Definition whole (line : text) : list text := [line].

Lemma infra_type_requested_witness :
  _get_infra_type unchanged whole a_file (Some []) = Some (literal "ovb") ∧
  ([literal "ov"] = [] ∨
   ∃ before after,
     literal "ovb" =
     before ++ str_join (literal " ") [literal "ov"] ++ after).
Proof.
  apply (infra_type_requested unchanged whole a_file [literal "ov"]
           (literal "ovb")).
  vm_compute. reflexivity.
Defined.

Lemma infra_type_several_witness :
  _get_infra_type unchanged whole a_file
    (Some [literal "ovb"; literal "virt"]) = None.
Proof.
  apply (infra_type_several unchanged whole a_file
           [literal "ovb"; literal "virt"]).
  simpl. lia.
Defined.

End JenkinsJobBuilderLaws.
